(** * TreeSet: an ordered set on an unbalanced binary search tree

  A shallow embedding of [treeset.h] (class templates [TreeSet<T, Compare>]
  and [TreeSetIter<T, Compare>]) and the properties of its operations.

  Two views of the same code are given.

  - The first part models one set that is the only owner of its nodes
    (what [add], [del], the initializer list and the set algebra
    produce).  A [shared_ptr<node>] that is owned once is an inductive
    tree, and an assignment to [n->left] is the rebuilding of the path
    from the root to [n].
  - Module [Store] models the nodes in a store with addresses, so that two
    [TreeSet] objects can hold the same [shared_ptr].  It is needed for
    the move operations and for assignment, which look at addresses.

  The part "The store refines the trees" relates the two: on a tree that
  a set owns alone, [add], [contains], [del], the iterator and
  [operator==] of the store compute what their counterparts on trees
  compute.

  The last part, "Further properties of the operations", covers the
  iterator as a cursor, what [add] and [del] do to a traversal, the set
  algebra, the sanity check, the copy operations on the store and the
  helpers of the test suite. *)

From Stdlib Require Import ZArith List Bool Sorted Permutation Lia.
From stdpp Require Import base decidable list sets sorting strings pretty.

Local Open Scope Z_scope.

(** ** The template parameters *)

(** [Compare] is any callable [_cmp(a, b)]; the header asks nothing of it.
    The properties below name what they need. *)
Section Comparator.
Context {T : Type}.
Variable _cmp : T → T → bool.

(** Neither [a < b] nor [b < a]. *)
Definition equivalent (a b : T) : Prop :=
  _cmp a b = false ∧ _cmp b a = false.

Record StrictWeakOrder : Prop := {
  swo_irrefl : ∀ x, _cmp x x = false;
  swo_trans : ∀ x y z, _cmp x y = true → _cmp y z = true → _cmp x z = true;
  swo_equiv_trans : ∀ x y z, equivalent x y → equivalent y z → equivalent x z
}.

(** Equivalent values are equal: the order is total on [T]. *)
Definition TotalOrder : Prop := ∀ x y, equivalent x y → x = y.
End Comparator.

(** [std::numeric_limits<T>]. *)
Class numeric_limits (T : Type) := {
  is_specialized : bool;
  nl_min : T;
  nl_max : T
}.

(** [int] is a 32-bit two's complement integer. *)
Definition INT_MIN : Z := - 2 ^ 31.
Definition INT_MAX : Z := 2 ^ 31 - 1.

Definition numeric_limits_int : numeric_limits Z :=
  {| is_specialized := true; nl_min := INT_MIN; nl_max := INT_MAX |}.

(** [std::string] has no specialization; the members are then value
    initialized. *)
Definition numeric_limits_string : numeric_limits string :=
  {| is_specialized := false; nl_min := EmptyString; nl_max := EmptyString |}.

(** [std::less<int>] and [std::greater<int>]. *)
Definition less : Z → Z → bool := Z.ltb.
Definition greater : Z → Z → bool := Z.gtb.

(** A comparator that is a strict weak order but not a total one: integers
    compared by their absolute value. *)
Definition abs_less (a b : Z) : bool := Z.abs a <? Z.abs b.

(** ** Nodes *)

(** The element type [T] with its [operator==], which is read as equality
    of values (as it is for [int] and [std::string]). *)
Section TreeSet.
Context {T : Type} {T_eq : EqDecision T}.

(** [_cmp], the comparator object of the set. *)
Variable _cmp : T → T → bool.

(** [sp_node = std::shared_ptr<node>]: null, or a node with its value and
    its two children. *)
Inductive sp_node : Type :=
| nullptr : sp_node
| node (left : sp_node) (value : T) (right : sp_node) : sp_node.

Definition is_null (n : sp_node) : bool :=
  match n with nullptr => true | node _ _ _ => false end.

(** [node(const T &value)]. *)
Definition make_node (value : T) : sp_node := node nullptr value nullptr.

(** The values of a subtree, left to right; [count] is their number. *)
Fixpoint inorder (n : sp_node) : list T :=
  match n with
  | nullptr => []
  | node l v r => inorder l ++ v :: inorder r
  end.

Fixpoint count (n : sp_node) : nat :=
  match n with
  | nullptr => 0
  | node l _ r => S (count l + count r)
  end.

(** ** The set *)

(** [_size] is an [int] in the source.  It is only ever incremented and
    decremented by one, and is kept as an integer without bound here: the
    overflow of a set of more than [INT_MAX] nodes, undefined in C++, is
    not followed. *)
Record TreeSet : Type := mkTreeSet {
  _root : sp_node;
  _size : Z
}.

Definition size (s : TreeSet) : Z := _size s.

(** [TreeSet()]. *)
Definition TreeSet_empty : TreeSet := {| _root := nullptr; _size := 0 |}.

(** The loop of [add], from the node [n].  It returns the subtree that
    hangs where [n] was. *)
Fixpoint add_loop (value : T) (n : sp_node) : bool * sp_node :=
  match n with
  | nullptr => (false, nullptr)
  | node l v r =>
      if bool_decide (value = v) then (false, n)
      else if _cmp value v then
        match l with
        | nullptr => (true, node (make_node value) v r)
        | node _ _ _ =>
            let '(b, l') := add_loop value l in (b, node l' v r)
        end
      else
        match r with
        | nullptr => (true, node l v (make_node value))
        | node _ _ _ =>
            let '(b, r') := add_loop value r in (b, node l v r')
        end
  end.

(** [bool add(const T &value)].  The calls [assert(sanity_check(_root))]
    are compiled out under [NDEBUG] and are not part of the function; the
    check itself is modelled further down. *)
Definition add (value : T) (s : TreeSet) : bool * TreeSet :=
  if size s =? 0 then
    (true, {| _root := make_node value; _size := 1 |})
  else
    let '(b, r) := add_loop value (_root s) in
    (b, {| _root := r; _size := if b then _size s + 1 else _size s |}).

(** The loop of [contains]. *)
Fixpoint contains_loop (value : T) (n : sp_node) : bool :=
  match n with
  | nullptr => false
  | node l v r =>
      if bool_decide (value = v) then true
      else if _cmp value v then contains_loop value l
      else contains_loop value r
  end.

(** [bool contains(const T &value) const]. *)
Definition contains (value : T) (s : TreeSet) : bool :=
  if size s =? 0 then false else contains_loop value (_root s).

(** The loop of [merge]: walk down the left links of [n] and hang [small]
    under the last node. *)
Fixpoint attach_leftmost (small n : sp_node) : sp_node :=
  match n with
  | nullptr => nullptr
  | node l v r =>
      match l with
      | nullptr => node small v r
      | node _ _ _ => node (attach_leftmost small l) v r
      end
  end.

(** [sp_node merge(const sp_node &small, sp_node &big)]. *)
Definition merge (small big : sp_node) : sp_node :=
  match small, big with
  | nullptr, _ => big
  | _, nullptr => small
  | _, _ => attach_leftmost small big
  end.

(** The loop of [del].  When the value is found at [n], the slot that held
    [n] (the root, or the child of [parent] that [replace_child] picks by
    comparing addresses) receives the merged children of [n]. *)
Fixpoint del_loop (value : T) (n : sp_node) : bool * sp_node :=
  match n with
  | nullptr => (false, nullptr)
  | node l v r =>
      if bool_decide (value = v) then (true, merge l r)
      else if _cmp value v then
        let '(b, l') := del_loop value l in (b, node l' v r)
      else
        let '(b, r') := del_loop value r in (b, node l v r')
  end.

(** [bool del(const T &value)]. *)
Definition del (value : T) (s : TreeSet) : bool * TreeSet :=
  if size s =? 0 then (false, s)
  else
    let '(b, r) := del_loop value (_root s) in
    (b, {| _root := r; _size := if b then _size s - 1 else _size s |}).

(** [TreeSet(const std::initializer_list<T> &list)]. *)
Definition TreeSet_of_list (list : list T) : TreeSet :=
  fold_left (λ s item, snd (add item s)) list TreeSet_empty.

(** ** The iterator *)

Record TreeSetIter : Type := mkIter {
  _next_node_stack : list sp_node;
  _current_node : sp_node
}.

(** The [while] loop of [inorder_traverse_to_leftmost_node]: push [n] and
    go to its left child until there is none. *)
Fixpoint push_left (n : sp_node) (stack : list sp_node) : list sp_node :=
  match n with
  | nullptr => stack
  | node l _ _ => push_left l (n :: stack)
  end.

Definition inorder_traverse_to_leftmost_node
    (it : TreeSetIter) (from_node : sp_node) : TreeSetIter :=
  match push_left from_node (_next_node_stack it) with
  | top :: stack => {| _next_node_stack := stack; _current_node := top |}
  | [] => {| _next_node_stack := []; _current_node := nullptr |}
  end.

(** [TreeSetIter()] and [TreeSetIter(root_node)]. *)
Definition TreeSetIter_default : TreeSetIter :=
  {| _next_node_stack := []; _current_node := nullptr |}.

Definition TreeSetIter_at (root_node : sp_node) : TreeSetIter :=
  inorder_traverse_to_leftmost_node TreeSetIter_default root_node.

Definition begin (s : TreeSet) : TreeSetIter := TreeSetIter_at (_root s).
Definition end_ (s : TreeSet) : TreeSetIter := TreeSetIter_default.

(** [operator++()]. *)
Definition incr (it : TreeSetIter) : TreeSetIter :=
  match _current_node it with
  | nullptr => it
  | node _ _ r => inorder_traverse_to_leftmost_node it r
  end.

(** The dereference operator; reading through the null pointer has no
    value. *)
Definition deref (it : TreeSetIter) : option T :=
  match _current_node it with
  | nullptr => None
  | node _ v _ => Some v
  end.

(** [it == end()]: [operator==] compares the addresses in
    [_current_node], and the one of [end()] is null. *)
Definition at_end (it : TreeSetIter) : bool := is_null (_current_node it).

(** The nodes an iterator has still to visit: the current one with its
    right subtree, then the same for each stacked node, top first. *)
Definition node_rest (n : sp_node) : list T :=
  match n with
  | nullptr => []
  | node _ v r => v :: inorder r
  end.

Definition iter_rest (it : TreeSetIter) : list T :=
  node_rest (_current_node it) ++
  concat (map node_rest (_next_node_stack it)).

(** [for (auto it = from; it != end(); it++)] with a body that reads the
    value under [it] and updates [acc].  The bound [fuel] counts the turns
    of the loop. *)
Fixpoint iter_loop {S : Type} (fuel : nat) (body : T → S → S)
    (it : TreeSetIter) (acc : S) : option S :=
  match fuel with
  | O => None
  | Datatypes.S fuel =>
      match deref it with
      | None => Some acc
      | Some v => iter_loop fuel body (incr it) (body v acc)
      end
  end.

(** A full pass over a set.  The loop takes one turn for each node and one
    more to see the end, which [for_each_inorder] shows to be enough. *)
Definition for_each {S : Type} (body : T → S → S) (s : TreeSet) (acc : S)
    : S :=
  default acc (iter_loop (Datatypes.S (count (_root s))) body (begin s) acc).

(** The sequence of values that a walk from [begin()] to [end()] yields. *)
Definition traversal (s : TreeSet) : list T :=
  reverse (for_each cons s []).

(** ** Equality and the set algebra *)

(** The loop of [operator==]. At its exit one of the two iterators is at
    the end, so the final comparison of addresses says whether both are. *)
Fixpoint eq_loop (fuel : nat) (this_it rhs_it : TreeSetIter) : option bool :=
  match fuel with
  | O => None
  | Datatypes.S fuel =>
      match deref this_it, deref rhs_it with
      | Some a, Some b =>
          if bool_decide (a ≠ b) then Some false
          else eq_loop fuel (incr this_it) (incr rhs_it)
      | _, _ => Some (at_end this_it && at_end rhs_it)
      end
  end.

(** [bool operator==(const TreeSet &rhs)]. *)
Definition set_eq (s rhs : TreeSet) : bool :=
  default false
    (eq_loop (Datatypes.S (count (_root s))) (begin s) (begin rhs)).

Definition add_to (value : T) (new_set : TreeSet) : TreeSet :=
  snd (add value new_set).

(** [TreeSet plus(const TreeSet &s) const]. *)
Definition plus (this s : TreeSet) : TreeSet :=
  for_each add_to s (for_each add_to this TreeSet_empty).

(** [TreeSet intersect(const TreeSet &s) const]. *)
Definition intersect (this s : TreeSet) : TreeSet :=
  for_each
    (λ x new_set,
       for_each
         (λ y new_set, if bool_decide (x = y) then add_to x new_set
                       else new_set)
         s new_set)
    this TreeSet_empty.

(** [TreeSet minus(const TreeSet &s) const]. *)
Definition minus (this s : TreeSet) : TreeSet :=
  for_each
    (λ x new_set, if contains x s then new_set else add_to x new_set)
    this TreeSet_empty.

(** ** Rendering *)

(** [os << value] for a [T]: the characters it writes. *)
Variable put : T → string.

(** The loop of [operator<<]: the value, then a comma unless the iterator
    has reached the end. *)
Fixpoint put_loop (fuel : nat) (os : string) (it : TreeSetIter)
    : option string :=
  match fuel with
  | O => None
  | Datatypes.S fuel =>
      match deref it with
      | None => Some os
      | Some v =>
          let it' := incr it in
          let os := os +:+ put v in
          put_loop fuel (if at_end it' then os else os +:+ ",") it'
      end
  end.

(** [ostream& operator<<(ostream &os, const TreeSet &s)], as the text
    appended to an empty stream. *)
Definition render (s : TreeSet) : string :=
  default ""
    (put_loop (Datatypes.S (count (_root s))) "[" (begin s)) +:+ "]".

(** The format in words: the values joined by single commas. *)
Fixpoint comma_join (l : list string) : string :=
  match l with
  | [] => ""
  | [x] => x
  | x :: l => x +:+ "," +:+ comma_join l
  end.

(** ** The sanity check *)

(** [sanity_check(n, minval, maxval)], with the values it reports on
    [cerr].  The right subtree is only visited when the left one passed
    ([&&]). *)
Fixpoint sanity_check_range (n : sp_node) (minval maxval : T)
    : bool * list T :=
  match n with
  | nullptr => (_cmp minval maxval, [])
  | node l v r =>
      let issue := if _cmp v minval || _cmp maxval v then [v] else [] in
      let '(bl, el) := sanity_check_range l minval v in
      if bl then
        let '(br, er) := sanity_check_range r v maxval in
        (br, issue ++ el ++ er)
      else (false, issue ++ el)
  end.

(** The chain that the check amounts to: [lo], the values of [l] and [hi],
    each strictly below the next. *)
Fixpoint chain (lo : T) (l : list T) (hi : T) : bool :=
  match l with
  | [] => _cmp lo hi
  | x :: l => _cmp lo x && chain x l hi
  end.

(** [sanity_check(n)]. *)
Definition sanity_check {limits : numeric_limits T} (n : sp_node) : bool :=
  if is_specialized then
    let minval := nl_min in
    let maxval := nl_max in
    let '(minval, maxval) :=
      if _cmp minval maxval then (minval, maxval) else (maxval, minval) in
    fst (sanity_check_range n minval maxval)
  else true.

(** ** Sequences of operations *)

Inductive op : Type :=
| Add (value : T)
| Del (value : T).

Definition apply_op (s : TreeSet) (o : op) : TreeSet :=
  match o with
  | Add v => snd (add v s)
  | Del v => snd (del v s)
  end.

Definition run (ops : list op) (s : TreeSet) : TreeSet :=
  fold_left apply_op ops s.

(** The sets that the operations of the class build from the empty set,
    each owning its nodes alone. *)
Inductive reachable : TreeSet → Prop :=
| reachable_empty : reachable TreeSet_empty
| reachable_add v s : reachable s → reachable (snd (add v s))
| reachable_del v s : reachable s → reachable (snd (del v s))
| reachable_plus a b : reachable a → reachable b → reachable (plus a b)
| reachable_intersect a b :
    reachable a → reachable b → reachable (intersect a b)
| reachable_minus a b : reachable a → reachable b → reachable (minus a b).

(** ** The invariant *)

(** Every value sits where the search for it goes: in the left subtree of
    the nodes it is less than, in the right subtree of the others. *)
Fixpoint search_tree (n : sp_node) : Prop :=
  match n with
  | nullptr => True
  | node l v r =>
      Forall (λ x, _cmp x v = true) (inorder l) ∧
      Forall (λ x, _cmp x v = false ∧ x ≠ v) (inorder r) ∧
      search_tree l ∧ search_tree r
  end.

Definition valid (s : TreeSet) : Prop :=
  search_tree (_root s) ∧ _size s = Z.of_nat (count (_root s)).

(** [a] may come before [b] in a traversal: [b] is not below [a], and they
    differ. *)
Definition before (a b : T) : Prop := _cmp b a = false ∧ a ≠ b.

(** An iterator is well formed when its stack holds nodes only and is
    empty once the current node is null. *)
Definition iter_wf (it : TreeSetIter) : Prop :=
  Forall (λ n, is_null n = false) (_next_node_stack it) ∧
  (_current_node it = nullptr → _next_node_stack it = []).

(** One turn of a loop that adds [x] to [new_set] when [keep] selects it. *)
Definition add_if (keep : T → bool) (new_set : TreeSet) (x : T) : TreeSet :=
  if keep x then add_to x new_set else new_set.
End TreeSet.

(** ** Further members, and the helpers of the test suite *)

Section Members.
Context {T : Type} {T_eq : EqDecision T}.
Variable _cmp : T → T → bool.

(** [k] applications of [operator++]. *)
Definition advance (k : nat) (it : @TreeSetIter T) : TreeSetIter :=
  Nat.iter k incr it.

(** [bool operator!=(const TreeSet &rhs)]. *)
Definition set_neq (s rhs : @TreeSet T) : bool := negb (set_eq s rhs).

(** [add_values] and [del_values] of the test suite: the operations in
    order, with the outcome that each [CHECK] is given. *)
Fixpoint add_values (values : list T) (s : @TreeSet T)
    : list bool * TreeSet :=
  match values with
  | [] => ([], s)
  | n :: values =>
      let '(b, s) := add _cmp n s in
      let '(bs, s) := add_values values s in
      (b :: bs, s)
  end.

Fixpoint del_values (values : list T) (s : @TreeSet T)
    : list bool * TreeSet :=
  match values with
  | [] => ([], s)
  | n :: values =>
      let '(b, s) := del _cmp n s in
      let '(bs, s) := del_values values s in
      (b :: bs, s)
  end.

(** [check_add_del_ordering] of the test suite, on the set [s]: the values
    given to [CHECK], in order, and the set at the end. *)
Definition check_add_del_ordering (s : @TreeSet T)
    (add_order del_order expected_values : list T) : list bool * TreeSet :=
  let '(added, s) := add_values add_order s in
  let size_after_add := bool_decide (size s = Z.of_nat (length add_order)) in
  let present := map (λ value, negb (contains _cmp value s)) expected_values in
  let '(deleted, s) := del_values del_order s in
  let size_after_del := bool_decide (size s = 0) in
  let absent := map (λ value, negb (contains _cmp value s)) expected_values in
  (added ++ [size_after_add] ++ present ++ deleted ++ [size_after_del] ++
   absent, s).

(** The size member counts the nodes of the tree. *)
Definition counted (s : @TreeSet T) : Prop :=
  _size s = Z.of_nat (count (_root s)).

(** [operator++(int)]: the iterator as it was, which is returned, and the
    iterator after [++]. *)
Definition post_incr (it : @TreeSetIter T) : TreeSetIter * TreeSetIter :=
  (it, incr it).

(** The last loop of [check_iter_ordering]: for each expected value the
    value under [it] is compared with it, then [it++].  Reading through the
    end iterator has no value. *)
Fixpoint check_iter (it : @TreeSetIter T) (expected_order : list T)
    : option (list bool) :=
  match expected_order with
  | [] => Some []
  | value :: expected_order =>
      v ← deref it;
      checks ← check_iter (snd (post_incr it)) expected_order;
      Some (bool_decide (v = value) :: checks)
  end.

(** [check_iter_ordering] of the test suite: the values given to
    [CHECK], in order. *)
Definition check_iter_ordering (s : @TreeSet T)
    (add_order expected_order : list T) : option (list bool) :=
  let '(added, s) := add_values add_order s in
  let size_after_add := bool_decide (size s = Z.of_nat (length add_order)) in
  let present := map (λ value, contains _cmp value s) expected_order in
  checks ← check_iter (begin s) expected_order;
  Some (added ++ [size_after_add] ++ present ++ checks).
End Members.

(** * The nodes in a store

    The same code with the nodes kept in a store, so that a
    [shared_ptr<node>] is an address that several owners may hold.  A node
    lives as long as somebody points to it, so nothing is ever removed from
    the store.  Loops that follow pointers take a bound on their number of
    turns, which a walk down a tree in the store never reaches; [None]
    stands for a loop that has not ended within it, as on a structure with
    a cycle. *)
Module Store.
Section Store.
Context {T : Type} {T_eq : EqDecision T}.
Variable _cmp : T → T → bool.

(** [sp_node]: null, or the address of a node. *)
Definition sp_node : Type := option nat.

Record node : Type := mk_node {
  value : T;
  left : sp_node;
  right : sp_node
}.

(** [std::make_shared<node>(...)]: the new node gets the next address. *)
Definition make_shared (nd : node) (h : list node) : nat * list node :=
  (length h, h ++ [nd]).

Definition set_left (nd : node) (p : sp_node) : node :=
  {| value := value nd; left := p; right := right nd |}.

Definition set_right (nd : node) (p : sp_node) : node :=
  {| value := value nd; left := left nd; right := p |}.

Record TreeSet : Type := mkTreeSet {
  _root : sp_node;
  _size : Z
}.

Definition size (s : TreeSet) : Z := _size s.

(** The bound used for a loop that walks down a tree in the store [h]. *)
Definition depth_bound (h : list node) : nat := S (length h).

(** The loop of [add], at the node [n]. *)
Fixpoint add_loop (fuel : nat) (val : T) (n : nat) (h : list node)
    : option (bool * list node) :=
  match fuel with
  | O => None
  | S fuel =>
      nd ← h !! n;
      if bool_decide (val = value nd) then Some (false, h)
      else if _cmp val (value nd) then
        match left nd with
        | None =>
            let '(a, h) := make_shared (mk_node val None None) h in
            Some (true, <[n := set_left nd (Some a)]> h)
        | Some l => add_loop fuel val l h
        end
      else
        match right nd with
        | None =>
            let '(a, h) := make_shared (mk_node val None None) h in
            Some (true, <[n := set_right nd (Some a)]> h)
        | Some r => add_loop fuel val r h
        end
  end.

(** [bool add(const T &value)], on the set [s] with the store [h]. *)
Definition add (val : T) (h : list node) (s : TreeSet)
    : option (bool * list node * TreeSet) :=
  if size s =? 0 then
    let '(a, h) := make_shared (mk_node val None None) h in
    Some (true, h, {| _root := Some a; _size := 1 |})
  else
    match _root s with
    | None => Some (false, h, s)
    | Some n =>
        '(b, h') ← add_loop (depth_bound h) val n h;
        Some (b, h', {| _root := _root s;
                        _size := if b : bool then _size s + 1 else _size s |})
    end.

(** The loop of [contains]. *)
Fixpoint contains_loop (fuel : nat) (val : T) (n : sp_node) (h : list node)
    : option bool :=
  match fuel with
  | O => None
  | S fuel =>
      match n with
      | None => Some false
      | Some a =>
          nd ← h !! a;
          if bool_decide (val = value nd) then Some true
          else if _cmp val (value nd) then contains_loop fuel val (left nd) h
          else contains_loop fuel val (right nd) h
      end
  end.

Definition contains (val : T) (h : list node) (s : TreeSet) : option bool :=
  if size s =? 0 then Some false
  else contains_loop (depth_bound h) val (_root s) h.

(** The loop of [merge]: the last node down the left links of [n]. *)
Fixpoint leftmost (fuel : nat) (n : nat) (h : list node) : option nat :=
  match fuel with
  | O => None
  | S fuel =>
      nd ← h !! n;
      match left nd with
      | None => Some n
      | Some l => leftmost fuel l h
      end
  end.

(** [sp_node merge(const sp_node &small, sp_node &big)]. *)
Definition merge (small big : sp_node) (h : list node)
    : option (sp_node * list node) :=
  match small, big with
  | None, _ => Some (big, h)
  | _, None => Some (small, h)
  | Some _, Some b =>
      n ← leftmost (depth_bound h) b h;
      nd ← h !! n;
      Some (big, <[n := set_left nd small]> h)
  end.

(** [void node::replace_child(old_child, new_child)] on the node at
    [parent]; the children are compared by address. *)
Definition replace_child (parent : nat) (old_child new_child : sp_node)
    (h : list node) : option (list node) :=
  nd ← h !! parent;
  if bool_decide (left nd = old_child)
  then Some (<[parent := set_left nd new_child]> h)
  else Some (<[parent := set_right nd new_child]> h).

(** The loop of [del]; it returns the root of the set afterwards. *)
Fixpoint del_loop (fuel : nat) (val : T) (n parent root : sp_node)
    (h : list node) : option (bool * sp_node * list node) :=
  match fuel with
  | O => None
  | S fuel =>
      match n with
      | None => Some (false, root, h)
      | Some a =>
          nd ← h !! a;
          if bool_decide (val = value nd) then
            '(merged, h) ← merge (left nd) (right nd) h;
            match parent with
            | None => Some (true, merged, h)
            | Some p =>
                h ← replace_child p n merged h;
                Some (true, root, h)
            end
          else if _cmp val (value nd)
          then del_loop fuel val (left nd) n root h
          else del_loop fuel val (right nd) n root h
      end
  end.

(** [bool del(const T &value)]. *)
Definition del (val : T) (h : list node) (s : TreeSet)
    : option (bool * list node * TreeSet) :=
  if size s =? 0 then Some (false, h, s)
  else
    '(b, root, h') ← del_loop (depth_bound h) val (_root s) None (_root s) h;
    Some (b, h', {| _root := root;
                    _size := if b : bool then _size s - 1 else _size s |}).

(** The iterator: the stack and the current node hold addresses. *)
Record TreeSetIter : Type := mkIter {
  _next_node_stack : list nat;
  _current_node : sp_node
}.

Fixpoint push_left (fuel : nat) (n : sp_node) (stack : list nat)
    (h : list node) : option (list nat) :=
  match fuel with
  | O => None
  | S fuel =>
      match n with
      | None => Some stack
      | Some a => nd ← h !! a; push_left fuel (left nd) (a :: stack) h
      end
  end.

Definition inorder_traverse_to_leftmost_node (it : TreeSetIter)
    (from_node : sp_node) (h : list node) : option TreeSetIter :=
  stack ← push_left (depth_bound h) from_node (_next_node_stack it) h;
  match stack with
  | top :: stack =>
      Some {| _next_node_stack := stack; _current_node := Some top |}
  | [] => Some {| _next_node_stack := []; _current_node := None |}
  end.

Definition begin (h : list node) (s : TreeSet) : option TreeSetIter :=
  inorder_traverse_to_leftmost_node
    {| _next_node_stack := []; _current_node := None |} (_root s) h.

(** [operator++()]. *)
Definition incr (it : TreeSetIter) (h : list node) : option TreeSetIter :=
  match _current_node it with
  | None => Some it
  | Some a => nd ← h !! a; inorder_traverse_to_leftmost_node it (right nd) h
  end.

(** The values met from [it] up to the end. *)
Fixpoint iter_values (fuel : nat) (it : TreeSetIter) (h : list node)
    : option (list T) :=
  match fuel with
  | O => None
  | S fuel =>
      match _current_node it with
      | None => Some []
      | Some a =>
          nd ← h !! a;
          it' ← incr it h;
          rest ← iter_values fuel it' h;
          Some (value nd :: rest)
      end
  end.

(** The values that a walk from [begin()] to [end()] yields. *)
Definition traversal (h : list node) (s : TreeSet) : option (list T) :=
  it ← begin h s; iter_values (depth_bound h) it h.

(** The loop of [operator==]: both iterators are read and advanced, then
    the two values are compared; at the exit the addresses in
    [_current_node] are. *)
Fixpoint eq_loop (fuel : nat) (this_it rhs_it : TreeSetIter) (h : list node)
    : option bool :=
  match fuel with
  | O => None
  | S fuel =>
      match _current_node this_it, _current_node rhs_it with
      | Some a, Some b =>
          nda ← h !! a;
          ndb ← h !! b;
          this_it' ← incr this_it h;
          rhs_it' ← incr rhs_it h;
          if bool_decide (value nda ≠ value ndb) then Some false
          else eq_loop fuel this_it' rhs_it' h
      | _, _ =>
          Some (bool_decide (_current_node this_it = _current_node rhs_it))
      end
  end.

(** [bool operator==(const TreeSet &rhs)]. *)
Definition set_eq (h : list node) (s rhs : TreeSet) : option bool :=
  this_it ← begin h s;
  rhs_it ← begin h rhs;
  eq_loop (depth_bound h) this_it rhs_it h.

(** ** Objects

    The sets themselves are objects with an address, which the assignment
    operators compare. *)
Record state : Type := mkState {
  nodes : list node;
  sets : list TreeSet
}.

(** [TreeSet()]: a new object. *)
Definition TreeSet_new (st : state) : nat * state :=
  (length (sets st),
   {| nodes := nodes st;
      sets := sets st ++ [{| _root := None; _size := 0 |}] |}).

(** A member function that may change the store and its own object. *)
Definition on_object {A : Type}
    (f : list node → TreeSet → option (A * list node * TreeSet))
    (this : nat) (st : state) : option (A * state) :=
  s ← sets st !! this;
  '(r, h, s') ← f (nodes st) s;
  Some (r, {| nodes := h; sets := <[this := s']> (sets st) |}).

(** [TreeSet(TreeSet &&other)]: the members are initialized from those of
    [other], which is left as it is. *)
Definition TreeSet_move (other : nat) (st : state) : option (nat * state) :=
  o ← sets st !! other;
  Some (length (sets st),
        {| nodes := nodes st;
           sets := sets st ++ [{| _root := _root o; _size := _size o |}] |}).

(** [TreeSet& operator=(TreeSet &&other)]. *)
Definition move_assign (this other : nat) (st : state) : option state :=
  if bool_decide (this = other) then Some st
  else
    o ← sets st !! other;
    _ ← sets st !! this;
    let root := if 0 <? size o then _root o else None in
    Some {| nodes := nodes st;
            sets := <[this := {| _root := root; _size := _size o |}]>
                      (sets st) |}.

(** [node(const sp_node &other)] under [make_shared]: the deep copy.  A null
    [other] leaves the new node with a default-initialized value, which
    [uninit] stands for. *)
Variable uninit : T.

Fixpoint copy_node (fuel : nat) (other : sp_node) (h : list node)
    : option (nat * list node) :=
  match fuel with
  | O => None
  | S fuel =>
      match other with
      | None => Some (make_shared (mk_node uninit None None) h)
      | Some a =>
          nd ← h !! a;
          '(l, h) ← match left nd with
                    | None => Some (None, h)
                    | Some _ =>
                        '(l, h) ← copy_node fuel (left nd) h; Some (Some l, h)
                    end;
          '(r, h) ← match right nd with
                    | None => Some (None, h)
                    | Some _ =>
                        '(r, h) ← copy_node fuel (right nd) h; Some (Some r, h)
                    end;
          Some (make_shared (mk_node (value nd) l r) h)
      end
  end.

(** [TreeSet& operator=(const TreeSet &other)]. *)
Definition copy_assign (this other : nat) (st : state) : option state :=
  if bool_decide (this = other) then Some st
  else
    o ← sets st !! other;
    _ ← sets st !! this;
    if 0 <? size o then
      '(a, h) ← copy_node (depth_bound (nodes st)) (_root o) (nodes st);
      Some {| nodes := h;
              sets := <[this := {| _root := Some a; _size := _size o |}]>
                        (sets st) |}
    else
      Some {| nodes := nodes st;
              sets := <[this := {| _root := None; _size := _size o |}]>
                        (sets st) |}.

(** [TreeSet(const TreeSet &other)]: a new object, with a deep copy of the
    tree of [other] when [other._size > 0]. *)
Definition TreeSet_copy (other : nat) (st : state) : option (nat * state) :=
  o ← sets st !! other;
  if 0 <? _size o then
    '(a, h) ← copy_node (depth_bound (nodes st)) (_root o) (nodes st);
    Some (length (sets st),
          {| nodes := h;
             sets := sets st ++ [{| _root := Some a; _size := _size o |}] |})
  else
    Some (length (sets st),
          {| nodes := nodes st;
             sets := sets st ++ [{| _root := None; _size := _size o |}] |}).

(** A sequence of [add] and [del] on one set. *)
Definition apply_op (o : op) (h : list node) (s : TreeSet)
    : option (list node * TreeSet) :=
  match o with
  | Add v => '(_, h, s) ← add v h s; Some (h, s)
  | Del v => '(_, h, s) ← del v h s; Some (h, s)
  end.

Fixpoint run (ops : list op) (h : list node) (s : TreeSet)
    : option (list node * TreeSet) :=
  match ops with
  | [] => Some (h, s)
  | o :: ops => '(h, s) ← apply_op o h s; run ops h s
  end.
End Store.
End Store.

(** The store after [TreeSet<int> a; a.add(1);]: the set at address 0 and
    its node. *)
Definition one_set : @Store.state Z :=
  {| Store.nodes := [Store.mk_node 1 None None];
     Store.sets := [{| Store._root := Some 0%nat; Store._size := 1 |}] |}.

(** ** Trees in the store

    A tree whose nodes each live at an address of the store: the link
    between the two views. *)
Section Placed.
Context {T : Type}.

Inductive placed : Type :=
| p_null : placed
| p_node (a : nat) (l : placed) (v : T) (r : placed) : placed.

(** The pointer to the tree, the tree without its addresses, and the
    addresses it occupies. *)
Definition ptr (t : placed) : Store.sp_node :=
  match t with
  | p_null => None
  | p_node a _ _ _ => Some a
  end.

Fixpoint erase (t : placed) : @sp_node T :=
  match t with
  | p_null => nullptr
  | p_node _ l v r => node (erase l) v (erase r)
  end.

Fixpoint addrs (t : placed) : list nat :=
  match t with
  | p_null => []
  | p_node a l _ r => a :: addrs l ++ addrs r
  end.

(** The store [h] holds the nodes of [t] at their addresses. *)
Fixpoint stored (h : list (@Store.node T)) (t : placed) : Prop :=
  match t with
  | p_null => True
  | p_node a l v r =>
      h !! a = Some (Store.mk_node v (ptr l) (ptr r)) ∧
      stored h l ∧ stored h r
  end.

(** No node of [t] is reached twice: [t] is a tree in the store, not a
    graph. *)
Definition owns (h : list (@Store.node T)) (t : placed) : Prop :=
  stored h t ∧ NoDup (addrs t).

(** The address of a node, and the stack of [push_left] with the nodes
    still attached. *)
Definition addr_of (t : placed) : nat :=
  match t with p_null => O | p_node a _ _ _ => a end.

Fixpoint ppush (t : placed) (stack : list placed) : list placed :=
  match t with
  | p_null => stack
  | p_node _ l _ _ => ppush l (t :: stack)
  end.

(** The tree is in the store and small enough for the bound of the loops. *)
Definition fits (h : list (@Store.node T)) (t : placed) : Prop :=
  stored h t ∧ (count (erase t) ≤ length h)%nat.

Definition is_node (t : placed) : Prop := ptr t ≠ None.

(** The iterator over the store [sit] and the one over the tree [it] are at
    the same place. *)
Definition iter_rel (h : list (@Store.node T)) (sit : Store.TreeSetIter) (it : @TreeSetIter T)
    : Prop :=
  ∃ stack cur,
    Forall (λ t, fits h t ∧ is_node t) stack ∧ fits h cur ∧
    sit = {| Store._next_node_stack := addr_of <$> stack;
             Store._current_node := ptr cur |} ∧
    it = {| _next_node_stack := erase <$> stack;
            _current_node := erase cur |}.

(** [merge] on trees with addresses. *)
Fixpoint pattach (small t : placed) : placed :=
  match t with
  | p_null => p_null
  | p_node a l v r =>
      match l with
      | p_null => p_node a small v r
      | p_node _ _ _ _ => p_node a (pattach small l) v r
      end
  end.

Definition pmerge (small big : placed) : placed :=
  match small, big with
  | p_null, _ => big
  | _, p_null => small
  | _, _ => pattach small big
  end.

(** The child slot of the node [pnd] that [replace_child] picks for [t]:
    the left one when it holds the address of [t], else the right one. *)
Definition child_slot (left_side : bool) (pnd : @Store.node T) (t : placed)
    : Prop :=
  if left_side then Store.left pnd = ptr t
  else Store.right pnd = ptr t ∧ (ptr t ≠ None → Store.left pnd ≠ ptr t).

Definition set_child (left_side : bool) (pnd : @Store.node T)
    (p : Store.sp_node) : Store.node :=
  if left_side then Store.set_left pnd p else Store.set_right pnd p.
End Placed.

(** * Properties of a set that owns its nodes *)

Section Iteration.
Context {T : Type} {T_eq : EqDecision T}.

Abbreviation sp_node := (@sp_node T).
Abbreviation TreeSetIter := (@TreeSetIter T).

Lemma length_inorder (n : sp_node) : length (inorder n) = count n.
Proof.
  induction n as [|l IHl v r IHr]; simpl; [done|].
  rewrite length_app; simpl; lia.
Qed.

Lemma push_left_nodes (n : sp_node) stack :
  Forall (λ n, is_null n = false) stack →
  Forall (λ n, is_null n = false) (push_left n stack).
Proof.
  revert stack; induction n as [|l IHl v r _]; intros stack Hs; simpl; auto.
Qed.

Lemma push_left_rest (n : sp_node) stack :
  concat (map node_rest (push_left n stack)) =
  inorder n ++ concat (map node_rest stack).
Proof.
  revert stack; induction n as [|l IHl v r _]; intros stack; simpl; [done|].
  rewrite IHl; simpl. by rewrite <- app_assoc.
Qed.

Lemma leftmost_wf (it : TreeSetIter) n :
  Forall (λ n, is_null n = false) (_next_node_stack it) →
  iter_wf (inorder_traverse_to_leftmost_node it n).
Proof.
  intros Hs. unfold inorder_traverse_to_leftmost_node.
  pose proof (push_left_nodes n _ Hs) as Hp.
  destruct (push_left n (_next_node_stack it)) as [|top stack]; simpl.
  - split; [constructor | done].
  - inversion Hp as [|? ? Htop Hstack]; subst. split; simpl; [done|].
    intros ->. discriminate.
Qed.

Lemma leftmost_rest (it : TreeSetIter) n :
  iter_rest (inorder_traverse_to_leftmost_node it n) =
  inorder n ++ concat (map node_rest (_next_node_stack it)).
Proof.
  rewrite <- push_left_rest. unfold inorder_traverse_to_leftmost_node, iter_rest.
  destruct (push_left n (_next_node_stack it)); simpl; done.
Qed.

Lemma TreeSetIter_at_wf (n : sp_node) : iter_wf (TreeSetIter_at n).
Proof. apply leftmost_wf. constructor. Qed.

Lemma TreeSetIter_at_rest (n : sp_node) : iter_rest (TreeSetIter_at n) = inorder n.
Proof. unfold TreeSetIter_at. rewrite leftmost_rest. simpl. apply app_nil_r. Qed.

Lemma incr_wf (it : TreeSetIter) : iter_wf it → iter_wf (incr it).
Proof.
  intros Hwf. unfold incr. destruct (_current_node it); [done|].
  apply leftmost_wf, Hwf.
Qed.

(** The value under the iterator is the first one left to visit, and
    [++] drops it. *)
Lemma deref_rest (it : TreeSetIter) :
  iter_wf it → deref it = head (iter_rest it).
Proof.
  intros [_ Hnil]. unfold deref, iter_rest.
  destruct (_current_node it); simpl; [|done].
  by rewrite Hnil.
Qed.

Lemma incr_rest (it : TreeSetIter) :
  iter_wf it → iter_rest (incr it) = tail (iter_rest it).
Proof.
  intros [_ Hnil]. unfold incr.
  destruct (_current_node it) as [|l v r] eqn:Hc.
  - unfold iter_rest. rewrite Hc, Hnil; done.
  - rewrite leftmost_rest. unfold iter_rest. rewrite Hc. done.
Qed.

Lemma at_end_rest (it : TreeSetIter) :
  iter_wf it → at_end it = bool_decide (iter_rest it = []).
Proof.
  intros [_ Hnil]. unfold at_end, iter_rest.
  destruct (_current_node it); simpl; [|done].
  by rewrite Hnil.
Qed.

(** With one turn more than there are values left, the loop runs to the
    end and has applied the body to each value in order. *)
Lemma iter_loop_fold {S : Type} (body : T → S → S) fuel (it : TreeSetIter) acc :
  iter_wf it → (length (iter_rest it) < fuel)%nat →
  iter_loop fuel body it acc =
  Some (fold_left (λ a v, body v a) (iter_rest it) acc).
Proof.
  revert it acc; induction fuel as [|fuel IH]; intros it acc Hwf Hlen; [lia|].
  simpl. rewrite deref_rest by done.
  pose proof (incr_rest it Hwf) as Hincr.
  destruct (iter_rest it) as [|v rest]; simpl in *; [done|].
  rewrite IH; [by rewrite Hincr | by apply incr_wf | rewrite Hincr; lia].
Qed.

Lemma for_each_inorder {S : Type} (body : T → S → S) (s : TreeSet) acc :
  for_each body s acc = fold_left (λ a v, body v a) (inorder (_root s)) acc.
Proof.
  unfold for_each, begin.
  rewrite iter_loop_fold.
  - by rewrite TreeSetIter_at_rest.
  - apply TreeSetIter_at_wf.
  - rewrite TreeSetIter_at_rest, length_inorder. lia.
Qed.

Lemma fold_left_cons (l acc : list T) :
  fold_left (λ a v, v :: a) l acc = reverse l ++ acc.
Proof.
  revert acc; induction l as [|x l IH]; intros acc; simpl; [done|].
  rewrite IH, reverse_cons, <- app_assoc. done.
Qed.

Lemma traversal_inorder (s : @TreeSet T) : traversal s = inorder (_root s).
Proof.
  unfold traversal. rewrite for_each_inorder, fold_left_cons, app_nil_r.
  apply reverse_involutive.
Qed.

(** The loop of [operator==] decides whether the two iterators have the
    same values left. *)
Lemma eq_loop_decide fuel (a b : TreeSetIter) :
  iter_wf a → iter_wf b → (length (iter_rest a) < fuel)%nat →
  eq_loop fuel a b = Some (bool_decide (iter_rest a = iter_rest b)).
Proof.
  revert a b; induction fuel as [|fuel IH]; intros a b Ha Hb Hlen; [lia|].
  simpl. rewrite !deref_rest, !at_end_rest by done.
  pose proof (incr_rest a Ha) as Hia. pose proof (incr_rest b Hb) as Hib.
  destruct (iter_rest a) as [|x ra], (iter_rest b) as [|y rb]; simpl in *;
    try done.
  rewrite IH; [|by apply incr_wf..|rewrite Hia; lia].
  rewrite Hia, Hib.
  destruct (decide (x = y)) as [->|Hne].
  - rewrite bool_decide_eq_false_2 by (intros ?; done).
    f_equal. apply bool_decide_ext. split; [congruence|]. by intros [= ->].
  - rewrite bool_decide_eq_true_2 by done.
    symmetry. f_equal. apply bool_decide_eq_false_2. by intros [= ? ?].
Qed.

Lemma set_eq_inorder (s rhs : @TreeSet T) :
  set_eq s rhs = bool_decide (inorder (_root s) = inorder (_root rhs)).
Proof.
  unfold set_eq, begin. rewrite eq_loop_decide.
  - by rewrite !TreeSetIter_at_rest.
  - apply TreeSetIter_at_wf.
  - apply TreeSetIter_at_wf.
  - rewrite TreeSetIter_at_rest, length_inorder. lia.
Qed.
End Iteration.

Section SearchTree.
Context {T : Type} {T_eq : EqDecision T}.
Variable _cmp : T → T → bool.

Abbreviation sp_node := (@sp_node T).
Abbreviation TreeSet := (@TreeSet T).

Lemma swo_asym x y :
  StrictWeakOrder _cmp → _cmp x y = true → _cmp y x = false.
Proof.
  intros Hswo Hxy. destruct (_cmp y x) eqn:Hyx; [|done].
  rewrite <- (swo_irrefl _ Hswo x). symmetry. by eapply swo_trans.
Qed.

(** In a strict weak order a value below [y] is below any [z] that is not
    itself below [y]. *)
Lemma swo_cotrans x y z :
  StrictWeakOrder _cmp →
  _cmp x y = true → _cmp z y = false → _cmp x z = true.
Proof.
  intros Hswo Hxy Hzy. destruct (_cmp x z) eqn:Hxz; [done|].
  assert (_cmp z x = false) as Hzx.
  { destruct (_cmp z x) eqn:E; [|done].
    rewrite <- Hzy. symmetry. by eapply swo_trans. }
  assert (_cmp y z = false) as Hyz.
  { destruct (_cmp y z) eqn:E; [|done].
    rewrite <- Hxz. symmetry. by eapply swo_trans. }
  destruct (swo_equiv_trans _ Hswo x z y) as [Hxy' _]; [done..|congruence].
Qed.

(** *** Searching *)

Lemma contains_loop_elem v (n : sp_node) :
  search_tree _cmp n → contains_loop _cmp v n = true ↔ v ∈ inorder n.
Proof.
  induction n as [|l IHl w r IHr]; simpl.
  - intros _. split; [done|]. by intros ?%elem_of_nil.
  - intros (Hl & Hr & Sl & Sr).
    rewrite elem_of_app, elem_of_cons.
    rewrite Forall_forall in Hl. rewrite Forall_forall in Hr.
    case_bool_decide as Hvw; [split; auto|].
    destruct (_cmp v w) eqn:Hc.
    + rewrite IHl by done. split; [auto|].
      intros [?|[?|Hin]]; [done..|]. apply Hr in Hin. destruct Hin; congruence.
    + rewrite IHr by done. split; [auto|].
      intros [Hin|[?|?]]; [|done..]. apply Hl in Hin. congruence.
Qed.

(** *** Insertion *)

(** One turn of the loop of [add]. *)
Lemma add_loop_node v (l r : sp_node) w :
  add_loop _cmp v (node l w r) =
  if bool_decide (v = w) then (false, node l w r)
  else if _cmp v w then
    if is_null l then (true, node (make_node v) w r)
    else (fst (add_loop _cmp v l), node (snd (add_loop _cmp v l)) w r)
  else
    if is_null r then (true, node l w (make_node v))
    else (fst (add_loop _cmp v r), node l w (snd (add_loop _cmp v r))).
Proof.
  simpl. case_bool_decide; [done|].
  destruct (_cmp v w).
  - destruct l; [done|]. simpl is_null. cbv iota. by destruct (add_loop _ _ _).
  - destruct r; [done|]. simpl is_null. cbv iota. by destruct (add_loop _ _ _).
Qed.

Lemma is_null_false (n : sp_node) : is_null n = false ↔ n ≠ nullptr.
Proof. by destruct n. Qed.

Lemma add_loop_found v (n : sp_node) :
  contains_loop _cmp v n = true → add_loop _cmp v n = (false, n).
Proof.
  induction n as [|l IHl w r IHr]; [done|].
  rewrite add_loop_node. simpl.
  case_bool_decide; [done|].
  destruct (_cmp v w); intros Hc.
  - rewrite IHl by done. by destruct l.
  - rewrite IHr by done. by destruct r.
Qed.

Lemma add_loop_fresh v (n : sp_node) :
  n ≠ nullptr → contains_loop _cmp v n = false →
  ∃ n', add_loop _cmp v n = (true, n') ∧
        inorder n' ≡ₚ v :: inorder n ∧
        count n' = S (count n) ∧
        contains_loop _cmp v n' = true ∧
        (search_tree _cmp n → search_tree _cmp n').
Proof.
  induction n as [|l IHl w r IHr]; [done|]. intros _.
  rewrite add_loop_node. simpl.
  case_bool_decide as Hvw; [done|].
  destruct (_cmp v w) eqn:Hc; intros Hcont.
  - destruct (is_null l) eqn:El.
    + destruct l; [|done]. eexists; split; [done|]. simpl.
      rewrite bool_decide_eq_false_2, Hc, bool_decide_eq_true_2 by done.
      split_and!; try done.
      intros (_ & Hr & _ & Sr). split_and!; auto.
    + apply is_null_false in El.
      destruct IHl as (l' & -> & Hp & Hcnt & Hc' & Hs); [done..|].
      eexists; split; [done|]. simpl.
      rewrite bool_decide_eq_false_2, Hc by done.
      split_and!; [by rewrite Hp | lia | done |].
      intros (Hl & Hr & Sl & Sr). split_and!; auto.
      rewrite Hp. by constructor.
  - destruct (is_null r) eqn:Er.
    + destruct r; [|done]. eexists; split; [done|]. simpl.
      rewrite bool_decide_eq_false_2, Hc, bool_decide_eq_true_2 by done.
      split_and!; [|lia|done|].
      { rewrite (Permutation_cons_append (inorder l ++ [w]) v).
        by rewrite <- app_assoc. }
      intros (Hl & _ & Sl & _). split_and!; auto.
    + apply is_null_false in Er.
      destruct IHr as (r' & -> & Hp & Hcnt & Hc' & Hs); [done..|].
      eexists; split; [done|]. simpl.
      rewrite bool_decide_eq_false_2, Hc by done.
      split_and!; [|lia|done|].
      { rewrite Hp, <- !Permutation_middle. apply perm_swap. }
      intros (Hl & Hr & Sl & Sr). split_and!; auto.
      rewrite Hp. by constructor.
Qed.

(** A value that is not below any value of the tree, and equal to none,
    lands at the right end. *)
Lemma add_loop_last v (n : sp_node) :
  n ≠ nullptr →
  Forall (λ x, _cmp v x = false ∧ v ≠ x) (inorder n) →
  ∃ n', add_loop _cmp v n = (true, n') ∧ inorder n' = inorder n ++ [v].
Proof.
  induction n as [|l IHl w r IHr]; [done|]. intros _.
  rewrite add_loop_node. simpl.
  rewrite Forall_app, Forall_cons. intros (_ & [Hc Hne] & Hr).
  rewrite bool_decide_eq_false_2, Hc by done.
  destruct (is_null r) eqn:Er.
  - destruct r; [|done]. eexists; split; [done|]. simpl.
    by rewrite <- app_assoc.
  - apply is_null_false in Er.
    destruct IHr as (r' & -> & Hi); [done..|].
    eexists; split; [done|]. simpl. rewrite Hi.
    by rewrite <- app_assoc.
Qed.

(** *** Deletion *)

(** One turn of the loop of [merge]. *)
Lemma attach_leftmost_node (small l r : sp_node) w :
  attach_leftmost small (node l w r) =
  if is_null l then node small w r
  else node (attach_leftmost small l) w r.
Proof. by destruct l. Qed.

Lemma inorder_attach_leftmost (small n : sp_node) :
  n ≠ nullptr → inorder (attach_leftmost small n) = inorder small ++ inorder n.
Proof.
  induction n as [|l IHl w r _]; [done|]. intros _.
  rewrite attach_leftmost_node.
  destruct (is_null l) eqn:El.
  - by destruct l.
  - apply is_null_false in El. simpl. rewrite IHl by done.
    by rewrite <- !app_assoc.
Qed.

Lemma inorder_merge (small big : sp_node) :
  inorder (merge small big) = inorder small ++ inorder big.
Proof.
  destruct small as [|sl sv sr], big as [|bl bv br]; try done.
  - simpl. by rewrite app_nil_r.
  - change (merge ?a ?b) with (attach_leftmost a b).
    by rewrite inorder_attach_leftmost.
Qed.

Lemma count_merge (small big : sp_node) :
  count (merge small big) = (count small + count big)%nat.
Proof.
  rewrite <- !length_inorder, inorder_merge. apply length_app.
Qed.

Lemma search_tree_attach_leftmost (small n : sp_node) :
  n ≠ nullptr → search_tree _cmp small → search_tree _cmp n →
  (∀ x y, x ∈ inorder small → y ∈ inorder n → _cmp x y = true) →
  search_tree _cmp (attach_leftmost small n).
Proof.
  induction n as [|l IHl w r _]; [done|]. intros _ Hs (Hl & Hr & Sl & Sr) Hlt.
  assert (Forall (λ x, _cmp x w = true) (inorder small)) as Hsw.
  { apply Forall_forall. intros x Hx. apply Hlt; [done|].
    simpl. rewrite elem_of_app, elem_of_cons. auto. }
  rewrite attach_leftmost_node.
  destruct (is_null l) eqn:El.
  - destruct l; [|done]. simpl. auto.
  - apply is_null_false in El. simpl.
    rewrite inorder_attach_leftmost by done.
    split_and!; auto.
    + apply Forall_app; auto.
    + apply IHl; auto. intros x y Hx Hy. apply Hlt; [done|].
      simpl. rewrite elem_of_app. auto.
Qed.

Lemma search_tree_merge (small big : sp_node) :
  search_tree _cmp small → search_tree _cmp big →
  (∀ x y, x ∈ inorder small → y ∈ inorder big → _cmp x y = true) →
  search_tree _cmp (merge small big).
Proof.
  intros Hs Hb Hlt. destruct small, big; try done.
  by apply search_tree_attach_leftmost.
Qed.

Lemma del_loop_absent v (n : sp_node) :
  contains_loop _cmp v n = false → del_loop _cmp v n = (false, n).
Proof.
  induction n as [|l IHl w r IHr]; simpl; [done|].
  case_bool_decide; [done|].
  destruct (_cmp v w); intros Hc.
  - by rewrite IHl.
  - by rewrite IHr.
Qed.

Lemma del_loop_found v (n : sp_node) :
  contains_loop _cmp v n = true →
  ∃ n', del_loop _cmp v n = (true, n') ∧
        inorder n ≡ₚ v :: inorder n' ∧
        count n = S (count n') ∧
        (StrictWeakOrder _cmp → search_tree _cmp n → search_tree _cmp n').
Proof.
  induction n as [|l IHl w r IHr]; simpl; [done|].
  case_bool_decide as Hvw.
  - subst w. intros _. eexists; split; [done|].
    rewrite inorder_merge, count_merge.
    split_and!; [by rewrite Permutation_middle | lia |].
    intros Hswo (Hl & Hr & Sl & Sr). apply search_tree_merge; [done..|].
    rewrite Forall_forall in Hl. rewrite Forall_forall in Hr.
    intros x y Hx Hy. eapply swo_cotrans; [done| |].
    + by apply Hl.
    + by apply Hr.
  - destruct (_cmp v w) eqn:Hc; intros Hcont.
    + destruct IHl as (l' & -> & Hp & Hcnt & Hs); [done|].
      eexists; split; [done|]. simpl.
      split_and!; [by rewrite Hp | lia |].
      intros Hswo (Hl & Hr & Sl & Sr). split_and!; auto.
      rewrite Hp in Hl. by inversion Hl.
    + destruct IHr as (r' & -> & Hp & Hcnt & Hs); [done|].
      eexists; split; [done|]. simpl.
      split_and!; [|lia|].
      { rewrite Hp, <- !Permutation_middle. apply perm_swap. }
      intros Hswo (Hl & Hr & Sl & Sr). split_and!; auto.
      rewrite Hp in Hr. by inversion Hr.
Qed.
End SearchTree.

Section Validity.
Context {T : Type} {T_eq : EqDecision T}.
Variable _cmp : T → T → bool.

Abbreviation sp_node := (@sp_node T).
Abbreviation TreeSet := (@TreeSet T).

Lemma search_tree_sorted (n : sp_node) :
  StrictWeakOrder _cmp → search_tree _cmp n →
  StronglySorted (before _cmp) (inorder n).
Proof.
  intros Hswo. induction n as [|l IHl w r IHr]; simpl; [constructor|].
  intros (Hl & Hr & Sl & Sr).
  rewrite Forall_forall in Hl. rewrite Forall_forall in Hr.
  apply StronglySorted_app_2; [|auto|].
  - intros x y Hx [->|Hy]%elem_of_cons.
    + split; [by apply swo_asym, Hl|].
      intros ->. specialize (Hl _ Hx). rewrite swo_irrefl in Hl; done.
    + specialize (Hl _ Hx). destruct (Hr _ Hy) as [Hyw _]. split.
      * destruct (_cmp y x) eqn:Hyx; [|done].
        rewrite <- Hyw. symmetry. by eapply swo_trans.
      * intros ->. congruence.
  - constructor; [auto|]. apply Forall_forall. intros y Hy.
    destruct (Hr y Hy). split; [done|congruence].
Qed.

Lemma sorted_before_NoDup (l : list T) : StronglySorted (before _cmp) l → NoDup l.
Proof.
  induction 1 as [|x l _ IH Hx]; constructor; [|done].
  rewrite Forall_forall in Hx. intros Hin. by destruct (Hx _ Hin).
Qed.

Lemma sorted_before_strict (l : list T) :
  TotalOrder _cmp → StronglySorted (before _cmp) l →
  StronglySorted (λ a b, _cmp a b = true) l.
Proof.
  intros Htot. induction 1 as [|x l _ IH Hx]; constructor; [done|].
  eapply Forall_impl; [done|]. intros y [Hyx Hne]; simpl.
  destruct (_cmp x y) eqn:Hxy; [done|]. destruct Hne. by apply Htot.
Qed.

Lemma search_tree_NoDup (n : sp_node) :
  StrictWeakOrder _cmp → search_tree _cmp n → NoDup (inorder n).
Proof. intros. by apply sorted_before_NoDup, search_tree_sorted. Qed.

(** *** The operations keep the invariant *)

Lemma valid_empty : valid _cmp TreeSet_empty.
Proof. by split. Qed.

Lemma valid_root (s : TreeSet) :
  valid _cmp s → (size s =? 0) = false → _root s ≠ nullptr.
Proof.
  intros [_ Hsz] Hnz Hr. unfold size in Hnz.
  rewrite Hsz, Hr in Hnz. done.
Qed.

Lemma valid_size_0 (s : TreeSet) :
  valid _cmp s → (size s =? 0) = true → _root s = nullptr.
Proof.
  intros [_ Hsz] Hz. unfold size in Hz. rewrite Hsz in Hz.
  destruct (_root s); [done|]. simpl in Hz. lia.
Qed.

Lemma contains_elem v (s : TreeSet) :
  valid _cmp s → contains _cmp v s = true ↔ v ∈ inorder (_root s).
Proof.
  intros Hv. unfold contains. destruct (size s =? 0) eqn:Hz.
  - rewrite (valid_size_0 s) by done. split; [done|]. by intros ?%elem_of_nil.
  - apply contains_loop_elem, Hv.
Qed.

Lemma add_present v (s : TreeSet) :
  valid _cmp s → v ∈ inorder (_root s) → add _cmp v s = (false, s).
Proof.
  intros Hv Hin. unfold add. destruct (size s =? 0) eqn:Hz.
  - rewrite (valid_size_0 s) in Hin by done. by apply elem_of_nil in Hin.
  - rewrite add_loop_found by (apply contains_loop_elem; [apply Hv|done]).
    by destruct s.
Qed.

Lemma add_absent v (s : TreeSet) :
  valid _cmp s → v ∉ inorder (_root s) →
  ∃ s', add _cmp v s = (true, s') ∧ valid _cmp s' ∧
        inorder (_root s') ≡ₚ v :: inorder (_root s) ∧
        size s' = size s + 1 ∧ contains _cmp v s' = true.
Proof.
  intros Hv Hin. unfold add. destruct (size s =? 0) eqn:Hz.
  - pose proof (valid_size_0 s Hv Hz) as Hr.
    eexists; split; [done|]. rewrite Hr. unfold contains, size in *. simpl.
    rewrite bool_decide_eq_true_2 by done.
    split_and!; [|done|lia|done].
    split; simpl; [|done]. split_and!; done.
  - destruct (add_loop_fresh _cmp v (_root s)) as (n' & -> & Hp & Hc & Hf & Hs).
    + by apply valid_root.
    + apply not_true_is_false. intros Hc.
      by apply contains_loop_elem in Hc; [|apply Hv].
    + destruct Hv as [Hst Hsz]. eexists; split; [done|].
      unfold contains, size; simpl.
      split_and!.
      * split; simpl; [auto|lia].
      * exact Hp.
      * reflexivity.
      * destruct (_size s + 1 =? 0) eqn:E; [|done]. apply Z.eqb_eq in E. lia.
Qed.

Lemma add_valid v (s : TreeSet) : valid _cmp s → valid _cmp (snd (add _cmp v s)).
Proof.
  intros Hv. destruct (decide (v ∈ inorder (_root s))) as [Hin|Hin].
  - by rewrite add_present.
  - destruct (add_absent v s Hv Hin) as (s' & -> & ? & _). done.
Qed.

Lemma del_absent v (s : TreeSet) :
  valid _cmp s → v ∉ inorder (_root s) → del _cmp v s = (false, s).
Proof.
  intros Hv Hin. unfold del. destruct (size s =? 0); [done|].
  rewrite del_loop_absent; [by destruct s|].
  apply not_true_is_false. intros Hc.
  by apply contains_loop_elem in Hc; [|apply Hv].
Qed.

Lemma del_present v (s : TreeSet) :
  StrictWeakOrder _cmp → valid _cmp s → v ∈ inorder (_root s) →
  ∃ s', del _cmp v s = (true, s') ∧ valid _cmp s' ∧
        inorder (_root s) ≡ₚ v :: inorder (_root s') ∧
        size s' = size s - 1 ∧ v ∉ inorder (_root s').
Proof.
  intros Hswo Hv Hin. unfold del. destruct (size s =? 0) eqn:Hz.
  - rewrite (valid_size_0 s) in Hin by done. by apply elem_of_nil in Hin.
  - destruct (del_loop_found _cmp v (_root s)) as (n' & -> & Hp & Hc & Hs).
    { apply contains_loop_elem; [apply Hv|done]. }
    destruct Hv as [Hst Hsz]. eexists; split; [done|].
    unfold size; simpl. split_and!.
    { split; simpl; [auto|lia]. }
    { exact Hp. }
    { reflexivity. }
    pose proof (search_tree_NoDup _ Hswo Hst) as Hnd.
    rewrite Hp in Hnd. by inversion Hnd.
Qed.

Lemma del_valid v (s : TreeSet) :
  StrictWeakOrder _cmp → valid _cmp s → valid _cmp (snd (del _cmp v s)).
Proof.
  intros Hswo Hv. destruct (decide (v ∈ inorder (_root s))) as [Hin|Hin].
  - destruct (del_present v s Hswo Hv Hin) as (s' & -> & ? & _). done.
  - by rewrite del_absent.
Qed.

(** *** Loops that add to a new set *)

Lemma fold_add_if keep (l : list T) (acc : TreeSet) :
  valid _cmp acc →
  let s := fold_left (add_if _cmp keep) l acc in
  valid _cmp s ∧
  (∀ y, y ∈ inorder (_root s) ↔
        (y ∈ l ∧ keep y = true) ∨ y ∈ inorder (_root acc)) ∧
  size acc ≤ size s.
Proof.
  revert acc; induction l as [|x l IH]; intros acc Hv; simpl.
  - split_and!; [done| |lia]. intros y. rewrite elem_of_nil. tauto.
  - assert (valid _cmp (add_if _cmp keep acc x) ∧
            (∀ y, y ∈ inorder (_root (add_if _cmp keep acc x)) ↔
                  (y = x ∧ keep x = true) ∨ y ∈ inorder (_root acc)) ∧
            size acc ≤ size (add_if _cmp keep acc x)) as (Hv' & Hel & Hsz).
    { unfold add_if, add_to. destruct (keep x) eqn:Hk.
      - destruct (decide (x ∈ inorder (_root acc))) as [Hin|Hin].
        + rewrite add_present by done. simpl.
          split_and!; [done| |lia]. intros y. split; [auto|].
          intros [[-> _]|?]; done.
        + destruct (add_absent x acc Hv Hin) as (s' & -> & ? & Hp & Hsz & _).
          simpl. split_and!; [done| |lia]. intros y.
          rewrite Hp, elem_of_cons. tauto.
      - split_and!; [done| |lia]. intros y. split; [auto|].
        intros [[_ ?]|?]; done. }
    destruct (IH _ Hv') as (Hv'' & Hel' & Hsz').
    split_and!; [done| |lia]. intros y.
    rewrite Hel', Hel, elem_of_cons. split.
    + intros [[? ?]|[[-> ?]|?]]; auto.
    + intros [[[->|?] ?]|?]; auto.
Qed.

(** The values of a sorted list, added in order, make a set with that very
    traversal: each one lands at the right end. *)
Lemma fold_add_sorted (l : list T) :
  StronglySorted (before _cmp) l →
  let s := fold_left (add_if _cmp (λ _, true)) l TreeSet_empty in
  inorder (_root s) = l ∧ _size s = Z.of_nat (length l).
Proof.
  induction l as [|x l IH] using rev_ind; [done|]. intros Hs.
  apply StronglySorted_app in Hs as (Hx & Hl & _).
  rewrite fold_left_app. simpl.
  destruct (IH Hl) as [Hin Hsz]. clear IH.
  set (s := fold_left _ l _) in *.
  unfold add_if, add_to, add, size. rewrite Hsz, length_app. simpl.
  destruct l as [|y l'] eqn:El.
  - done.
  - rewrite <- El in *.
    assert ((Z.of_nat (length l) =? 0) = false) as -> by (subst l; simpl; lia).
    destruct (add_loop_last _cmp x (_root s)) as (n' & -> & Hn').
    + intros Hr. rewrite Hr in Hin. by subst l.
    + rewrite Hin. apply Forall_forall. intros e He.
      destruct (Hx e x He) as [? ?]; [by left|]. split; [done|congruence].
    + simpl. rewrite Hn', Hin. split; [done|lia].
Qed.

Lemma fold_add_present (l : list T) (acc : TreeSet) :
  valid _cmp acc → (∀ x, x ∈ l → x ∈ inorder (_root acc)) →
  fold_left (add_if _cmp (λ _, true)) l acc = acc.
Proof.
  intros Hv. induction l as [|x l IH]; intros Hin; simpl; [done|].
  unfold add_if at 2, add_to. rewrite add_present; simpl.
  - apply IH. intros y Hy. apply Hin. by right.
  - done.
  - apply Hin. by left.
Qed.

Lemma fold_add_none keep (l : list T) (acc : TreeSet) :
  (∀ x, x ∈ l → keep x = false) → fold_left (add_if _cmp keep) l acc = acc.
Proof.
  revert acc. induction l as [|x l IH]; intros acc Hk; simpl; [done|].
  unfold add_if at 2. rewrite Hk by (by left).
  apply IH. intros y Hy. apply Hk. by right.
Qed.

(** The inner loop of [intersect] adds [x] when it meets a value equal to
    it, which happens once at most in a list without repetition. *)
Lemma fold_inner_intersect x (l : list T) (acc : TreeSet) :
  NoDup l →
  fold_left (λ new_set y, if bool_decide (x = y) then add_to _cmp x new_set
                          else new_set) l acc =
  add_if _cmp (λ x, bool_decide (x ∈ l)) acc x.
Proof.
  revert acc. induction l as [|y l IH]; intros acc Hnd.
  - unfold add_if. rewrite bool_decide_eq_false_2; [done|]. apply not_elem_of_nil.
  - inversion Hnd as [|? ? Hy Hnd']; subst. cbn [fold_left]. rewrite IH by done.
    unfold add_if. destruct (decide (x = y)) as [->|Hxy].
    + rewrite (bool_decide_eq_false_2 (y ∈ l)) by done.
      rewrite bool_decide_eq_true_2 by done.
      rewrite bool_decide_eq_true_2; [done|by left].
    + rewrite (bool_decide_eq_false_2 (x = y)) by done.
      rewrite (bool_decide_ext (x ∈ y :: l) (x ∈ l)); [done|].
      rewrite elem_of_cons. tauto.
Qed.
End Validity.

(** *** The standard comparators *)

Lemma less_swo : StrictWeakOrder less.
Proof.
  unfold less. split; unfold equivalent.
  - intros x. apply Z.ltb_irrefl.
  - intros x y z. rewrite !Z.ltb_lt. lia.
  - intros x y z. rewrite !Z.ltb_ge. lia.
Qed.

Lemma less_total : TotalOrder less.
Proof. intros x y. unfold equivalent, less. rewrite !Z.ltb_ge. lia. Qed.

Lemma greater_swo : StrictWeakOrder greater.
Proof.
  unfold greater. split; unfold equivalent.
  - intros x. rewrite Z.gtb_ltb. apply Z.ltb_irrefl.
  - intros x y z. rewrite !Z.gtb_ltb, !Z.ltb_lt. lia.
  - intros x y z. rewrite !Z.gtb_ltb, !Z.ltb_ge. lia.
Qed.

Lemma greater_total : TotalOrder greater.
Proof.
  intros x y. unfold equivalent, greater. rewrite !Z.gtb_ltb, !Z.ltb_ge. lia.
Qed.

Lemma abs_less_swo : StrictWeakOrder abs_less.
Proof.
  unfold abs_less. split; unfold equivalent.
  - intros x. apply Z.ltb_irrefl.
  - intros x y z. rewrite !Z.ltb_lt. lia.
  - intros x y z. rewrite !Z.ltb_ge. lia.
Qed.

Section Reachable.
Context {T : Type} {T_eq : EqDecision T}.
Variable _cmp : T → T → bool.

Abbreviation sp_node := (@sp_node T).
Abbreviation TreeSet := (@TreeSet T).

Lemma fold_left_ext_in {A B : Type} (f g : A → B → A) (l : list B) (a : A) :
  (∀ a x, x ∈ l → f a x = g a x) → fold_left f l a = fold_left g l a.
Proof.
  revert a. induction l as [|x l IH]; intros a Hfg; simpl; [done|].
  rewrite Hfg by (by left). apply IH. intros a' y Hy. apply Hfg. by right.
Qed.

(** The three loops of the set algebra, as passes that add selected values. *)
Lemma for_each_add_to (s acc : TreeSet) :
  for_each (add_to _cmp) s acc =
  fold_left (add_if _cmp (λ _, true)) (inorder (_root s)) acc.
Proof. by rewrite for_each_inorder. Qed.

Lemma plus_fold (this s : TreeSet) :
  plus _cmp this s =
  fold_left (add_if _cmp (λ _, true)) (inorder (_root s))
    (fold_left (add_if _cmp (λ _, true)) (inorder (_root this)) TreeSet_empty).
Proof. unfold plus. by rewrite !for_each_add_to. Qed.

Lemma minus_fold (this s : TreeSet) :
  minus _cmp this s =
  fold_left (add_if _cmp (λ x, negb (contains _cmp x s)))
    (inorder (_root this)) TreeSet_empty.
Proof.
  unfold minus. rewrite for_each_inorder. apply fold_left_ext_in.
  intros a x _. unfold add_if. by destruct (contains _cmp x s).
Qed.

Lemma intersect_fold (this s : TreeSet) :
  NoDup (inorder (_root s)) →
  intersect _cmp this s =
  fold_left (add_if _cmp (λ x, bool_decide (x ∈ inorder (_root s))))
    (inorder (_root this)) TreeSet_empty.
Proof.
  intros Hnd. unfold intersect. rewrite for_each_inorder.
  apply fold_left_ext_in. intros a x _.
  rewrite for_each_inorder. by apply fold_inner_intersect.
Qed.

Lemma TreeSet_of_list_fold (l : list T) :
  TreeSet_of_list _cmp l = fold_left (add_if _cmp (λ _, true)) l TreeSet_empty.
Proof. done. Qed.

(** Every set that the operations build satisfies the invariant. *)
Lemma reachable_valid (s : TreeSet) :
  StrictWeakOrder _cmp → reachable _cmp s → valid _cmp s.
Proof.
  intros Hswo. induction 1 as [|v s _ IH|v s _ IH|a b _ IHa _ IHb
                               |a b _ IHa _ IHb|a b _ IHa _ IHb].
  - apply valid_empty.
  - by apply add_valid.
  - by apply del_valid.
  - rewrite plus_fold. apply fold_add_if, fold_add_if, valid_empty.
  - rewrite intersect_fold by (apply (search_tree_NoDup _cmp); [done|apply IHb]).
    apply fold_add_if, valid_empty.
  - rewrite minus_fold. apply fold_add_if, valid_empty.
Qed.

Lemma run_reachable (ops : list (@op T)) (s : TreeSet) :
  reachable _cmp s → reachable _cmp (run _cmp ops s).
Proof.
  revert s. induction ops as [|o ops IH]; intros s Hs; simpl; [done|].
  apply IH. destruct o; simpl; by constructor.
Qed.

Lemma TreeSet_of_list_reachable (l : list T) :
  reachable _cmp (TreeSet_of_list _cmp l).
Proof.
  unfold TreeSet_of_list. generalize (reachable_empty _cmp).
  generalize (@TreeSet_empty T). induction l as [|x l IH]; intros s Hs; simpl.
  - done.
  - apply IH. by constructor.
Qed.

Lemma valid_NoDup (s : TreeSet) :
  StrictWeakOrder _cmp → valid _cmp s → NoDup (inorder (_root s)).
Proof. intros Hswo [Hst _]. by apply (search_tree_NoDup _cmp). Qed.

Lemma valid_size (s : TreeSet) :
  valid _cmp s → size s = Z.of_nat (length (inorder (_root s))).
Proof. intros [_ Hsz]. unfold size. by rewrite length_inorder. Qed.

(** The stored size of a set that owns its nodes is the number of values
    that a traversal yields. *)
Lemma size_counts_traversal (s : TreeSet) :
  StrictWeakOrder _cmp → reachable _cmp s →
  size s = Z.of_nat (length (traversal s)).
Proof.
  intros Hswo Hr. rewrite traversal_inorder.
  by apply valid_size, reachable_valid.
Qed.

(** A set without repetition that lies within another has at most its
    size. *)
Lemma valid_size_le (a b : TreeSet) :
  StrictWeakOrder _cmp → valid _cmp a → valid _cmp b →
  (∀ x, x ∈ inorder (_root a) → x ∈ inorder (_root b)) →
  size a ≤ size b.
Proof.
  intros Hswo Ha Hb Hsub. rewrite (valid_size a), (valid_size b) by done.
  apply inj_le, submseteq_length, NoDup_submseteq; [|done].
  by apply valid_NoDup.
Qed.
End Reachable.

(** * The store refines the trees *)

Section Refinement.
Context {T : Type} {T_eq : EqDecision T}.
Variable _cmp : T → T → bool.

Abbreviation placed := (@placed T).
Abbreviation heap := (list (@Store.node T)).
Abbreviation sp_node := (@sp_node T).

Lemma ptr_erase (t : placed) : ptr t = None ↔ erase t = nullptr.
Proof. by destruct t. Qed.

Lemma length_addrs (t : placed) : length (addrs t) = count (erase t).
Proof.
  induction t as [|a l IHl v r IHr]; simpl; [done|].
  rewrite length_app. lia.
Qed.

Lemma stored_lt (h : heap) (t : placed) x :
  stored h t → x ∈ addrs t → (x < length h)%nat.
Proof.
  induction t as [|a l IHl v r IHr]; simpl.
  - by intros _ ?%elem_of_nil.
  - intros (Ha & Hl & Hr). rewrite elem_of_cons, elem_of_app.
    intros [->|[?|?]]; auto. by eapply lookup_lt_Some.
Qed.

(** A tree in the store has at most as many nodes as the store. *)
Lemma owns_count (h : heap) (t : placed) :
  owns h t → (count (erase t) ≤ length h)%nat.
Proof.
  intros [Hs Hnd]. rewrite <- length_addrs.
  assert (length (addrs t) ≤ length (seq 0 (length h)))%nat as Hle;
    [|by rewrite length_seq in Hle].
  apply submseteq_length, NoDup_submseteq; [done|].
  intros x Hx. apply elem_of_seq. split; [lia|]. simpl. by eapply stored_lt.
Qed.

(** Changes of the store away from the tree do not affect it. *)
Lemma stored_frame (h h' : heap) (t : placed) :
  stored h t → (∀ x, x ∈ addrs t → h' !! x = h !! x) → stored h' t.
Proof.
  induction t as [|a l IHl v r IHr]; simpl; [done|].
  intros (Ha & Hl & Hr) Hsame. split_and!.
  - rewrite Hsame; [done|by left].
  - apply IHl; [done|]. intros x Hx. apply Hsame.
    rewrite elem_of_cons, elem_of_app. auto.
  - apply IHr; [done|]. intros x Hx. apply Hsame.
    rewrite elem_of_cons, elem_of_app. auto.
Qed.

Lemma owns_node (h : heap) a (l r : placed) v :
  owns h (p_node a l v r) ↔
  (h !! a = Some (Store.mk_node v (ptr l) (ptr r)) ∧
   owns h l ∧ owns h r ∧
   (a ∉ addrs l) ∧ (a ∉ addrs r) ∧ (∀ x, x ∈ addrs l → x ∉ addrs r)).
Proof.
  unfold owns. simpl. rewrite NoDup_cons, NoDup_app, not_elem_of_app.
  tauto.
Qed.

(** *** [contains] *)

Lemma contains_loop_refines fuel v (h : heap) (t : placed) :
  stored h t → (count (erase t) < fuel)%nat →
  Store.contains_loop _cmp fuel v (ptr t) h =
  Some (contains_loop _cmp v (erase t)).
Proof.
  revert t. induction fuel as [|fuel IH]; intros t Hs Hlt; [lia|].
  destruct t as [|a l w r]; simpl in *; [done|].
  destruct Hs as (Ha & Hl & Hr). rewrite Ha. simpl.
  case_bool_decide; [done|].
  destruct (_cmp v w); apply IH; auto; lia.
Qed.

Lemma contains_refines v (h : heap) (t : placed) sz :
  owns h t →
  Store.contains _cmp v h {| Store._root := ptr t; Store._size := sz |} =
  Some (contains _cmp v {| _root := erase t; _size := sz |}).
Proof.
  intros Ho. unfold Store.contains, contains, Store.size, size.
  cbn [Store._root Store._size _root _size].
  destruct (sz =? 0); [done|].
  apply contains_loop_refines; [apply Ho|].
  unfold Store.depth_bound. apply owns_count in Ho. lia.
Qed.

(** *** [add] *)

Local Arguments add_loop : simpl never.

Lemma stored_alloc (h : heap) (t : placed) nd :
  stored h t → stored (h ++ [nd]) t.
Proof.
  intros Hs. apply (stored_frame h); [done|].
  intros x Hx. apply lookup_app_l. by eapply stored_lt.
Qed.

(** The loop of [add] on a tree in the store does what the loop on the tree
    does: same answer, and the store then holds the new tree at the same
    root.  The only address it writes to besides the new node is one of the
    tree. *)
Lemma add_loop_refines fuel v (h : heap) (t : placed) a :
  owns h t → ptr t = Some a → (count (erase t) < fuel)%nat →
  ∃ h' t',
    Store.add_loop _cmp fuel v a h = Some (fst (add_loop _cmp v (erase t)), h') ∧
    erase t' = snd (add_loop _cmp v (erase t)) ∧
    owns h' t' ∧ ptr t' = Some a ∧
    (length h ≤ length h')%nat ∧
    (∀ x, x ∈ addrs t' → x ∈ addrs t ∨ (length h ≤ x)%nat) ∧
    (∀ x, (x < length h)%nat → x ∉ addrs t → h' !! x = h !! x).
Proof.
  revert t a. induction fuel as [|fuel IH]; intros t a Ho Hp Hlt; [lia|].
  destruct t as [|a' l w r]; [done|]. simpl in Hp, Hlt. simplify_eq.
  apply owns_node in Ho as (Ha & Hl & Hr & Hal & Har & Hlr).
  cbn [erase]. rewrite add_loop_node. simpl. rewrite Ha. simpl.
  pose proof (lookup_lt_Some _ _ _ Ha) as Halt.
  pose proof (stored_lt h l) as Hllt. pose proof (stored_lt h r) as Hrlt.
  destruct Hl as [Hsl Hnl]. destruct Hr as [Hsr Hnr].
  case_bool_decide as Hvw.
  { exists h, (p_node a l w r). split_and!; try done.
    - by apply owns_node.
    - intros x Hx. by left. }
  destruct (_cmp v w).
  - destruct (ptr l) as [al|] eqn:Hpl.
    + assert (is_null (erase l) = false) as -> by (by destruct l).
      destruct (IH l al)
        as (h' & l' & -> & He & [Hsl' Hnl'] & Hp' & Hlen & Hin & Hfr);
        [done|done|lia|].
      cbn [fst snd].
      exists h', (p_node a l' w r). split_and!; [done| |  |done|done|..].
      * simpl. by rewrite He.
      * apply owns_node. rewrite Hp'. split_and!.
        -- rewrite Hfr; done.
        -- done.
        -- split; [|done]. apply (stored_frame h); [done|].
           intros x Hx. apply Hfr; [auto|]. intros Hx'. by eapply Hlr.
        -- intros [?|?]%Hin; [done|lia].
        -- done.
        -- intros x [?|?]%Hin Hx; [by eapply Hlr|].
           apply Hrlt in Hx; [lia|done].
      * intros x. cbn [addrs]. rewrite !elem_of_cons, !elem_of_app.
        intros [?|[[?|?]%Hin|?]]; auto.
      * intros x Hx Hn. apply Hfr; [done|]. intros Hx'. apply Hn.
        cbn [addrs]. rewrite elem_of_cons, elem_of_app. auto.
    + destruct l; [|done]. simpl.
      eexists _, (p_node a (p_node (length h) p_null v p_null) w r).
      split_and!; [done|done| |done|..].
      * apply owns_node. split_and!.
        -- apply list_lookup_insert_eq. rewrite length_app. simpl. lia.
        -- split; [|apply NoDup_singleton]. simpl. split_and!; try done.
           rewrite list_lookup_insert_ne by lia.
           by rewrite lookup_app_r, Nat.sub_diag.
        -- split; [|done]. apply (stored_frame h); [done|].
           intros x Hx. rewrite list_lookup_insert_ne by (by intros ->).
           apply lookup_app_l. auto.
        -- simpl. rewrite list_elem_of_singleton. lia.
        -- done.
        -- simpl. intros x ->%list_elem_of_singleton Hx.
           apply Hrlt in Hx; [lia|done].
      * rewrite length_insert, length_app. lia.
      * simpl. intros x [->|[->|?]%elem_of_cons]%elem_of_cons.
        -- left. by left.
        -- right. lia.
        -- left. by right.
      * simpl. intros x Hx Hn. rewrite not_elem_of_cons in Hn.
        rewrite list_lookup_insert_ne by (by intros ->; destruct Hn).
        by apply lookup_app_l.
  - destruct (ptr r) as [ar|] eqn:Hpr.
    + assert (is_null (erase r) = false) as -> by (by destruct r).
      destruct (IH r ar)
        as (h' & r' & -> & He & [Hsr' Hnr'] & Hp' & Hlen & Hin & Hfr);
        [done|done|lia|].
      cbn [fst snd].
      exists h', (p_node a l w r'). split_and!; [done| |  |done|done|..].
      * simpl. by rewrite He.
      * apply owns_node. rewrite Hp'. split_and!.
        -- rewrite Hfr; done.
        -- split; [|done]. apply (stored_frame h); [done|].
           intros x Hx. apply Hfr; [auto|]. intros Hx'. by eapply Hlr.
        -- done.
        -- done.
        -- intros [?|?]%Hin; [done|lia].
        -- intros x Hx [?|?]%Hin; [by eapply Hlr|].
           apply Hllt in Hx; [lia|done].
      * intros x. cbn [addrs]. rewrite !elem_of_cons, !elem_of_app.
        intros [?|[?|[?|?]%Hin]]; auto.
      * intros x Hx Hn. apply Hfr; [done|]. intros Hx'. apply Hn.
        cbn [addrs]. rewrite elem_of_cons, elem_of_app. auto.
    + destruct r; [|done]. simpl.
      eexists _, (p_node a l w (p_node (length h) p_null v p_null)).
      split_and!; [done|done| |done|..].
      * apply owns_node. split_and!.
        -- apply list_lookup_insert_eq. rewrite length_app. simpl. lia.
        -- split; [|done]. apply (stored_frame h); [done|].
           intros x Hx. rewrite list_lookup_insert_ne by (by intros ->).
           apply lookup_app_l. auto.
        -- split; [|apply NoDup_singleton]. simpl. split_and!; try done.
           rewrite list_lookup_insert_ne by lia.
           by rewrite lookup_app_r, Nat.sub_diag.
        -- done.
        -- simpl. rewrite list_elem_of_singleton. lia.
        -- simpl. intros x Hx ->%list_elem_of_singleton.
           apply Hllt in Hx; [lia|done].
      * rewrite length_insert, length_app. lia.
      * simpl. intros x. rewrite elem_of_cons, elem_of_app, list_elem_of_singleton.
        rewrite elem_of_cons, app_nil_r. intros [?|[?|?]]; auto. right. lia.
      * simpl. intros x Hx Hn. rewrite not_elem_of_cons in Hn.
        rewrite list_lookup_insert_ne by (by intros ->; destruct Hn).
        by apply lookup_app_l.
Qed.

(** [add] on a set whose tree is in the store. *)
Lemma add_refines v (h : heap) (t : placed) sz :
  owns h t →
  let s := {| _root := erase t; _size := sz |} in
  ∃ h' t',
    Store.add _cmp v h {| Store._root := ptr t; Store._size := sz |} =
      Some (fst (add _cmp v s), h',
            {| Store._root := ptr t'; Store._size := _size (snd (add _cmp v s)) |}) ∧
    erase t' = _root (snd (add _cmp v s)) ∧
    owns h' t' ∧
    (∀ x, (x < length h)%nat → x ∉ addrs t → h' !! x = h !! x).
Proof.
  intros Ho s. unfold Store.add, add, Store.size, size, s.
  cbn [Store._root Store._size _root _size].
  destruct (sz =? 0).
  - simpl. eexists _, (p_node (length h) p_null v p_null).
    split_and!; [done|done| |].
    + split; [|apply NoDup_singleton]. simpl.
      by rewrite lookup_app_r, Nat.sub_diag.
    + intros x Hx _. by apply lookup_app_l.
  - destruct (ptr t) as [a|] eqn:Hp.
    + destruct (add_loop_refines (Store.depth_bound h) v h t a)
        as (h' & t' & -> & He & Ho' & Hp' & _ & _ & Hfr); [done|done| |].
      { unfold Store.depth_bound. apply owns_count in Ho. lia. }
      simpl. destruct (add_loop _cmp v (erase t)) as [b n'] eqn:Hadd.
      exists h', t'. rewrite Hp'. simpl in *. done.
    + destruct t; [|done]. simpl. by exists h, p_null.
Qed.

(** *** The iterator *)

Local Arguments Store.inorder_traverse_to_leftmost_node : simpl never.
Local Arguments Store.depth_bound : simpl never.
Local Arguments inorder_traverse_to_leftmost_node : simpl never.

Lemma ppush_erase (t : placed) stack :
  push_left (erase t) (erase <$> stack) = erase <$> ppush t stack.
Proof.
  revert stack. induction t as [|a l IHl v r _]; intros stack; simpl; [done|].
  by rewrite <- IHl.
Qed.

Lemma ppush_fits (h : heap) (t : placed) stack :
  fits h t → Forall (λ t, fits h t ∧ is_node t) stack →
  Forall (λ t, fits h t ∧ is_node t) (ppush t stack).
Proof.
  revert stack. induction t as [|a l IHl v r _]; intros stack Hf Hs; simpl.
  - done.
  - apply IHl.
    + destruct Hf as [(_ & Hl & _) Hc]. split; [done|]. simpl in Hc. lia.
    + constructor; [|done]. split; [done|]. by unfold is_node.
Qed.

Lemma push_left_refines fuel (h : heap) (t : placed) stack :
  stored h t → (count (erase t) < fuel)%nat →
  Store.push_left fuel (ptr t) (addr_of <$> stack) h =
  Some (addr_of <$> ppush t stack).
Proof.
  revert t stack. induction fuel as [|fuel IH]; intros t stack Hs Hlt; [lia|].
  destruct t as [|a l v r]; simpl in *; [done|].
  destruct Hs as (Ha & Hl & Hr). rewrite Ha. simpl.
  apply (IH l (p_node a l v r :: stack)); [done|lia].
Qed.

Lemma leftmost_refines (h : heap) sit it (t : placed) :
  iter_rel h sit it → fits h t →
  ∃ sit', Store.inorder_traverse_to_leftmost_node sit (ptr t) h = Some sit' ∧
          iter_rel h sit' (inorder_traverse_to_leftmost_node it (erase t)).
Proof.
  intros (stack & cur & Hst & Hcur & -> & ->) [Hs Hc].
  unfold Store.inorder_traverse_to_leftmost_node,
    inorder_traverse_to_leftmost_node.
  cbn [Store._next_node_stack _next_node_stack].
  rewrite push_left_refines by (done || unfold Store.depth_bound; lia).
  rewrite ppush_erase. simpl.
  pose proof (ppush_fits h t stack (conj Hs Hc) Hst) as Hp.
  destruct (ppush t stack) as [|top stack'] eqn:Hpp; simpl.
  - eexists. split; [done|]. exists [], p_null. split_and!; try done.
    split; simpl; [done|lia].
  - inversion Hp as [|? ? [Htop Hn] Hrest]; subst.
    eexists. split; [done|]. exists stack', top. split_and!; try done.
    destruct top; [by destruct Hn|done].
Qed.

Lemma iter_values_refines fuel (h : heap) sit it :
  iter_rel h sit it → iter_wf it → (length (iter_rest it) < fuel)%nat →
  Store.iter_values fuel sit h = Some (iter_rest it).
Proof.
  revert sit it. induction fuel as [|fuel IH]; intros sit it Hrel Hwf Hlt; [lia|].
  pose proof (deref_rest it Hwf) as Hd.
  pose proof (incr_rest it Hwf) as Hi.
  pose proof (incr_wf it Hwf) as Hwf'.
  pose proof Hrel as (stack & cur & Hst & [Hcs Hcc] & Hsit & Hit).
  assert (_current_node it = erase cur) as Hcur by (by rewrite Hit).
  clear Hit. subst sit. simpl.
  destruct cur as [|a l v r]; simpl in Hcur.
  - unfold deref in Hd. rewrite Hcur in Hd. by destruct (iter_rest it).
  - destruct Hcs as (Ha & Hl & Hr). simpl. rewrite Ha. simpl.
    unfold Store.incr. simpl. rewrite Ha. simpl.
    destruct (leftmost_refines h _ it r Hrel) as (sit' & Heq & Hrel').
    { split; [done|]. simpl in Hcc. lia. }
    cbn [ptr] in Heq. rewrite Heq. simpl.
    assert (inorder_traverse_to_leftmost_node it (erase r) = incr it) as Hincr.
    { unfold incr. by rewrite Hcur. }
    rewrite Hincr in Hrel'.
    unfold deref in Hd. rewrite Hcur in Hd.
    destruct (iter_rest it) as [|x rest]; [done|].
    simpl in Hd, Hi, Hlt. simplify_eq.
    rewrite (IH sit' _ Hrel' Hwf'); [done|lia].
Qed.

(** A walk over a set in the store yields the values of its tree in
    order. *)
Lemma traversal_refines (h : heap) (t : placed) sz :
  owns h t →
  Store.traversal h {| Store._root := ptr t; Store._size := sz |} =
  Some (traversal {| _root := erase t; _size := sz |}).
Proof.
  intros Ho. pose proof (owns_count h t Ho) as Hc.
  rewrite traversal_inorder. unfold Store.traversal, Store.begin.
  cbn [Store._root _root].
  destruct (leftmost_refines h
              {| Store._next_node_stack := []; Store._current_node := None |}
              TreeSetIter_default t) as (sit & Heq & Hrel).
  - exists [], p_null. split_and!; try done. split; simpl; [done|lia].
  - split; [apply Ho|done].
  - rewrite Heq.
    change (Store.iter_values (Store.depth_bound h) sit h =
            Some (inorder (erase t))).
    fold (TreeSetIter_at (erase t)) in Hrel.
    rewrite (iter_values_refines _ h sit (TreeSetIter_at (erase t))).
    + by rewrite TreeSetIter_at_rest.
    + done.
    + apply TreeSetIter_at_wf.
    + rewrite TreeSetIter_at_rest, length_inorder.
      unfold Store.depth_bound. lia.
Qed.

(** [operator==] on two sets in the store, which may be the same set.  The
    comparison of addresses at the end of the loop says whether both
    iterators are at the end. *)
Lemma eq_loop_refines fuel (h : heap) sa sb ita itb :
  iter_rel h sa ita → iter_rel h sb itb → iter_wf ita → iter_wf itb →
  (length (iter_rest ita) < fuel)%nat →
  Store.eq_loop fuel sa sb h = eq_loop fuel ita itb.
Proof.
  revert sa sb ita itb.
  induction fuel as [|fuel IH]; intros sa sb ita itb Hra Hrb Hwa Hwb Hlt; [lia|].
  pose proof (incr_rest ita Hwa) as Hia.
  pose proof (deref_rest ita Hwa) as Hda.
  pose proof Hra as (stacka & cura & Hsta & [Hcsa Hcca] & Hsa & Hita).
  pose proof Hrb as (stackb & curb & Hstb & [Hcsb Hccb] & Hsb & Hitb).
  assert (_current_node ita = erase cura) as Hcura by (by rewrite Hita).
  assert (_current_node itb = erase curb) as Hcurb by (by rewrite Hitb).
  clear Hita Hitb. subst sa sb. simpl.
  unfold deref, at_end. rewrite Hcura, Hcurb.
  destruct cura as [|a la va ra]; [by destruct curb|].
  destruct curb as [|b lb vb rb]; [done|].
  destruct Hcsa as (Ha & Hla & Hra'). destruct Hcsb as (Hb & Hlb & Hrb').
  simpl. rewrite Ha, Hb. simpl.
  unfold Store.incr. simpl. rewrite Ha, Hb. simpl.
  destruct (leftmost_refines h _ ita ra Hra) as (sa' & Heqa & Hrela).
  { split; [done|]. simpl in Hcca. lia. }
  destruct (leftmost_refines h _ itb rb Hrb) as (sb' & Heqb & Hrelb).
  { split; [done|]. simpl in Hccb. lia. }
  cbn [ptr] in Heqa, Heqb. rewrite Heqa, Heqb. simpl.
  assert (inorder_traverse_to_leftmost_node ita (erase ra) = incr ita) as Hinca.
  { unfold incr. by rewrite Hcura. }
  assert (inorder_traverse_to_leftmost_node itb (erase rb) = incr itb) as Hincb.
  { unfold incr. by rewrite Hcurb. }
  rewrite Hinca in Hrela. rewrite Hincb in Hrelb.
  case_bool_decide; [done|].
  apply IH; [done|done|by apply incr_wf|by apply incr_wf|].
  rewrite Hia. unfold deref in Hda. rewrite Hcura in Hda. simpl in Hda.
  destruct (iter_rest ita); simpl in *; [done|lia].
Qed.

Lemma set_eq_refines (h : heap) (t1 t2 : placed) sz1 sz2 :
  owns h t1 → owns h t2 →
  Store.set_eq h {| Store._root := ptr t1; Store._size := sz1 |}
                 {| Store._root := ptr t2; Store._size := sz2 |} =
  Some (set_eq {| _root := erase t1; _size := sz1 |}
               {| _root := erase t2; _size := sz2 |}).
Proof.
  intros Ho1 Ho2.
  pose proof (owns_count h t1 Ho1) as Hc1.
  pose proof (owns_count h t2 Ho2) as Hc2.
  assert (iter_rel h {| Store._next_node_stack := [];
                        Store._current_node := None |} TreeSetIter_default)
    as Hrel0.
  { exists [], p_null. split_and!; try done. split; simpl; [done|lia]. }
  unfold Store.set_eq, Store.begin. cbn [Store._root].
  destruct (leftmost_refines h _ _ t1 Hrel0) as (s1 & Heq1 & Hrel1).
  { split; [apply Ho1|done]. }
  destruct (leftmost_refines h _ _ t2 Hrel0) as (s2 & Heq2 & Hrel2).
  { split; [apply Ho2|done]. }
  rewrite Heq1, Heq2.
  change (Store.eq_loop (Store.depth_bound h) s1 s2 h =
          Some (set_eq {| _root := erase t1; _size := sz1 |}
                       {| _root := erase t2; _size := sz2 |})).
  fold (TreeSetIter_at (erase t1)) in Hrel1.
  fold (TreeSetIter_at (erase t2)) in Hrel2.
  rewrite (eq_loop_refines _ h s1 s2 _ _ Hrel1 Hrel2);
    [|apply TreeSetIter_at_wf..|].
  - rewrite eq_loop_decide; [|apply TreeSetIter_at_wf..|].
    + rewrite set_eq_inorder, !TreeSetIter_at_rest. done.
    + rewrite TreeSetIter_at_rest, length_inorder. unfold Store.depth_bound. lia.
  - rewrite TreeSetIter_at_rest, length_inorder. unfold Store.depth_bound. lia.
Qed.

(** *** [del] *)

Local Arguments del_loop : simpl never.
Local Arguments merge : simpl never.
Local Arguments attach_leftmost : simpl never.

(** One turn of the loop of [del]. *)
Lemma del_loop_node v (l r : sp_node) w :
  del_loop _cmp v (node l w r) =
  if bool_decide (v = w) then (true, merge l r)
  else if _cmp v w
       then (fst (del_loop _cmp v l), node (snd (del_loop _cmp v l)) w r)
       else (fst (del_loop _cmp v r), node l w (snd (del_loop _cmp v r))).
Proof.
  unfold del_loop at 1; fold (del_loop _cmp). case_bool_decide; [done|].
  destruct (_cmp v w).
  - by destruct (del_loop _cmp v l).
  - by destruct (del_loop _cmp v r).
Qed.

Local Arguments pattach : simpl never.

Lemma pattach_node small a (l r : placed) v :
  pattach small (p_node a l v r) =
  match ptr l with
  | None => p_node a small v r
  | Some _ => p_node a (pattach small l) v r
  end.
Proof. by destruct l. Qed.

Lemma erase_pattach (small t : placed) :
  erase (pattach small t) = attach_leftmost (erase small) (erase t).
Proof.
  induction t as [|a l IHl v r _]; [done|].
  rewrite pattach_node. cbn [erase]. rewrite attach_leftmost_node.
  destruct (ptr l) eqn:Hl.
  - assert (is_null (erase l) = false) as -> by (by destruct l).
    cbn [erase]. by rewrite IHl.
  - by destruct l.
Qed.

Lemma erase_pmerge (small big : placed) :
  erase (pmerge small big) = merge (erase small) (erase big).
Proof.
  destruct small, big; try done.
  unfold pmerge. by rewrite erase_pattach.
Qed.

Lemma elem_of_addrs_pattach (small t : placed) x :
  ptr t ≠ None →
  x ∈ addrs (pattach small t) ↔ x ∈ addrs small ∨ x ∈ addrs t.
Proof.
  induction t as [|a l IHl v r _]; [done|]. intros _.
  rewrite pattach_node. destruct (ptr l) eqn:Hl.
  - cbn [addrs]. rewrite !elem_of_cons, !elem_of_app, IHl by done.
    tauto.
  - destruct l; [|done]. cbn [addrs]. rewrite !elem_of_cons, !elem_of_app.
    simpl. rewrite elem_of_nil. tauto.
Qed.

Lemma elem_of_addrs_pmerge (small big : placed) x :
  x ∈ addrs (pmerge small big) ↔ x ∈ addrs small ∨ x ∈ addrs big.
Proof.
  destruct small as [|sa sl sv sr], big as [|ba bl bv br].
  - simpl. tauto.
  - simpl. rewrite elem_of_nil. tauto.
  - simpl. rewrite elem_of_nil. tauto.
  - unfold pmerge. by apply elem_of_addrs_pattach.
Qed.

Lemma set_left_same (nd : @Store.node T) : Store.set_left nd (Store.left nd) = nd.
Proof. by destruct nd. Qed.

Lemma set_right_same (nd : @Store.node T) : Store.set_right nd (Store.right nd) = nd.
Proof. by destruct nd. Qed.

(** The loop of [merge] finds the last node down the left links of [t],
    and hanging [small] there gives the store of [pattach small t]. *)
Lemma attach_refines fuel (h : heap) (small t : placed) b :
  owns h small → owns h t → ptr t = Some b →
  (∀ x, x ∈ addrs small → x ∉ addrs t) →
  (count (erase t) < fuel)%nat →
  ∃ n nd,
    Store.leftmost fuel b h = Some n ∧ h !! n = Some nd ∧ n ∈ addrs t ∧
    owns (<[n := Store.set_left nd (ptr small)]> h) (pattach small t) ∧
    ptr (pattach small t) = Some b.
Proof.
  intros Hos. revert t b.
  induction fuel as [|fuel IH]; intros t b Ho Hp Hdis Hlt; [lia|].
  destruct t as [|b' l w r]; [done|]. simpl in Hp, Hlt. simplify_eq.
  apply owns_node in Ho as (Ha & Hl & Hr & Hal & Har & Hlr).
  pose proof (lookup_lt_Some _ _ _ Ha) as Halt.
  simpl. rewrite Ha. simpl. rewrite pattach_node.
  destruct (ptr l) as [al|] eqn:Hpl.
  - destruct (IH l al) as (n & nd & -> & Hn & Hin & Ho' & Hp'); [done|done| |lia|].
    { intros x Hx Hx'. apply (Hdis x Hx). simpl.
      rewrite elem_of_cons, elem_of_app. auto. }
    exists n, nd. split_and!; [done|done| | |done].
    + simpl. rewrite elem_of_cons, elem_of_app. auto.
    + apply owns_node. rewrite Hp'. split_and!.
      * rewrite list_lookup_insert_ne by (by intros ->). done.
      * done.
      * split; [|apply Hr]. apply (stored_frame h); [apply Hr|].
        intros x Hx. rewrite list_lookup_insert_ne; [done|].
        intros ->. by eapply Hlr.
      * rewrite elem_of_addrs_pattach by (by rewrite Hpl).
        intros [Hx|Hx]; [|done]. apply (Hdis b Hx). simpl. by left.
      * done.
      * intros x. rewrite elem_of_addrs_pattach by (by rewrite Hpl).
        intros [Hx|Hx] Hx'; [|by eapply Hlr].
        apply (Hdis x Hx). simpl. rewrite elem_of_cons, elem_of_app. auto.
  - destruct l; [|done].
    exists b, (Store.mk_node w None (ptr r)). split_and!; [done|done| | |done].
    + simpl. by left.
    + apply owns_node. split_and!.
      * by rewrite list_lookup_insert_eq.
      * split; [|apply Hos]. apply (stored_frame h); [apply Hos|].
        intros x Hx. rewrite list_lookup_insert_ne; [done|].
        intros ->. apply (Hdis _ Hx). simpl. by left.
      * split; [|apply Hr]. apply (stored_frame h); [apply Hr|].
        intros x Hx. rewrite list_lookup_insert_ne; [done|]. by intros ->.
      * intros Hx. apply (Hdis _ Hx). simpl. by left.
      * done.
      * intros x Hx Hx'. apply (Hdis _ Hx). simpl. by right.
Qed.

Lemma merge_refines (h : heap) (small big : placed) :
  owns h small → owns h big →
  (∀ x, x ∈ addrs small → x ∉ addrs big) →
  ∃ h',
    Store.merge (ptr small) (ptr big) h = Some (ptr (pmerge small big), h') ∧
    owns h' (pmerge small big) ∧
    length h' = length h ∧
    (∀ x, x ∉ addrs big → h' !! x = h !! x).
Proof.
  intros Hs Hb Hdis.
  destruct small as [|sa sl sv sr] eqn:Es; [by exists h|].
  destruct big as [|ba bl bv br] eqn:Eb; [by exists h|].
  rewrite <- Es, <- Eb in *.
  destruct (attach_refines (Store.depth_bound h) h small big ba)
    as (n & nd & Hleft & Hn & Hin & Ho & Hp); [done|done|by subst|done| |].
  { unfold Store.depth_bound. apply owns_count in Hb. lia. }
  exists (<[n := Store.set_left nd (ptr small)]> h).
  assert (pmerge small big = pattach small big) as -> by (by subst).
  split_and!.
  - rewrite Es, Eb. cbn [ptr]. unfold Store.merge.
    rewrite Hleft. simpl. rewrite Hn. simpl.
    rewrite <- Es, <- Eb, Hp. by subst small.
  - done.
  - apply length_insert.
  - intros x Hx. rewrite list_lookup_insert_ne; [done|]. by intros ->.
Qed.

Lemma set_child_same left_side pnd (t : placed) :
  child_slot left_side pnd t → set_child left_side pnd (ptr t) = pnd.
Proof.
  destruct left_side; simpl.
  - intros <-. apply set_left_same.
  - intros [<- _]. apply set_right_same.
Qed.

Lemma replace_child_refines left_side (h : heap) p pnd (t : placed) a new :
  h !! p = Some pnd → child_slot left_side pnd t → ptr t = Some a →
  Store.replace_child p (Some a) new h =
  Some (<[p := set_child left_side pnd new]> h).
Proof.
  intros Hp Hslot Ht. unfold Store.replace_child. rewrite Hp. simpl.
  destruct left_side; simpl in *.
  - rewrite bool_decide_eq_true_2; [done|]. by rewrite Hslot.
  - destruct Hslot as [_ Hne]. rewrite bool_decide_eq_false_2; [done|].
    rewrite <- Ht. apply Hne. by rewrite Ht.
Qed.

(** The loop of [del] below the root, at the tree [t] that hangs in a slot
    of the node at [p]. *)
Lemma del_loop_refines_child fuel v (h : heap) (t : placed) p pnd left_side root :
  owns h t → h !! p = Some pnd → p ∉ addrs t →
  child_slot left_side pnd t →
  (count (erase t) < fuel)%nat →
  ∃ h' t',
    Store.del_loop _cmp fuel v (ptr t) (Some p) root h =
      Some (fst (del_loop _cmp v (erase t)), root, h') ∧
    erase t' = snd (del_loop _cmp v (erase t)) ∧
    owns h' t' ∧
    (∀ x, x ∈ addrs t' → x ∈ addrs t) ∧
    length h' = length h ∧
    h' !! p = Some (set_child left_side pnd (ptr t')) ∧
    (∀ x, x ∉ addrs t → x ≠ p → h' !! x = h !! x).
Proof.
  revert t p pnd left_side.
  induction fuel as [|fuel IH]; intros t p pnd left_side Ho Hp Hpt Hslot Hlt; [lia|].
  destruct t as [|a l w r].
  { exists h, p_null. split_and!; try done.
    by rewrite (set_child_same _ _ p_null). }
  pose proof Ho as Hot.
  apply owns_node in Ho as (Ha & Hl & Hr & Hal & Har & Hlr).
  simpl in Hlt. cbn [erase]. rewrite del_loop_node.
  cbn [ptr Store.del_loop]. rewrite Ha. simpl.
  cbn [addrs] in Hpt. rewrite not_elem_of_cons, not_elem_of_app in Hpt.
  destruct Hpt as (Hpa & Hpl & Hpr).
  case_bool_decide as Hvw.
  - destruct (merge_refines h l r Hl Hr Hlr) as (h1 & -> & Hom & Hlen & Hfr).
    simpl.
    assert (h1 !! p = Some pnd) as Hp1 by (by rewrite Hfr).
    rewrite (replace_child_refines left_side h1 p pnd (p_node a l w r) a); try done.
    simpl. eexists _, (pmerge l r). split_and!; [done| | | | | |].
    + apply erase_pmerge.
    + split; [|apply Hom]. apply (stored_frame h1); [apply Hom|].
      intros x Hx. rewrite list_lookup_insert_ne; [done|]. intros ->.
      apply elem_of_addrs_pmerge in Hx as [?|?]; done.
    + intros x Hx. apply elem_of_addrs_pmerge in Hx. simpl.
      rewrite elem_of_cons, elem_of_app. tauto.
    + by rewrite length_insert.
    + apply list_lookup_insert_eq. by eapply lookup_lt_Some.
    + intros x Hx Hxp. rewrite list_lookup_insert_ne by done.
      apply Hfr. intros Hx'. apply Hx. simpl.
      rewrite elem_of_cons, elem_of_app. auto.
  - destruct (_cmp v w).
    + destruct (IH l a _ true Hl Ha Hal eq_refl)
        as (h' & l' & -> & He & Ho' & Hsub & Hlen & Ha' & Hfr); [lia|].
      cbn [fst snd]. exists h', (p_node a l' w r).
      split_and!; [done| | | |done| |].
      * simpl. by rewrite He.
      * apply owns_node. split_and!; [done|done| |auto|done|].
        -- split; [|apply Hr]. apply (stored_frame h); [apply Hr|].
           intros x Hx. apply Hfr; [|by intros ->]. intros Hx'. by eapply Hlr.
        -- intros x Hx%Hsub. by apply Hlr.
      * intros x. simpl. rewrite !elem_of_cons, !elem_of_app.
        intros [?|[?%Hsub|?]]; auto.
      * rewrite Hfr by done. by rewrite (set_child_same _ _ (p_node a l w r)).
      * intros x Hx Hxp. simpl in Hx.
        rewrite not_elem_of_cons, not_elem_of_app in Hx.
        destruct Hx as (? & ? & ?). by apply Hfr.
    + assert (child_slot false (Store.mk_node w (ptr l) (ptr r)) r) as Hsr.
      { split; [done|]. simpl. intros Hn Heq. destruct r as [|ar ? ? ?]; [done|].
        destruct l as [|al ? ? ?]; [done|]. simpl in Heq. simplify_eq.
        apply (Hlr ar); simpl; by left. }
      destruct (IH r a _ false Hr Ha Har Hsr)
        as (h' & r' & -> & He & Ho' & Hsub & Hlen & Ha' & Hfr); [lia|].
      cbn [fst snd]. exists h', (p_node a l w r').
      split_and!; [done| | | |done| |].
      * simpl. by rewrite He.
      * apply owns_node. split_and!; [done| |done|done|auto|].
        -- split; [|apply Hl]. apply (stored_frame h); [apply Hl|].
           intros x Hx. apply Hfr; [|by intros ->]. by apply Hlr.
        -- intros x Hx Hx'%Hsub. by eapply Hlr.
      * intros x. simpl. rewrite !elem_of_cons, !elem_of_app.
        intros [?|[?|?%Hsub]]; auto.
      * rewrite Hfr by done. by rewrite (set_child_same _ _ (p_node a l w r)).
      * intros x Hx Hxp. simpl in Hx.
        rewrite not_elem_of_cons, not_elem_of_app in Hx.
        destruct Hx as (? & ? & ?). by apply Hfr.
Qed.

(** [del] on a set whose tree is in the store. *)
Lemma del_refines v (h : heap) (t : placed) sz :
  owns h t →
  let s := {| _root := erase t; _size := sz |} in
  ∃ h' t',
    Store.del _cmp v h {| Store._root := ptr t; Store._size := sz |} =
      Some (fst (del _cmp v s), h',
            {| Store._root := ptr t'; Store._size := _size (snd (del _cmp v s)) |}) ∧
    erase t' = _root (snd (del _cmp v s)) ∧
    owns h' t' ∧
    (∀ x, x ∉ addrs t → h' !! x = h !! x).
Proof.
  intros Ho s. unfold Store.del, del, Store.size, size, s.
  cbn [Store._root Store._size _root _size].
  destruct (sz =? 0); [by exists h, t|].
  pose proof (owns_count h t Ho) as Hc.
  assert (∃ h' t',
    Store.del_loop _cmp (Store.depth_bound h) v (ptr t) None (ptr t) h =
      Some (fst (del_loop _cmp v (erase t)), ptr t', h') ∧
    erase t' = snd (del_loop _cmp v (erase t)) ∧ owns h' t' ∧
    (∀ x, x ∉ addrs t → h' !! x = h !! x)) as (h' & t' & -> & He & Ho' & Hfr).
  { unfold Store.depth_bound. destruct t as [|a l w r].
    { by exists h, p_null. }
    pose proof Ho as Hot.
    apply owns_node in Ho as (Ha & Hl & Hr & Hal & Har & Hlr).
    simpl in Hc. cbn [erase]. rewrite del_loop_node.
    cbn [ptr Store.del_loop]. rewrite Ha. simpl.
    case_bool_decide as Hvw.
    - destruct (merge_refines h l r Hl Hr Hlr) as (h1 & -> & Hom & Hlen & Hfr).
      simpl. exists h1, (pmerge l r). split_and!; [done| |done|].
      + apply erase_pmerge.
      + intros x Hx. apply Hfr. intros Hx'. apply Hx. simpl.
        rewrite elem_of_cons, elem_of_app. auto.
    - destruct (_cmp v w).
      + destruct (del_loop_refines_child (length h) v h l a _ true (Some a)
                    Hl Ha Hal eq_refl)
          as (h' & l' & -> & He & Ho' & Hsub & Hlen & Ha' & Hfr); [lia|].
        cbn [fst snd]. exists h', (p_node a l' w r).
        split_and!; [done| | |].
        * simpl. by rewrite He.
        * apply owns_node. split_and!; [done|done| |auto|done|].
          -- split; [|apply Hr]. apply (stored_frame h); [apply Hr|].
             intros x Hx. apply Hfr; [|by intros ->]. intros Hx'. by eapply Hlr.
          -- intros x Hx%Hsub. by apply Hlr.
        * intros x Hx. simpl in Hx.
          rewrite not_elem_of_cons, not_elem_of_app in Hx.
          destruct Hx as (? & ? & ?). by apply Hfr.
      + assert (child_slot false (Store.mk_node w (ptr l) (ptr r)) r) as Hsr.
        { split; [done|]. simpl. intros Hn Heq. destruct r as [|ar ? ? ?]; [done|].
          destruct l as [|al ? ? ?]; [done|]. simpl in Heq. simplify_eq.
          apply (Hlr ar); simpl; by left. }
        destruct (del_loop_refines_child (length h) v h r a _ false (Some a)
                    Hr Ha Har Hsr)
          as (h' & r' & -> & He & Ho' & Hsub & Hlen & Ha' & Hfr); [lia|].
        cbn [fst snd]. exists h', (p_node a l w r').
        split_and!; [done| | |].
        * simpl. by rewrite He.
        * apply owns_node. split_and!; [done| |done|done|auto|].
          -- split; [|apply Hl]. apply (stored_frame h); [apply Hl|].
             intros x Hx. apply Hfr; [|by intros ->]. by apply Hlr.
          -- intros x Hx Hx'%Hsub. by eapply Hlr.
        * intros x Hx. simpl in Hx.
          rewrite not_elem_of_cons, not_elem_of_app in Hx.
          destruct Hx as (? & ? & ?). by apply Hfr. }
  simpl. destruct (del_loop _cmp v (erase t)) as [b n'] eqn:Hdel.
  exists h', t'. simpl in *. done.
Qed.

(** *** Sequences of operations *)

(** A set that is changed by [add] and [del] only keeps a tree of its own in
    the store, and that tree is the one that the operations on trees
    build. *)
Lemma run_refines (ops : list op) (h : heap) (t : placed) sz :
  owns h t →
  let s := run _cmp ops {| _root := erase t; _size := sz |} in
  ∃ h' t',
    Store.run _cmp ops h {| Store._root := ptr t; Store._size := sz |} =
      Some (h', {| Store._root := ptr t'; Store._size := _size s |}) ∧
    erase t' = _root s ∧ owns h' t'.
Proof.
  revert h t sz. induction ops as [|o ops IH]; intros h t sz Ho; simpl.
  { by exists h, t. }
  destruct o as [v|v]; simpl.
  - destruct (add_refines v h t sz Ho) as (h1 & t1 & -> & He & Ho1 & _).
    simpl. destruct (IH h1 t1 (_size (snd (add _cmp v {| _root := erase t; _size := sz |}))) Ho1)
      as (h' & t' & Hrun & He' & Ho').
    rewrite Hrun. rewrite He in Hrun, He' |- *.
    destruct (add _cmp v _) as [b [r' sz']]. simpl in *. by exists h', t'.
  - destruct (del_refines v h t sz Ho) as (h1 & t1 & -> & He & Ho1 & _).
    simpl. destruct (IH h1 t1 (_size (snd (del _cmp v {| _root := erase t; _size := sz |}))) Ho1)
      as (h' & t' & Hrun & He' & Ho').
    rewrite Hrun. rewrite He in Hrun, He' |- *.
    destruct (del _cmp v _) as [b [r' sz']]. simpl in *. by exists h', t'.
Qed.

(** In particular for a set that starts empty in an empty store: the
    program on the store ends, and the size and the walk it gives are those
    of the set of the first part. *)
Lemma run_from_empty (ops : list op) :
  let s := run _cmp ops TreeSet_empty in
  ∃ h' s',
    Store.run _cmp ops [] {| Store._root := None; Store._size := 0 |} =
      Some (h', s') ∧
    Store.size s' = size s ∧
    Store.traversal h' s' = Some (traversal s) ∧
    ∀ v, Store.contains _cmp v h' s' = Some (contains _cmp v s).
Proof.
  intros s.
  destruct (run_refines ops [] p_null 0) as (h' & t' & Hrun & He & Ho).
  { split; [done|constructor]. }
  change (run _cmp ops {| _root := erase p_null; _size := 0 |}) with s in *.
  eexists _, _. split; [exact Hrun|].
  assert (s = {| _root := erase t'; _size := _size s |}) as Hs.
  { rewrite He. by destruct s. }
  split_and!.
  - done.
  - rewrite traversal_refines by done. by rewrite <- Hs.
  - intros v. rewrite contains_refines by done. by rewrite <- Hs.
Qed.
End Refinement.

(** * The properties of the specification *)

Section Ordering.
Context {T : Type} {T_eq : EqDecision T}.
Variable _cmp : T → T → bool.

Abbreviation TreeSet := (@TreeSet T).

(** C1, as the code has it.  After every operation of any sequence of [add]
    and [del] from the empty set (a prefix of a sequence is a sequence), the
    traversal holds no value twice and never puts a value after one it is
    less than.  When the comparator is total, that is when equivalent values
    are equal as for [std::less] and [std::greater] on [int], the traversal
    is strictly increasing. *)
Theorem ordering_invariant (ops : list op) :
  StrictWeakOrder _cmp →
  let s := run _cmp ops TreeSet_empty in
  NoDup (traversal s) ∧
  StronglySorted (before _cmp) (traversal s) ∧
  (TotalOrder _cmp → StronglySorted (λ a b, _cmp a b = true) (traversal s)).
Proof.
  intros Hswo s. rewrite traversal_inorder.
  assert (valid _cmp s) as [Hst _].
  { apply reachable_valid; [done|]. apply run_reachable. constructor. }
  pose proof (search_tree_sorted _cmp _ Hswo Hst) as Hsorted.
  split_and!.
  - by apply (sorted_before_NoDup _cmp).
  - done.
  - intros Htot. by apply sorted_before_strict.
Qed.

(** C2, as the code has it.  [add(v)] looks for a value equal to [v] with
    [==]: it returns true and inserts [v] exactly when no equal value is
    present, and [contains(v)] holds afterwards; when an equal value is
    present it returns false and leaves the set as it was.  Under a total
    comparator a value is present exactly when an equivalent one is. *)
Theorem add_contains_duality (v : T) (s : TreeSet) :
  StrictWeakOrder _cmp → reachable _cmp s →
  (fst (add _cmp v s) = true ↔ v ∉ traversal s) ∧
  contains _cmp v (snd (add _cmp v s)) = true ∧
  (v ∉ traversal s →
     size (snd (add _cmp v s)) = size s + 1 ∧
     traversal (snd (add _cmp v s)) ≡ₚ v :: traversal s) ∧
  (v ∈ traversal s → add _cmp v s = (false, s)) ∧
  (TotalOrder _cmp →
     (v ∈ traversal s ↔ ∃ e, e ∈ traversal s ∧ equivalent _cmp v e)).
Proof.
  intros Hswo Hr. pose proof (reachable_valid _cmp s Hswo Hr) as Hv.
  rewrite !traversal_inorder.
  destruct (decide (v ∈ inorder (_root s))) as [Hin|Hin].
  - rewrite (add_present _cmp v s Hv Hin). simpl. split_and!.
    + split; [done|]. intros Hn. by destruct Hn.
    + by apply contains_elem.
    + intros Hn. by destruct Hn.
    + done.
    + intros _. split; [|done]. intros _. exists v. split; [done|].
      split; by apply swo_irrefl.
  - destruct (add_absent _cmp v s Hv Hin) as (s' & -> & Hv' & Hp & Hsz & Hc).
    simpl. split_and!.
    + done.
    + done.
    + done.
    + intros Hn. by destruct Hin.
    + intros Htot. split; [done|]. intros (e & He & Hve).
      by rewrite (Htot v e Hve).
Qed.

(** C3.  [del(v)] returns true exactly when [contains(v)] held before the
    call.  On success [contains(v)] no longer holds and the size has gone
    down by one; on failure the set is as it was; and a second [del(v)]
    fails. *)
Theorem del_contains_duality (v : T) (s : TreeSet) :
  StrictWeakOrder _cmp → reachable _cmp s →
  fst (del _cmp v s) = contains _cmp v s ∧
  (contains _cmp v s = true →
     contains _cmp v (snd (del _cmp v s)) = false ∧
     size (snd (del _cmp v s)) = size s - 1) ∧
  (contains _cmp v s = false → del _cmp v s = (false, s)) ∧
  del _cmp v (snd (del _cmp v s)) = (false, snd (del _cmp v s)).
Proof.
  intros Hswo Hr. pose proof (reachable_valid _cmp s Hswo Hr) as Hv.
  destruct (decide (v ∈ inorder (_root s))) as [Hin|Hin].
  - destruct (del_present _cmp v s Hswo Hv Hin) as (s' & -> & Hv' & _ & Hsz & Hn).
    assert (contains _cmp v s = true) as -> by (by apply contains_elem).
    assert (contains _cmp v s' = false) as Hc'.
    { apply not_true_is_false. intros Hc. by apply contains_elem in Hc. }
    simpl. split_and!; [done|done|done|]. by apply del_absent.
  - rewrite (del_absent _cmp v s Hv Hin).
    assert (contains _cmp v s = false) as ->.
    { apply not_true_is_false. intros Hc. by apply contains_elem in Hc. }
    simpl. split_and!; [done|done|done|]. by apply del_absent.
Qed.

(** C7.  Two sets are equal exactly when their traversals are the same
    sequence.  So the sets built by inserting two arrangements of the same
    values are equal, whatever the shape of their trees, provided no two
    different values among them are equivalent under the comparator. *)
Theorem equality_order_insensitive (l1 l2 : list T) :
  StrictWeakOrder _cmp →
  l1 ≡ₚ l2 →
  (∀ x y, x ∈ l1 → y ∈ l1 → equivalent _cmp x y → x = y) →
  (∀ s rhs : TreeSet, set_eq s rhs = true ↔ traversal s = traversal rhs) ∧
  set_eq (TreeSet_of_list _cmp l1) (TreeSet_of_list _cmp l2) = true.
Proof.
  intros Hswo Hperm Htot.
  assert (∀ s rhs : TreeSet,
            set_eq s rhs = true ↔ traversal s = traversal rhs) as Heq.
  { intros s rhs. rewrite set_eq_inorder, !traversal_inorder.
    apply bool_decide_eq_true. }
  split; [done|]. apply Heq. rewrite !traversal_inorder.
  rewrite !TreeSet_of_list_fold.
  destruct (fold_add_if _cmp (λ _, true) l1 TreeSet_empty (valid_empty _cmp))
    as ([Hs1 _] & He1 & _).
  destruct (fold_add_if _cmp (λ _, true) l2 TreeSet_empty (valid_empty _cmp))
    as ([Hs2 _] & He2 & _).
  set (s1 := fold_left _ l1 _) in *. set (s2 := fold_left _ l2 _) in *.
  assert (∀ y, y ∈ inorder (_root s1) ↔ y ∈ l1) as He1'.
  { intros y. rewrite He1. simpl. rewrite elem_of_nil. tauto. }
  assert (∀ y, y ∈ inorder (_root s2) ↔ y ∈ l1) as He2'.
  { intros y. rewrite He2, Hperm. simpl. rewrite elem_of_nil. tauto. }
  apply (StronglySorted_unique_strong (before _cmp)).
  - intros x y Hx Hy [Hyx _] [Hxy _]. apply Htot.
    + by apply He1'.
    + by apply He2'.
    + by split.
  - by apply search_tree_sorted.
  - by apply search_tree_sorted.
  - apply NoDup_Permutation.
    + by apply (search_tree_NoDup _cmp).
    + by apply (search_tree_NoDup _cmp).
    + intros y. by rewrite He1', He2'.
Qed.

(** C8.  For sets [a] and [b]: [a.plus(a) == a], [a.intersect(a) == a],
    [a.minus(a)] is the empty set, the union is at least as large as the
    larger operand and the intersection at most as large as the smaller. *)
Theorem set_algebra_identities (a b : TreeSet) :
  StrictWeakOrder _cmp → reachable _cmp a → reachable _cmp b →
  set_eq (plus _cmp a a) a = true ∧
  set_eq (intersect _cmp a a) a = true ∧
  minus _cmp a a = TreeSet_empty ∧
  Z.max (size a) (size b) ≤ size (plus _cmp a b) ∧
  size (intersect _cmp a b) ≤ Z.min (size a) (size b).
Proof.
  intros Hswo Hra Hrb.
  pose proof (reachable_valid _cmp a Hswo Hra) as Hva.
  pose proof (reachable_valid _cmp b Hswo Hrb) as Hvb.
  pose proof (valid_NoDup _cmp a Hswo Hva) as Hnda.
  pose proof (valid_NoDup _cmp b Hswo Hvb) as Hndb.
  assert (StronglySorted (before _cmp) (inorder (_root a))) as Hsa.
  { apply search_tree_sorted; [done|apply Hva]. }
  destruct (fold_add_sorted _cmp _ Hsa) as [Hin1 _].
  destruct (fold_add_if _cmp (λ _, true) (inorder (_root a)) TreeSet_empty
              (valid_empty _cmp)) as (Hv1 & He1 & _).
  set (p1 := fold_left _ (inorder (_root a)) _) in *.
  split_and!.
  - rewrite set_eq_inorder, plus_fold. fold p1.
    rewrite fold_add_present; [by apply bool_decide_eq_true| done |].
    intros x Hx. by rewrite Hin1.
  - rewrite set_eq_inorder, intersect_fold by done.
    rewrite (fold_left_ext_in _ (add_if _cmp (λ _, true))).
    + fold p1. by apply bool_decide_eq_true.
    + intros s x Hx. unfold add_if. by rewrite bool_decide_eq_true_2.
  - rewrite minus_fold. apply fold_add_none. intros x Hx.
    apply negb_false_iff. by apply contains_elem.
  - rewrite plus_fold. fold p1.
    destruct (fold_add_if _cmp (λ _, true) (inorder (_root b)) p1 Hv1)
      as (Hv2 & He2 & _).
    apply Z.max_lub; apply (valid_size_le _cmp); try done.
    + intros x Hx. apply He2. right. apply He1. by left.
    + intros x Hx. apply He2. by left.
  - rewrite intersect_fold by done.
    destruct (fold_add_if _cmp (λ x, bool_decide (x ∈ inorder (_root b)))
                (inorder (_root a)) TreeSet_empty (valid_empty _cmp))
      as (Hvi & Hei & _).
    apply Z.min_glb; apply (valid_size_le _cmp); try done.
    + intros x [[Hx _]|Hx]%Hei; [done|]. by apply elem_of_nil in Hx.
    + intros x [[_ Hx]|Hx]%Hei; [|by apply elem_of_nil in Hx].
      by apply bool_decide_eq_true in Hx.
Qed.
End Ordering.

Section Rendering.
Context {T : Type} {T_eq : EqDecision T}.
Variable put : T → string.

Lemma string_app_nil_r (s : string) : s +:+ "" = s.
Proof.
  induction s as [|c s IH]; [done|].
  change (String c (s +:+ "") = String c s). by rewrite IH.
Qed.

Lemma string_app_assoc (s1 s2 s3 : string) :
  (s1 +:+ s2) +:+ s3 = s1 +:+ s2 +:+ s3.
Proof.
  induction s1 as [|c s1 IH]; [done|].
  change (String c ((s1 +:+ s2) +:+ s3) = String c (s1 +:+ s2 +:+ s3)).
  by rewrite IH.
Qed.

Lemma put_loop_join fuel (os : string) (it : @TreeSetIter T) :
  iter_wf it → (length (iter_rest it) < fuel)%nat →
  put_loop put fuel os it = Some (os +:+ comma_join (map put (iter_rest it))).
Proof.
  revert os it; induction fuel as [|fuel IH]; intros os it Hwf Hlen; [lia|].
  simpl. rewrite deref_rest by done.
  pose proof (incr_rest it Hwf) as Hincr.
  pose proof (at_end_rest _ (incr_wf it Hwf)) as Hend.
  destruct (iter_rest it) as [|v rest]; simpl in *.
  { by rewrite string_app_nil_r. }
  rewrite IH; [|by apply incr_wf|rewrite Hincr; lia].
  rewrite Hend, Hincr. destruct rest as [|w rest]; simpl.
  - by rewrite !string_app_nil_r.
  - by rewrite !string_app_assoc.
Qed.

Lemma render_join (s : @TreeSet T) :
  render put s = "[" +:+ comma_join (map put (inorder (_root s))) +:+ "]".
Proof.
  unfold render, begin. rewrite put_loop_join.
  - rewrite TreeSetIter_at_rest. simpl. apply string_app_assoc.
  - apply TreeSetIter_at_wf.
  - rewrite TreeSetIter_at_rest, length_inorder. lia.
Qed.
End Rendering.

(** C9.  The rendering of a set is an opening bracket, the values of the
    traversal joined by single commas, and a closing bracket, with nothing
    else; the empty set gives the two brackets; 4, 1, 3, 2 inserted in this
    order give the text [1,2,3,4] under the ascending order and [4,3,2,1]
    under the descending one. *)
Theorem rendering_format :
  (∀ (T : Type) (put : T → string) (s : @TreeSet T),
     render put s = "[" +:+ comma_join (map put (traversal s)) +:+ "]") ∧
  (∀ (T : Type) (put : T → string), render put (@TreeSet_empty T) = "[]") ∧
  render pretty (TreeSet_of_list less [4; 1; 3; 2]) = "[1,2,3,4]" ∧
  render pretty (TreeSet_of_list greater [4; 1; 3; 2]) = "[4,3,2,1]".
Proof.
  split_and!.
  - intros T put s.
    assert (traversal s = inorder (_root s)) as ->; [|apply render_join].
    unfold traversal, for_each, begin.
    rewrite iter_loop_fold.
    + rewrite TreeSetIter_at_rest, fold_left_cons, app_nil_r. simpl.
      apply reverse_involutive.
    + apply leftmost_wf. constructor.
    + rewrite TreeSetIter_at_rest, length_inorder. lia.
  - done.
  - by vm_compute.
  - by vm_compute.
Qed.

Section SanityCheck.
Context {T : Type} {T_eq : EqDecision T}.
Variable _cmp : T → T → bool.

Abbreviation sp_node := (@sp_node T).

(** What the check computes: [minval], the values in order, and [maxval]
    form a chain in which each link is strictly increasing. *)
Lemma chain_app lo (l1 : list T) x l2 hi :
  chain _cmp lo (l1 ++ x :: l2) hi =
  chain _cmp lo l1 x && chain _cmp x l2 hi.
Proof.
  revert lo. induction l1 as [|y l1 IH]; intros lo; simpl; [done|].
  by rewrite IH, andb_assoc.
Qed.

Lemma sanity_check_range_chain (n : sp_node) minval maxval :
  fst (sanity_check_range _cmp n minval maxval) =
  chain _cmp minval (inorder n) maxval.
Proof.
  revert minval maxval.
  induction n as [|l IHl v r IHr]; intros minval maxval; simpl; [done|].
  rewrite chain_app, <- IHl, <- IHr.
  destruct (sanity_check_range _cmp l minval v) as [[] el]; simpl; [|done].
  by destruct (sanity_check_range _cmp r v maxval).
Qed.

Lemma chain_sorted lo (l : list T) hi :
  _cmp lo hi = true →
  StronglySorted (λ a b, _cmp a b = true) l →
  Forall (λ x, _cmp lo x = true ∧ _cmp x hi = true) l →
  chain _cmp lo l hi = true.
Proof.
  intros Hlohi Hs. revert lo Hlohi.
  induction Hs as [|x l Hs IH Hx]; intros lo Hlohi Hb; simpl; [done|].
  inversion Hb as [|? ? [Hlo Hhi] Hb']; subst. rewrite Hlo. simpl.
  apply IH; [done|].
  rewrite Forall_forall in Hx, Hb'. apply Forall_forall. intros y Hy.
  split; [by apply Hx|by apply Hb'].
Qed.
End SanityCheck.

(** On a set of [int] under [std::less] the check passes as long as every
    value lies strictly between the two limits. *)
Lemma sanity_check_int_inside (s : @TreeSet Z) :
  reachable less s →
  Forall (λ x, INT_MIN < x < INT_MAX) (traversal s) →
  sanity_check (limits := numeric_limits_int) less (_root s) = true.
Proof.
  intros Hr Hin. unfold sanity_check. simpl.
  rewrite sanity_check_range_chain. apply chain_sorted.
  - done.
  - pose proof (reachable_valid less s less_swo Hr) as [Hst _].
    apply sorted_before_strict; [apply less_total|].
    by apply search_tree_sorted; [apply less_swo|].
  - rewrite traversal_inorder in Hin. eapply Forall_impl; [done|].
    intros x Hx; simpl in *. unfold less. rewrite !Z.ltb_lt. lia.
Qed.

(** C6 at the input that breaks it.  [add(INT_MIN)] on the empty set of
    [int] leaves a correct one-node tree, on which the check reports no
    issue on [cerr] and still returns false: the assertion placed after the
    insertion fires.  The same holds for [INT_MAX]. *)
Theorem sanity_check_rejects_limits :
  let s := snd (add less INT_MIN TreeSet_empty) in
  let s' := snd (add less INT_MAX TreeSet_empty) in
  reachable less s ∧ traversal s = [INT_MIN] ∧
  sanity_check_range less (_root s) INT_MIN INT_MAX = (false, []) ∧
  sanity_check (limits := numeric_limits_int) less (_root s) = false ∧
  sanity_check (limits := numeric_limits_int) less (_root s') = false.
Proof.
  split_and!; [|by vm_compute..]. apply reachable_add, reachable_empty.
Qed.

(** ** Instances of the properties above *)

(** An instance of C1: four operations under [std::less]. *)
Lemma ordering_invariant_witness :
  StrictWeakOrder less ∧ TotalOrder less ∧
  let s := run less [Add 3; Add 1; Del 3; Add 2] TreeSet_empty in
  NoDup (traversal s) ∧
  StronglySorted (before less) (traversal s) ∧
  StronglySorted (λ a b, less a b = true) (traversal s).
Proof.
  split; [exact less_swo|]. split; [exact less_total|].
  destruct (ordering_invariant less [Add 3; Add 1; Del 3; Add 2] less_swo)
    as (H1 & H2 & H3).
  split; [exact H1|]. split; [exact H2|]. exact (H3 less_total).
Defined.

(** C1 as stated fails for a comparator that is a strict weak order without
    being total.  Under [abs_less] the sequence [add(1)], [add(-1)] leaves
    the traversal 1, -1, which is not strictly increasing: the two values
    are equivalent, and both are kept because they differ under [==]. *)
Lemma ordering_not_strict_under_abs_less :
  StrictWeakOrder abs_less ∧
  traversal (run abs_less [Add 1; Add (-1)] TreeSet_empty) = [1; -1] ∧
  ¬ StronglySorted (λ a b, abs_less a b = true)
      (traversal (run abs_less [Add 1; Add (-1)] TreeSet_empty)).
Proof.
  split; [exact abs_less_swo|]. split; [by vm_compute|].
  intros Hs. vm_compute in Hs.
  inversion Hs as [|? ? _ Hall]; subst.
  inversion Hall as [|? ? Hlt _]; subst. discriminate Hlt.
Qed.

(** An instance of C2: 2 is added to the set built from 3, 1. *)
Lemma add_contains_duality_witness :
  let s := TreeSet_of_list less [3; 1] in
  StrictWeakOrder less ∧ reachable less s ∧
  (fst (add less 2 s) = true ↔ 2 ∉ traversal s) ∧
  contains less 2 (snd (add less 2 s)) = true ∧
  (2 ∉ traversal s →
     size (snd (add less 2 s)) = size s + 1 ∧
     traversal (snd (add less 2 s)) ≡ₚ 2 :: traversal s) ∧
  (2 ∈ traversal s → add less 2 s = (false, s)) ∧
  (TotalOrder less →
     (2 ∈ traversal s ↔ ∃ e, e ∈ traversal s ∧ equivalent less 2 e)).
Proof.
  split; [exact less_swo|].
  split; [exact (TreeSet_of_list_reachable less [3; 1])|].
  exact (add_contains_duality less 2 (TreeSet_of_list less [3; 1]) less_swo
           (TreeSet_of_list_reachable less [3; 1])).
Defined.

(** C2 as stated fails when a value is equivalent to a present one without
    being equal to it.  The set holds 1; under [abs_less] the value -1 is
    equivalent to 1, and [add(-1)] returns true and makes the size 2. *)
Lemma add_accepts_equivalent_value :
  let s := TreeSet_of_list abs_less [1] in
  StrictWeakOrder abs_less ∧ reachable abs_less s ∧
  1 ∈ traversal s ∧ equivalent abs_less (-1) 1 ∧
  add abs_less (-1) s =
    (true, {| _root := node nullptr 1 (node nullptr (-1) nullptr);
              _size := 2 |}).
Proof.
  split; [exact abs_less_swo|].
  split; [exact (TreeSet_of_list_reachable abs_less [1])|].
  split; [vm_compute; by left|]. split; by vm_compute.
Qed.

(** An instance of C3: 3 is deleted from the set built from 3, 1, 5. *)
Lemma del_contains_duality_witness :
  let s := TreeSet_of_list less [3; 1; 5] in
  StrictWeakOrder less ∧ reachable less s ∧
  fst (del less 3 s) = contains less 3 s ∧
  (contains less 3 s = true →
     contains less 3 (snd (del less 3 s)) = false ∧
     size (snd (del less 3 s)) = size s - 1) ∧
  (contains less 3 s = false → del less 3 s = (false, s)) ∧
  del less 3 (snd (del less 3 s)) = (false, snd (del less 3 s)).
Proof.
  split; [exact less_swo|].
  split; [exact (TreeSet_of_list_reachable less [3; 1; 5])|].
  exact (del_contains_duality less 3 (TreeSet_of_list less [3; 1; 5]) less_swo
           (TreeSet_of_list_reachable less [3; 1; 5])).
Defined.

(** An instance of C7: 1, 2, 3 and 3, 1, 2 under [std::less]. *)
Lemma equality_order_insensitive_witness :
  StrictWeakOrder less ∧ [1; 2; 3] ≡ₚ [3; 1; 2] ∧
  (∀ x y, x ∈ [1; 2; 3] → y ∈ [1; 2; 3] → equivalent less x y → x = y) ∧
  (∀ s rhs : @TreeSet Z, set_eq s rhs = true ↔ traversal s = traversal rhs) ∧
  set_eq (TreeSet_of_list less [1; 2; 3]) (TreeSet_of_list less [3; 1; 2])
    = true.
Proof.
  split; [exact less_swo|].
  split; [exact (perm_trans (perm_skip 1 (perm_swap 3 2 []))
                            (perm_swap 3 1 [2]))|].
  split; [exact (λ x y _ _ H, less_total x y H)|].
  exact (equality_order_insensitive less [1; 2; 3] [3; 1; 2] less_swo
           (perm_trans (perm_skip 1 (perm_swap 3 2 [])) (perm_swap 3 1 [2]))
           (λ x y _ _ H, less_total x y H)).
Defined.

(** An instance of C8: the sets built from 1, 2, 3 and from 1, 2, 4. *)
Lemma set_algebra_identities_witness :
  let a := TreeSet_of_list less [1; 2; 3] in
  let b := TreeSet_of_list less [1; 2; 4] in
  StrictWeakOrder less ∧ reachable less a ∧ reachable less b ∧
  set_eq (plus less a a) a = true ∧
  set_eq (intersect less a a) a = true ∧
  minus less a a = TreeSet_empty ∧
  Z.max (size a) (size b) ≤ size (plus less a b) ∧
  size (intersect less a b) ≤ Z.min (size a) (size b).
Proof.
  split; [exact less_swo|].
  split; [exact (TreeSet_of_list_reachable less [1; 2; 3])|].
  split; [exact (TreeSet_of_list_reachable less [1; 2; 4])|].
  exact (set_algebra_identities less _ _ less_swo
           (TreeSet_of_list_reachable less [1; 2; 3])
           (TreeSet_of_list_reachable less [1; 2; 4])).
Defined.

(** * Sets that share nodes *)

Section Moves.
Context {T : Type}.

Abbreviation state := (@Store.state T).

(** C10.  Assigning a set to itself, by copy or by move, changes nothing:
    neither the store of nodes nor any set object, so the set keeps its
    root, its size and its values.  Both operators compare the two
    addresses first and return at once when they are the same. *)
Theorem self_assignment_noop (uninit : T) (this : nat) (st : state) :
  Store.copy_assign uninit this this st = Some st ∧
  Store.move_assign this this st = Some st.
Proof.
  unfold Store.copy_assign, Store.move_assign.
  by rewrite bool_decide_eq_true_2.
Qed.

(** What the two move operations do, for every source.  The move
    constructor gives the new set the root pointer and the size of the
    source and does not touch the source; move assignment does the same
    for an existing destination (with a null root when the size of the
    source is 0).  No node is allocated or changed.  The source therefore
    keeps its root and its size, and a non-empty source and the destination
    point to the same root node. *)
Theorem move_keeps_source (other : nat) (o : Store.TreeSet) (st : state) :
  Store.sets st !! other = Some o →
  (∃ this st',
     Store.TreeSet_move other st = Some (this, st') ∧
     this ≠ other ∧
     Store.nodes st' = Store.nodes st ∧
     Store.sets st' !! other = Some o ∧
     Store.sets st' !! this = Some o) ∧
  (∀ this d,
     this ≠ other → Store.sets st !! this = Some d →
     ∃ st',
       Store.move_assign this other st = Some st' ∧
       Store.nodes st' = Store.nodes st ∧
       Store.sets st' !! other = Some o ∧
       Store.sets st' !! this =
         Some {| Store._root := if 0 <? Store._size o then Store._root o
                                else None;
                 Store._size := Store._size o |}).
Proof.
  intros Ho. pose proof (lookup_lt_Some _ _ _ Ho) as Hlt. split.
  - unfold Store.TreeSet_move. rewrite Ho. simpl.
    eexists _, _. split; [done|]. simpl. split_and!.
    + lia.
    + done.
    + by apply lookup_app_l_Some.
    + destruct o. by rewrite lookup_app_r, Nat.sub_diag.
  - intros this d Hne Hd. unfold Store.move_assign.
    rewrite bool_decide_eq_false_2, Ho, Hd by done. simpl.
    eexists. split; [done|]. simpl. split_and!.
    + done.
    + by rewrite list_lookup_insert_ne.
    + apply list_lookup_insert_eq. by eapply lookup_lt_Some.
Qed.
End Moves.

Lemma one_set_built :
  (let '(a, st) := Store.TreeSet_new (Store.mkState [] []) in
   Store.on_object (Store.add less 1) a st) = Some (true, one_set).
Proof. reflexivity. Qed.

(** An instance: the set holding 1 is moved from, into a new set and into
    an existing empty one. *)
Lemma move_keeps_source_witness :
  let o := {| Store._root := Some 0%nat; Store._size := 1 |} in
  let st := {| Store.nodes := Store.nodes one_set;
               Store.sets := [o; {| Store._root := None; Store._size := 0 |}] |} in
  Store.sets st !! 0%nat = Some o ∧
  (∃ this st',
     Store.TreeSet_move 0 st = Some (this, st') ∧
     this ≠ 0%nat ∧
     Store.nodes st' = Store.nodes st ∧
     Store.sets st' !! 0%nat = Some o ∧
     Store.sets st' !! this = Some o) ∧
  (∃ st',
     Store.move_assign 1 0 st = Some st' ∧
     Store.nodes st' = Store.nodes st ∧
     Store.sets st' !! 0%nat = Some o ∧
     Store.sets st' !! 1%nat = Some o).
Proof.
  intros o st. split; [reflexivity|].
  destruct (move_keeps_source 0 o st eq_refl) as [Hctor Hassign].
  split; [exact Hctor|].
  exact (Hassign 1%nat {| Store._root := None; Store._size := 0 |}
           (λ H, Nat.neq_succ_0 0 H) eq_refl).
Defined.

(** C5 at the input that breaks it.  After [TreeSet<int> b(std::move(a))]
    on the set [a] holding 1, and after [c = std::move(a)] likewise, the
    source [a] still has size 1 and its root, which is also the root of the
    destination: the node is shared and the source is not empty. *)
Lemma move_leaves_source_full :
  let a := 0%nat in
  (∃ b st,
     Store.TreeSet_move a one_set = Some (b, st) ∧
     Store.sets st !! a = Some {| Store._root := Some 0%nat; Store._size := 1 |} ∧
     Store.sets st !! b = Some {| Store._root := Some 0%nat; Store._size := 1 |} ∧
     Store.traversal (Store.nodes st)
       {| Store._root := Some 0%nat; Store._size := 1 |} = Some [1]) ∧
  (∃ st,
     (let '(c, st) := Store.TreeSet_new one_set in
      Store.move_assign c a st) = Some st ∧
     Store.sets st !! a = Some {| Store._root := Some 0%nat; Store._size := 1 |} ∧
     Store.sets st !! 1%nat =
       Some {| Store._root := Some 0%nat; Store._size := 1 |}).
Proof.
  split.
  - eexists _, _. split; [reflexivity|]. by vm_compute.
  - eexists. split; [reflexivity|]. by vm_compute.
Qed.

(** What the shared nodes lead to.  After [a.add(2); a.add(1); a.add(3);
    TreeSet<int> b(std::move(a)); a.del(2); b.del(2);] the node holding 1
    is its own left child: [a.del(2)] hangs it under the node holding 3,
    and [b.del(2)], which still sees it as the left child of the deleted
    root, hangs it under the leftmost node below 3, which is itself.  The
    walk over [b] then never reaches an end.  (With the assertions
    compiled in, the one at the start of [b.del(2)] fires instead.) *)
Lemma shared_nodes_become_cyclic :
  (let '(a, st) := Store.TreeSet_new (Store.mkState [] []) in
   '(_, st) ← Store.on_object (Store.add less 2) a st;
   '(_, st) ← Store.on_object (Store.add less 1) a st;
   '(_, st) ← Store.on_object (Store.add less 3) a st;
   '(b, st) ← Store.TreeSet_move a st;
   '(_, st) ← Store.on_object (Store.del less 2) a st;
   '(deleted, st) ← Store.on_object (Store.del less 2) b st;
   sb ← Store.sets st !! b;
   nd ← Store.nodes st !! 1%nat;
   Some (deleted, Store.value nd, Store.left nd,
         Store.traversal (Store.nodes st) sb))
  = Some (true, 1, Some 1%nat, None).
Proof. by vm_compute. Qed.

(** C4 at the input that breaks it:
    [TreeSet<int> a; a.add(1); TreeSet<int> b(std::move(a)); a.add(2);].
    The set [b] shares its root node with [a], so the node that [a.add(2)]
    hangs under it is reached from [b] as well: a walk over [b] yields 1
    and 2 while [b.size()] is still 1. *)
Theorem size_differs_after_move :
  (let '(a, st) := Store.TreeSet_new (Store.mkState [] []) in
   '(_, st) ← Store.on_object (Store.add less 1) a st;
   '(b, st) ← Store.TreeSet_move a st;
   '(_, st) ← Store.on_object (Store.add less 2) a st;
   sb ← Store.sets st !! b;
   values ← Store.traversal (Store.nodes st) sb;
   Some (Store.size sb, values))
  = Some (1, [1; 2]).
Proof. by vm_compute. Qed.

(** * Further properties of the operations *)

Section Cursor.
Context {T : Type}.

Lemma advance_rest k (it : @TreeSetIter T) :
  iter_wf it →
  iter_wf (advance k it) ∧ iter_rest (advance k it) = drop k (iter_rest it).
Proof.
  intros Hwf. induction k as [|k [IHw IHr]]; simpl.
  - by rewrite drop_0.
  - split; [by apply incr_wf|].
    rewrite incr_rest, IHr by done.
    generalize (iter_rest it). clear. intros l. revert k.
    induction l as [|x l IH]; intros k; [by destruct k|].
    destruct k as [|k]; simpl; [by rewrite drop_0|]. apply IH.
Qed.

(** X1 (the iterator as a cursor).  After [k] advances from [begin()] it stands
    on the [k]-th value of the tree in order (left subtree, node, right
    subtree); with [k] at or beyond the number of nodes it is at the end,
    where it stays and has no value to read. *)
Theorem iterator_advance (s : @TreeSet T) (k : nat) :
  deref (advance k (begin s)) = inorder (_root s) !! k ∧
  at_end (advance k (begin s)) = bool_decide (count (_root s) ≤ k)%nat ∧
  (at_end (advance k (begin s)) = true →
   advance (S k) (begin s) = advance k (begin s)).
Proof.
  destruct (advance_rest k (begin s) (TreeSetIter_at_wf _)) as [Hwf Hrest].
  unfold begin in *. rewrite TreeSetIter_at_rest in Hrest.
  split_and!.
  - rewrite deref_rest, Hrest by done.
    rewrite head_lookup, lookup_drop. f_equal. lia.
  - rewrite at_end_rest, Hrest by done.
    apply bool_decide_ext.
    rewrite <- length_zero_iff_nil, length_drop, length_inorder. lia.
  - unfold at_end. simpl. unfold incr.
    by destruct (_current_node (advance k (TreeSetIter_at (_root s)))).
Qed.
End Cursor.

Section Updates.
Context {T : Type} {T_eq : EqDecision T}.
Variable _cmp : T → T → bool.

Abbreviation sp_node := (@sp_node T).
Abbreviation TreeSet := (@TreeSet T).

Local Arguments add_loop : simpl never.
Local Arguments del_loop : simpl never.
Local Arguments merge : simpl never.

(** Where [add] puts the value and where [del] takes it from. *)
Lemma add_loop_position v (n : sp_node) :
  n ≠ nullptr → contains_loop _cmp v n = false →
  ∃ l1 l2, inorder n = l1 ++ l2 ∧
           inorder (snd (add_loop _cmp v n)) = l1 ++ v :: l2.
Proof.
  induction n as [|l IHl w r IHr]; [done|]. intros _.
  rewrite add_loop_node. simpl.
  case_bool_decide as Hvw; [done|].
  destruct (_cmp v w); intros Hc.
  - destruct (is_null l) eqn:El.
    + destruct l; [|done]. by exists [], (w :: inorder r).
    + destruct IHl as (l1 & l2 & Hl & Hl'); [by destruct l|done|].
      exists l1, (l2 ++ w :: inorder r). simpl.
      rewrite Hl, Hl'. by rewrite <- !app_assoc.
  - destruct (is_null r) eqn:Er.
    + destruct r; [|done]. exists (inorder l ++ [w]), []. simpl.
      by rewrite app_nil_r, <- !app_assoc.
    + destruct IHr as (l1 & l2 & Hr & Hr'); [by destruct r|done|].
      exists (inorder l ++ w :: l1), l2. simpl.
      rewrite Hr, Hr'. by rewrite <- !app_assoc.
Qed.

Lemma del_loop_position v (n : sp_node) :
  contains_loop _cmp v n = true →
  ∃ l1 l2, inorder n = l1 ++ v :: l2 ∧
           inorder (snd (del_loop _cmp v n)) = l1 ++ l2.
Proof.
  induction n as [|l IHl w r IHr]; [done|].
  rewrite del_loop_node. simpl.
  case_bool_decide as Hvw.
  - subst w. intros _. exists (inorder l), (inorder r).
    cbn [snd]. by rewrite inorder_merge.
  - destruct (_cmp v w); intros Hc.
    + destruct (IHl Hc) as (l1 & l2 & Hl & Hl').
      exists l1, (l2 ++ w :: inorder r). simpl.
      rewrite Hl, Hl'. by rewrite <- !app_assoc.
    + destruct (IHr Hc) as (l1 & l2 & Hr & Hr').
      exists (inorder l ++ w :: l1), l2. simpl.
      rewrite Hr, Hr'. by rewrite <- !app_assoc.
Qed.

Lemma filter_ne_absent v (l : list T) :
  v ∉ l → filter (λ x, x ≠ v) l = l.
Proof.
  induction l as [|x l IH]; [done|]. rewrite not_elem_of_cons. intros [Hx Hl].
  rewrite filter_cons_True by done. by rewrite IH.
Qed.

Lemma filter_ne_middle v (l1 l2 : list T) :
  v ∉ l1 → v ∉ l2 →
  filter (λ x, x ≠ v) (l1 ++ v :: l2) = l1 ++ l2.
Proof.
  intros H1 H2. rewrite filter_app, filter_cons_False by (by intros ?).
  by rewrite !filter_ne_absent.
Qed.

(** X2 (add places, del removes).  [add(v)] of an absent value puts it at
    one place of the traversal and moves nothing else; [del(v)] takes [v]
    out and keeps the other values in their order. *)
Theorem add_del_keep_order (v : T) (s : TreeSet) :
  StrictWeakOrder _cmp → reachable _cmp s →
  (v ∉ traversal s →
   ∃ l1 l2, traversal s = l1 ++ l2 ∧
            traversal (snd (add _cmp v s)) = l1 ++ v :: l2) ∧
  traversal (snd (del _cmp v s)) = filter (λ x, x ≠ v) (traversal s).
Proof.
  intros Hswo Hr. pose proof (reachable_valid _cmp s Hswo Hr) as Hv.
  rewrite !traversal_inorder. split.
  - intros Hin. unfold add.
    destruct (size s =? 0) eqn:Hz.
    + rewrite (valid_size_0 _cmp s Hv Hz). by exists [], [].
    + destruct (add_loop_position v (_root s)) as (l1 & l2 & H1 & H2).
      * by apply (valid_root _cmp).
      * apply not_true_is_false. intros Hc. apply Hin.
        by apply (contains_loop_elem _cmp); [apply Hv|].
      * exists l1, l2. split; [done|].
        by destruct (add_loop _cmp v (_root s)).
  - destruct (decide (v ∈ inorder (_root s))) as [Hin|Hin].
    + unfold del. destruct (size s =? 0) eqn:Hz.
      { rewrite (valid_size_0 _cmp s Hv Hz) in Hin. by apply elem_of_nil in Hin. }
      destruct (del_loop_position v (_root s)) as (l1 & l2 & H1 & H2).
      { apply (contains_loop_elem _cmp); [apply Hv|done]. }
      pose proof (valid_NoDup _cmp s Hswo Hv) as Hnd.
      rewrite H1 in Hnd |- *. apply NoDup_app in Hnd as (_ & Hd & Hnd).
      apply NoDup_cons in Hnd as [Hv2 _].
      rewrite filter_ne_middle; [|intros Hx; apply (Hd _ Hx); by left|done].
      by destruct (del_loop _cmp v (_root s)).
    + rewrite (del_absent _cmp v s Hv Hin). simpl.
      by rewrite filter_ne_absent.
Qed.

(** X3 (other values are left alone).  After [add(v)] the set contains [v]
    and exactly the values it contained; after [del(v)] it contains the
    values it contained except [v]. *)
Theorem add_del_membership (v w : T) (s : TreeSet) :
  StrictWeakOrder _cmp → reachable _cmp s →
  contains _cmp w (snd (add _cmp v s)) =
    (bool_decide (w = v) || contains _cmp w s) ∧
  contains _cmp w (snd (del _cmp v s)) =
    (negb (bool_decide (w = v)) && contains _cmp w s).
Proof.
  intros Hswo Hr. pose proof (reachable_valid _cmp s Hswo Hr) as Hv.
  pose proof (add_valid _cmp v s Hv) as Hva.
  pose proof (del_valid _cmp v s Hswo Hv) as Hvd.
  split; apply eq_true_iff_eq.
  - rewrite orb_true_iff, bool_decide_eq_true, !contains_elem by done.
    destruct (decide (v ∈ inorder (_root s))) as [Hin|Hin].
    + rewrite add_present by done. simpl. split; [auto|].
      intros [->|?]; done.
    + destruct (add_absent _cmp v s Hv Hin) as (s' & -> & _ & Hp & _).
      simpl. rewrite Hp, elem_of_cons. done.
  - rewrite andb_true_iff, negb_true_iff, bool_decide_eq_false,
      !contains_elem by done.
    destruct (decide (v ∈ inorder (_root s))) as [Hin|Hin].
    + destruct (del_present _cmp v s Hswo Hv Hin) as (s' & -> & _ & Hp & _ & Hn).
      simpl. rewrite Hp, elem_of_cons. split.
      * intros Hw. split; [by intros ->|auto].
      * intros [Hne [?|?]]; done.
    + rewrite del_absent by done. simpl. split; [|by intros [_ ?]].
      intros Hw. split; [by intros ->|done].
Qed.

(** The loop of [del] undoes the loop of [add]: the new node is a leaf. *)
Lemma del_loop_add_loop v (n : sp_node) :
  n ≠ nullptr → contains_loop _cmp v n = false →
  del_loop _cmp v (snd (add_loop _cmp v n)) = (true, n).
Proof.
  induction n as [|l IHl w r IHr]; [done|]. intros _.
  rewrite add_loop_node. simpl.
  case_bool_decide as Hvw; [done|].
  destruct (_cmp v w) eqn:Hc; intros Hcont.
  - destruct (is_null l) eqn:El; cbn [snd]; rewrite del_loop_node;
      rewrite bool_decide_eq_false_2, Hc by done.
    + destruct l; [|done]. unfold make_node. rewrite del_loop_node.
      by rewrite bool_decide_eq_true_2.
    + rewrite IHl; [done|by destruct l|done].
  - destruct (is_null r) eqn:Er; cbn [snd]; rewrite del_loop_node;
      rewrite bool_decide_eq_false_2, Hc by done.
    + destruct r; [|done]. unfold make_node. rewrite del_loop_node.
      by rewrite bool_decide_eq_true_2.
    + rewrite IHr; [done|by destruct r|done].
Qed.

(** X4 (add then del).  Deleting a value that was just added gives back the
    very set: the same tree and the same size. *)
Theorem del_after_add (v : T) (s : TreeSet) :
  StrictWeakOrder _cmp → reachable _cmp s → v ∉ traversal s →
  add _cmp v s = (true, snd (add _cmp v s)) ∧
  del _cmp v (snd (add _cmp v s)) = (true, s).
Proof.
  intros Hswo Hr. rewrite traversal_inorder. intros Hin.
  pose proof (reachable_valid _cmp s Hswo Hr) as Hv.
  destruct (add_absent _cmp v s Hv Hin) as (s' & Hadd & _).
  split; [by rewrite Hadd|].
  unfold add. destruct (size s =? 0) eqn:Hz.
  - pose proof (valid_size_0 _cmp s Hv Hz) as Hroot.
    cbn [snd]. unfold del, size, make_node. cbn [_size _root].
    change (1 =? 0) with false. cbv iota.
    rewrite del_loop_node, bool_decide_eq_true_2 by done.
    destruct s as [r sz]. unfold size in Hz. simpl in *.
    apply Z.eqb_eq in Hz. by subst.
  - pose proof (valid_root _cmp s Hv Hz) as Hroot.
    assert (contains_loop _cmp v (_root s) = false) as Hc.
    { apply not_true_is_false. intros Hc. apply Hin.
      by apply (contains_loop_elem _cmp); [apply Hv|]. }
    destruct (add_loop_fresh _cmp v (_root s) Hroot Hc) as (n' & Hal & _).
    pose proof (del_loop_add_loop v (_root s) Hroot Hc) as Hdel.
    rewrite Hal in Hdel |- *. cbn [snd] in *.
    destruct Hv as [_ Hsz]. unfold del, size. cbn [_size _root].
    assert ((_size s + 1 =? 0) = false) as -> by (apply Z.eqb_neq; lia).
    rewrite Hdel. destruct s as [r sz]. simpl. f_equal. f_equal. lia.
Qed.
End Updates.

Section Algebra.
Context {T : Type} {T_eq : EqDecision T}.
Variable _cmp : T → T → bool.

Abbreviation sp_node := (@sp_node T).
Abbreviation TreeSet := (@TreeSet T).

Lemma contains_bool (v : T) (s : TreeSet) (P : Prop) `{Decision P} :
  valid _cmp s → (v ∈ inorder (_root s) ↔ P) →
  contains _cmp v s = bool_decide P.
Proof.
  intros Hv HP. apply eq_true_iff_eq.
  by rewrite bool_decide_eq_true, contains_elem.
Qed.

(** X5 (initializer list).  The set built from a list contains exactly the
    values of the list, and its size is the number of different values:
    repetitions are dropped. *)
Theorem initializer_list_set (l : list T) (v : T) :
  StrictWeakOrder _cmp →
  let s := TreeSet_of_list _cmp l in
  contains _cmp v s = bool_decide (v ∈ l) ∧
  size s = Z.of_nat (length (remove_dups l)) ∧
  traversal s ≡ₚ remove_dups l.
Proof.
  intros Hswo s. unfold s. rewrite TreeSet_of_list_fold, traversal_inorder.
  destruct (fold_add_if _cmp (λ _, true) l TreeSet_empty (valid_empty _cmp))
    as (Hv & He & _).
  set (s' := fold_left _ l _) in *.
  assert (inorder (_root s') ≡ₚ remove_dups l) as Hp.
  { apply NoDup_Permutation.
    - by apply (valid_NoDup _cmp).
    - apply NoDup_remove_dups.
    - intros x. rewrite He, elem_of_remove_dups. simpl.
      rewrite elem_of_nil. tauto. }
  split_and!.
  - apply contains_bool; [done|]. rewrite He. simpl. rewrite elem_of_nil. tauto.
  - rewrite (valid_size _cmp) by done. by rewrite Hp.
  - done.
Qed.

Lemma contains_plus (a b : TreeSet) (v : T) :
  valid _cmp a → valid _cmp b →
  valid _cmp (plus _cmp a b) ∧
  contains _cmp v (plus _cmp a b) = (contains _cmp v a || contains _cmp v b).
Proof.
  intros Hva Hvb. rewrite plus_fold.
  destruct (fold_add_if _cmp (λ _, true) (inorder (_root a)) TreeSet_empty
              (valid_empty _cmp)) as (Hv1 & He1 & _).
  destruct (fold_add_if _cmp (λ _, true) (inorder (_root b)) _ Hv1)
    as (Hv2 & He2 & _).
  split; [done|]. apply eq_true_iff_eq.
  rewrite orb_true_iff, !contains_elem by done. rewrite He2, He1. simpl.
  rewrite elem_of_nil. tauto.
Qed.

Lemma contains_intersect (a b : TreeSet) (v : T) :
  valid _cmp a → valid _cmp b → NoDup (inorder (_root b)) →
  valid _cmp (intersect _cmp a b) ∧
  contains _cmp v (intersect _cmp a b) =
    (contains _cmp v a && contains _cmp v b).
Proof.
  intros Hva Hvb Hndb. rewrite intersect_fold by done.
  destruct (fold_add_if _cmp (λ x, bool_decide (x ∈ inorder (_root b)))
              (inorder (_root a)) TreeSet_empty (valid_empty _cmp))
    as (Hv1 & He1 & _).
  split; [done|]. apply eq_true_iff_eq.
  rewrite andb_true_iff, !contains_elem by done.
  rewrite He1, bool_decide_eq_true. simpl. rewrite elem_of_nil. tauto.
Qed.

Lemma contains_minus (a b : TreeSet) (v : T) :
  valid _cmp a → valid _cmp b →
  valid _cmp (minus _cmp a b) ∧
  contains _cmp v (minus _cmp a b) =
    (contains _cmp v a && negb (contains _cmp v b)).
Proof.
  intros Hva Hvb. rewrite minus_fold.
  destruct (fold_add_if _cmp (λ x, negb (contains _cmp x b))
              (inorder (_root a)) TreeSet_empty (valid_empty _cmp))
    as (Hv1 & He1 & _).
  split; [done|]. apply eq_true_iff_eq.
  rewrite andb_true_iff, negb_true_iff, !contains_elem by done.
  rewrite He1, negb_true_iff. simpl. rewrite elem_of_nil. tauto.
Qed.

(** X6 (set algebra).  A value is in the union when it is in one of the two
    sets, in the intersection when it is in both, and in the difference
    when it is in the first and not in the second. *)
Theorem set_algebra_membership (a b : TreeSet) (v : T) :
  StrictWeakOrder _cmp → reachable _cmp a → reachable _cmp b →
  contains _cmp v (plus _cmp a b) = (contains _cmp v a || contains _cmp v b) ∧
  contains _cmp v (intersect _cmp a b) =
    (contains _cmp v a && contains _cmp v b) ∧
  contains _cmp v (minus _cmp a b) =
    (contains _cmp v a && negb (contains _cmp v b)).
Proof.
  intros Hswo Hra Hrb.
  pose proof (reachable_valid _cmp a Hswo Hra) as Hva.
  pose proof (reachable_valid _cmp b Hswo Hrb) as Hvb.
  split_and!.
  - by apply contains_plus.
  - apply contains_intersect; [done..|]. by apply (valid_NoDup _cmp).
  - by apply contains_minus.
Qed.

(** X8 (equality).  [==] on sets is reflexive, symmetric and transitive,
    whatever the sets, and [!=] holds exactly when the two traversals
    differ. *)
Theorem set_eq_equivalence (a b c : TreeSet) :
  set_eq a a = true ∧
  set_eq a b = set_eq b a ∧
  (set_eq a b = true → set_eq b c = true → set_eq a c = true) ∧
  (set_neq a b = true ↔ traversal a ≠ traversal b).
Proof.
  unfold set_neq. rewrite !set_eq_inorder, !traversal_inorder. split_and!.
  - by apply bool_decide_eq_true.
  - apply bool_decide_ext. split; by intros ->.
  - rewrite !bool_decide_eq_true. by intros -> ->.
  - by rewrite negb_true_iff, bool_decide_eq_false.
Qed.

Lemma valid_set_eq_members (a b : TreeSet) :
  StrictWeakOrder _cmp → TotalOrder _cmp → valid _cmp a → valid _cmp b →
  set_eq a b = true ↔ ∀ v, contains _cmp v a = contains _cmp v b.
Proof.
  intros Hswo Htot Hva Hvb.
  rewrite set_eq_inorder, bool_decide_eq_true. split.
  - intros Heq v. apply eq_true_iff_eq.
    by rewrite !contains_elem, Heq by done.
  - intros Hc.
    assert (∀ v, v ∈ inorder (_root a) ↔ v ∈ inorder (_root b)) as Hel.
    { intros v. rewrite <- !(contains_elem _cmp) by done. by rewrite Hc. }
    apply (StronglySorted_unique_strong (before _cmp)).
    + intros x y _ _ [Hyx _] [Hxy _]. by apply Htot.
    + apply search_tree_sorted; [done|apply Hva].
    + apply search_tree_sorted; [done|apply Hvb].
    + apply NoDup_Permutation; [by apply (valid_NoDup _cmp)..|done].
Qed.

(** X9 (equality by members).  Under a total comparator two sets are equal
    under [==] exactly when they contain the same values, whatever the
    order in which these were inserted or deleted. *)
Theorem set_eq_members (a b : TreeSet) :
  StrictWeakOrder _cmp → TotalOrder _cmp →
  reachable _cmp a → reachable _cmp b →
  set_eq a b = true ↔ ∀ v, contains _cmp v a = contains _cmp v b.
Proof.
  intros Hswo Htot Hra Hrb.
  apply valid_set_eq_members; [done..| |]; by apply reachable_valid.
Qed.

(** X7 (laws of the set algebra).  Under a total comparator union and
    intersection do not depend on the order of their operands, union is
    associative, and what a union loses by subtracting one operand is what
    the other loses. *)
Theorem set_algebra_laws (a b c : TreeSet) :
  StrictWeakOrder _cmp → TotalOrder _cmp →
  reachable _cmp a → reachable _cmp b → reachable _cmp c →
  set_eq (plus _cmp a b) (plus _cmp b a) = true ∧
  set_eq (intersect _cmp a b) (intersect _cmp b a) = true ∧
  set_eq (plus _cmp (plus _cmp a b) c) (plus _cmp a (plus _cmp b c)) = true ∧
  set_eq (minus _cmp (plus _cmp a b) b) (minus _cmp a b) = true.
Proof.
  intros Hswo Htot Hra Hrb Hrc.
  pose proof (reachable_valid _cmp a Hswo Hra) as Hva.
  pose proof (reachable_valid _cmp b Hswo Hrb) as Hvb.
  pose proof (reachable_valid _cmp c Hswo Hrc) as Hvc.
  pose proof (valid_NoDup _cmp a Hswo Hva) as Hnda.
  pose proof (valid_NoDup _cmp b Hswo Hvb) as Hndb.
  assert (∀ x y, reachable _cmp x → reachable _cmp y →
                 valid _cmp (plus _cmp x y) ∧ valid _cmp (intersect _cmp x y) ∧
                 valid _cmp (minus _cmp x y)) as Hval.
  { intros x y Hx Hy. split_and!; apply reachable_valid; try done.
    - by apply reachable_plus.
    - by apply reachable_intersect.
    - by apply reachable_minus. }
  assert (∀ x y v, reachable _cmp x → reachable _cmp y →
            contains _cmp v (plus _cmp x y) =
              (contains _cmp v x || contains _cmp v y)) as Hplus.
  { intros x y v Hx Hy. apply contains_plus; by apply reachable_valid. }
  assert (∀ x y v, reachable _cmp x → reachable _cmp y →
            contains _cmp v (intersect _cmp x y) =
              (contains _cmp v x && contains _cmp v y)) as Hinter.
  { intros x y v Hx Hy. apply contains_intersect.
    - by apply reachable_valid.
    - by apply reachable_valid.
    - apply (valid_NoDup _cmp); [done|]. by apply reachable_valid. }
  assert (∀ x y v, reachable _cmp x → reachable _cmp y →
            contains _cmp v (minus _cmp x y) =
              (contains _cmp v x && negb (contains _cmp v y))) as Hminus.
  { intros x y v Hx Hy. apply contains_minus; by apply reachable_valid. }
  assert (reachable _cmp (plus _cmp a b)) as Hrab by by apply reachable_plus.
  assert (reachable _cmp (plus _cmp b c)) as Hrbc by by apply reachable_plus.
  split_and!; apply valid_set_eq_members; try done;
    try (by apply Hval); intros v.
  - rewrite !Hplus by done. apply orb_comm.
  - rewrite !Hinter by done. apply andb_comm.
  - rewrite !Hplus by done. by rewrite orb_assoc.
  - rewrite !Hminus, !Hplus by done.
    by destruct (contains _cmp v a), (contains _cmp v b).
Qed.

(** X10 (equal sets print alike).  Two sets that are equal under [==] give
    the same text. *)
Theorem render_equal_sets (put : T → string) (a b : TreeSet) :
  set_eq a b = true → render put a = render put b.
Proof.
  rewrite set_eq_inorder, bool_decide_eq_true. intros Heq.
  by rewrite !render_join, Heq.
Qed.

(** X11 (merge).  [merge] puts the values of [small] before those of [big]
    and loses none; when every value of [small] is below every value of
    [big] the result is a search tree again. *)
Theorem merge_concatenates (small big : sp_node) :
  inorder (merge small big) = inorder small ++ inorder big ∧
  count (merge small big) = (count small + count big)%nat ∧
  (search_tree _cmp small → search_tree _cmp big →
   (∀ x y, x ∈ inorder small → y ∈ inorder big → _cmp x y = true) →
   search_tree _cmp (merge small big)).
Proof.
  split_and!.
  - apply inorder_merge.
  - apply count_merge.
  - apply search_tree_merge.
Qed.
End Algebra.

Section TestHelpers.
Context {T : Type} {T_eq : EqDecision T}.
Variable _cmp : T → T → bool.

Abbreviation TreeSet := (@TreeSet T).

Lemma add_values_fresh (values : list T) (s : TreeSet) :
  valid _cmp s → NoDup values →
  (∀ x, x ∈ values → x ∉ inorder (_root s)) →
  Forall (λ b, b = true) (fst (add_values _cmp values s)) ∧
  valid _cmp (snd (add_values _cmp values s)) ∧
  inorder (_root (snd (add_values _cmp values s))) ≡ₚ
    values ++ inorder (_root s).
Proof.
  revert s. induction values as [|n values IH]; intros s Hv Hnd Hfresh; simpl.
  { by split_and!. }
  apply NoDup_cons in Hnd as [Hn Hnd].
  destruct (add_absent _cmp n s Hv) as (s' & -> & Hv' & Hp & _).
  { apply Hfresh. by left. }
  destruct (IH s' Hv' Hnd) as (Hb & Hv'' & Hp').
  { intros x Hx. rewrite Hp, not_elem_of_cons. split; [by intros ->|].
    apply Hfresh. by right. }
  destruct (add_values _cmp values s') as [bs s'']. simpl in *.
  split_and!; [by constructor|done|].
  rewrite Hp', Hp. by rewrite Permutation_middle.
Qed.

Lemma del_values_present (values : list T) (s : TreeSet) :
  StrictWeakOrder _cmp → valid _cmp s → NoDup values →
  (∀ x, x ∈ values → x ∈ inorder (_root s)) →
  Forall (λ b, b = true) (fst (del_values _cmp values s)) ∧
  valid _cmp (snd (del_values _cmp values s)) ∧
  inorder (_root s) ≡ₚ
    values ++ inorder (_root (snd (del_values _cmp values s))).
Proof.
  intros Hswo. revert s.
  induction values as [|n values IH]; intros s Hv Hnd Hin; simpl.
  { by split_and!. }
  apply NoDup_cons in Hnd as [Hn Hnd].
  destruct (del_present _cmp n s Hswo Hv) as (s' & -> & Hv' & Hp & _ & Hn').
  { apply Hin. by left. }
  destruct (IH s' Hv' Hnd) as (Hb & Hv'' & Hp').
  { intros x Hx. assert (x ∈ inorder (_root s)) as Hxs by (apply Hin; by right).
    rewrite Hp in Hxs. apply elem_of_cons in Hxs as [->|?]; done. }
  destruct (del_values _cmp values s') as [bs s'']. simpl in *.
  split_and!; [by constructor|done|].
  rewrite Hp, Hp'. done.
Qed.

(** X15 (add all, delete all).  When different values are added in one order
    and then deleted in any other order, every [add] and every [del]
    succeeds; in between, the set has as many elements as were added and
    contains each of them; at the end it is the empty set again. *)
Theorem add_all_del_all (add_order del_order : list T) :
  StrictWeakOrder _cmp → NoDup add_order → del_order ≡ₚ add_order →
  let '(added, s1) := add_values _cmp add_order TreeSet_empty in
  let '(deleted, s2) := del_values _cmp del_order s1 in
  Forall (λ b, b = true) added ∧
  size s1 = Z.of_nat (length add_order) ∧
  (∀ v, contains _cmp v s1 = bool_decide (v ∈ add_order)) ∧
  Forall (λ b, b = true) deleted ∧
  s2 = TreeSet_empty.
Proof.
  intros Hswo Hnd Hperm.
  destruct (add_values_fresh add_order TreeSet_empty (valid_empty _cmp) Hnd)
    as (Ha & Hv1 & Hp1).
  { intros x _. apply not_elem_of_nil. }
  destruct (add_values _cmp add_order TreeSet_empty) as [added s1].
  simpl in *. rewrite app_nil_r in Hp1.
  destruct (del_values_present del_order s1 Hswo Hv1) as (Hd & Hv2 & Hp2).
  { by rewrite Hperm. }
  { intros x. by rewrite Hp1, Hperm. }
  destruct (del_values _cmp del_order s1) as [deleted s2]. simpl in *.
  split_and!; [done| | |done|].
  - rewrite (valid_size _cmp) by done. by rewrite Hp1.
  - intros v. apply eq_true_iff_eq.
    by rewrite bool_decide_eq_true, contains_elem, Hp1.
  - assert (inorder (_root s2) = []) as Hnil.
    { apply Permutation_nil_r. rewrite Hp1, <- Hperm in Hp2.
      rewrite <- (app_nil_r del_order) in Hp2 at 1.
      by apply Permutation_app_inv_l in Hp2. }
    destruct Hv2 as [_ Hsz]. destruct s2 as [r sz]. simpl in *.
    destruct r as [|l x r']; simpl in *.
    + by subst.
    + by destruct (inorder l).
Qed.

Lemma all_true_replicate (bs : list bool) :
  Forall (λ b, b = true) bs → bs = replicate (length bs) true.
Proof. induction 1 as [|b bs -> _ IH]; simpl; [done|]. by rewrite <- IH. Qed.

Lemma length_add_values (values : list T) (s : TreeSet) :
  length (fst (add_values _cmp values s)) = length values.
Proof.
  revert s. induction values as [|n values IH]; intros s; simpl; [done|].
  destruct (add _cmp n s) as [b s']. specialize (IH s').
  destruct (add_values _cmp values s'). simpl in *. by rewrite IH.
Qed.

Lemma length_del_values (values : list T) (s : TreeSet) :
  length (fst (del_values _cmp values s)) = length values.
Proof.
  revert s. induction values as [|n values IH]; intros s; simpl; [done|].
  destruct (del _cmp n s) as [b s']. specialize (IH s').
  destruct (del_values _cmp values s'). simpl in *. by rewrite IH.
Qed.

(** X16 (the checks of the ordering test).  On a new set, with different
    values and with the deletions and the expected values being the added
    ones in some order, [check_add_del_ordering] gives [CHECK] a true value
    everywhere except in the loop after the additions: there it passes
    [!s.contains(value)], which is false for every expected value, as all
    of them are present. *)
Theorem check_add_del_ordering_checks
    (add_order del_order expected_values : list T) :
  StrictWeakOrder _cmp → NoDup add_order →
  del_order ≡ₚ add_order → expected_values ≡ₚ add_order →
  check_add_del_ordering _cmp TreeSet_empty add_order del_order
    expected_values =
  (replicate (length add_order) true ++ [true] ++
   replicate (length expected_values) false ++
   replicate (length del_order) true ++ [true] ++
   replicate (length expected_values) true, TreeSet_empty).
Proof.
  intros Hswo Hnd Hperm Hexp. unfold check_add_del_ordering.
  destruct (add_values_fresh add_order TreeSet_empty (valid_empty _cmp) Hnd)
    as (Ha & Hv1 & Hp1).
  { intros x _. apply not_elem_of_nil. }
  pose proof (length_add_values add_order TreeSet_empty) as Hla.
  destruct (add_values _cmp add_order TreeSet_empty) as [added s1].
  simpl in Ha, Hv1, Hp1, Hla. rewrite app_nil_r in Hp1.
  destruct (del_values_present del_order s1 Hswo Hv1) as (Hd & Hv2 & Hp2).
  { by rewrite Hperm. }
  { intros x. by rewrite Hp1, Hperm. }
  pose proof (length_del_values del_order s1) as Hld.
  destruct (del_values _cmp del_order s1) as [deleted s2].
  simpl in Hd, Hv2, Hp2, Hld.
  assert (s2 = TreeSet_empty) as ->.
  { assert (inorder (_root s2) = []) as Hnil.
    { apply Permutation_nil_r. rewrite Hp1, <- Hperm in Hp2.
      rewrite <- (app_nil_r del_order) in Hp2 at 1.
      by apply Permutation_app_inv_l in Hp2. }
    destruct Hv2 as [_ Hsz]. destruct s2 as [r sz]. simpl in *.
    destruct r as [|l x r']; simpl in *.
    - by subst.
    - by destruct (inorder l). }
  f_equal. f_equal; [by rewrite (all_true_replicate added Ha), Hla|].
  f_equal.
  { f_equal. apply bool_decide_eq_true_2.
    rewrite (valid_size _cmp) by done. by rewrite Hp1. }
  f_equal.
  { assert (Forall (λ v, v ∈ add_order) expected_values) as Hall.
    { apply Forall_forall. intros v Hv. by rewrite <- Hexp. }
    clear Hexp. induction Hall as [|v vs Hv _ IH]; simpl; [done|].
    rewrite IH. f_equal. apply negb_false_iff.
    by rewrite contains_elem, Hp1. }
  f_equal; [by rewrite (all_true_replicate deleted Hd), Hld|].
  f_equal. clear. induction expected_values as [|v vs IH]; [done|].
  simpl in *. by rewrite IH.
Qed.
End TestHelpers.

Section SanityMore.
Context {T : Type} {T_eq : EqDecision T}.
Variable _cmp : T → T → bool.

Abbreviation sp_node := (@sp_node T).
Abbreviation TreeSet := (@TreeSet T).

Lemma chain_inv lo (l : list T) hi :
  StrictWeakOrder _cmp → chain _cmp lo l hi = true →
  _cmp lo hi = true ∧
  StronglySorted (λ a b, _cmp a b = true) l ∧
  Forall (λ x, _cmp lo x = true ∧ _cmp x hi = true) l.
Proof.
  intros Hswo. revert lo. induction l as [|x l IH]; intros lo; simpl.
  { intros ->. split_and!; constructor. }
  intros [Hlo Hc]%andb_true_iff.
  destruct (IH x Hc) as (Hhi & Hs & Hb).
  split_and!.
  - by eapply swo_trans.
  - constructor; [done|]. eapply Forall_impl; [done|]. by intros y [? _].
  - constructor; [done|]. eapply Forall_impl; [done|].
    intros y [Hxy Hy]; simpl. split; [|done]. by eapply swo_trans.
Qed.

Lemma sorted_strict_search_tree (n : sp_node) :
  StrictWeakOrder _cmp →
  StronglySorted (λ a b, _cmp a b = true) (inorder n) →
  search_tree _cmp n.
Proof.
  intros Hswo. induction n as [|l IHl v r IHr]; simpl; [done|].
  intros Hs. apply StronglySorted_app in Hs as (Hx & Hl & Hvr).
  apply StronglySorted_inv in Hvr as [Hr Hv].
  split_and!; [| |by apply IHl|by apply IHr].
  - apply Forall_forall. intros x Hxl. apply Hx; [done|]. by left.
  - eapply Forall_impl; [done|]. intros x Hvx; simpl. split.
    + by apply swo_asym.
    + intros ->. by rewrite (swo_irrefl _ Hswo) in Hvx.
Qed.

(** X12 (what the check accepts).  A tree passes
    [sanity_check(n, minval, maxval)] only if it is a search tree whose
    values all lie strictly between [minval] and [maxval]; under a total
    comparator every such tree passes. *)
Theorem sanity_check_range_exact (n : sp_node) (minval maxval : T) :
  StrictWeakOrder _cmp →
  (fst (sanity_check_range _cmp n minval maxval) = true →
   search_tree _cmp n ∧ _cmp minval maxval = true ∧
   Forall (λ x, _cmp minval x = true ∧ _cmp x maxval = true) (inorder n)) ∧
  (TotalOrder _cmp → search_tree _cmp n → _cmp minval maxval = true →
   Forall (λ x, _cmp minval x = true ∧ _cmp x maxval = true) (inorder n) →
   fst (sanity_check_range _cmp n minval maxval) = true).
Proof.
  intros Hswo. rewrite sanity_check_range_chain. split.
  - intros (Hlohi & Hs & Hb)%chain_inv; [|done].
    split_and!; [|done..]. by apply sorted_strict_search_tree.
  - intros Htot Hst Hlohi Hb. apply chain_sorted; [done| |done].
    apply sorted_before_strict; [done|]. by apply search_tree_sorted.
Qed.

(** X13 (the check on a set).  On a set built by the operations, under a
    total comparator, [sanity_check(_root)] on a type with two different
    limits holds exactly when every value lies strictly between the two
    limits, taken in the comparator's order; a type without limits always
    passes. *)
Theorem sanity_check_accepts {limits : numeric_limits T} (s : TreeSet) :
  StrictWeakOrder _cmp → TotalOrder _cmp → reachable _cmp s →
  (is_specialized = true → nl_min ≠ nl_max) →
  let '(lo, hi) :=
    if _cmp nl_min nl_max then (nl_min, nl_max) else (nl_max, nl_min) in
  sanity_check _cmp (_root s) = true ↔
  (is_specialized = true →
   Forall (λ x, _cmp lo x = true ∧ _cmp x hi = true) (traversal s)).
Proof.
  intros Hswo Htot Hr Hne.
  pose proof (reachable_valid _cmp s Hswo Hr) as [Hst _].
  rewrite traversal_inorder. unfold sanity_check.
  assert (∀ lo hi, _cmp lo hi = true →
            fst (sanity_check_range _cmp (_root s) lo hi) = true ↔
            Forall (λ x, _cmp lo x = true ∧ _cmp x hi = true)
                   (inorder (_root s))) as Hiff.
  { intros lo hi Hlohi. rewrite sanity_check_range_chain. split.
    - by intros (_ & _ & Hb)%chain_inv.
    - intros Hb. apply chain_sorted; [done| |done].
      apply sorted_before_strict; [done|]. by apply search_tree_sorted. }
  revert Hne. destruct is_specialized; intros Hne.
  2: { by destruct (_cmp nl_min nl_max). }
  specialize (Hne eq_refl). destruct (_cmp nl_min nl_max) eqn:Hmm.
  - rewrite Hiff by done. tauto.
  - assert (_cmp nl_max nl_min = true) as Hmm'.
    { destruct (_cmp nl_max nl_min) eqn:E; [done|]. destruct Hne.
      by apply Htot. }
    rewrite Hiff by done. tauto.
Qed.
End SanityMore.

Section Counting.
Context {T : Type} {T_eq : EqDecision T}.
Variable _cmp : T → T → bool.

Abbreviation sp_node := (@sp_node T).
Abbreviation TreeSet := (@TreeSet T).

Lemma count_add_loop v (n : sp_node) :
  count (snd (add_loop _cmp v n)) =
  (count n + if fst (add_loop _cmp v n) then 1 else 0)%nat.
Proof.
  induction n as [|l IHl w r IHr]; [done|].
  rewrite add_loop_node. case_bool_decide; [simpl; lia|].
  destruct (_cmp v w).
  - destruct (is_null l) eqn:Hl.
    + destruct l; [|done]. simpl. lia.
    + destruct (add_loop _cmp v l) as [b l']. simpl in *. lia.
  - destruct (is_null r) eqn:Hr.
    + destruct r; [|done]. simpl. lia.
    + destruct (add_loop _cmp v r) as [b r']. simpl in *. lia.
Qed.

Lemma count_del_loop v (n : sp_node) :
  count n =
  (count (snd (del_loop _cmp v n)) + if fst (del_loop _cmp v n) then 1 else 0)%nat.
Proof.
  induction n as [|l IHl w r IHr]; [done|].
  rewrite del_loop_node. case_bool_decide.
  - cbn [fst snd]. rewrite count_merge. simpl. lia.
  - destruct (_cmp v w).
    + destruct (del_loop _cmp v l) as [b l']. simpl in *. lia.
    + destruct (del_loop _cmp v r) as [b r']. simpl in *. lia.
Qed.

Lemma add_counted v (s : TreeSet) : counted s → counted (snd (add _cmp v s)).
Proof.
  unfold counted, add, size. intros Hc. destruct (_size s =? 0) eqn:Hz; [done|].
  pose proof (count_add_loop v (_root s)) as Hn.
  destruct (add_loop _cmp v (_root s)) as [[] r]; simpl in *; lia.
Qed.

Lemma del_counted v (s : TreeSet) : counted s → counted (snd (del _cmp v s)).
Proof.
  unfold counted, del, size. intros Hc. destruct (_size s =? 0) eqn:Hz; [done|].
  pose proof (count_del_loop v (_root s)) as Hn.
  destruct (del_loop _cmp v (_root s)) as [[] r]; simpl in *; lia.
Qed.

Lemma run_counted (ops : list (@op T)) (s : TreeSet) :
  counted s → counted (run _cmp ops s).
Proof.
  revert s. induction ops as [|o ops IH]; intros s Hc; [done|].
  simpl. apply IH. destruct o; [by apply add_counted|by apply del_counted].
Qed.

(** X14 (size, for any comparator).  Whatever the comparator, after any
    sequence of [add] and [del] on a new set [size()] is the number of
    values that a traversal yields. *)
Theorem size_counts_any_comparator (ops : list (@op T)) :
  size (run _cmp ops TreeSet_empty) =
  Z.of_nat (length (traversal (run _cmp ops TreeSet_empty))).
Proof.
  rewrite traversal_inorder, length_inorder.
  apply (run_counted ops TreeSet_empty). done.
Qed.
End Counting.

Section Copies.
Context {T : Type} {T_eq : EqDecision T}.
Variable _cmp : T → T → bool.
Variable uninit : T.

Abbreviation placed := (@placed T).
Abbreviation heap := (list (@Store.node T)).

Local Arguments Store.depth_bound : simpl never.

Lemma stored_app (h k : heap) (t : placed) : stored h t → stored (h ++ k) t.
Proof.
  intros Hs. apply (stored_frame h); [done|].
  intros x Hx. apply lookup_app_l. by eapply stored_lt.
Qed.

(** The node copy constructor builds a tree of new nodes with the values
    and the shape of the one it is given. *)
Lemma copy_node_refines fuel (h : heap) (t : placed) a :
  stored h t → ptr t = Some a → (count (erase t) ≤ fuel)%nat →
  ∃ t' k,
    Store.copy_node uninit fuel (Some a) h = Some (addr_of t', h ++ k) ∧
    ptr t' = Some (addr_of t') ∧ erase t' = erase t ∧
    owns (h ++ k) t' ∧
    (∀ x, x ∈ addrs t' → (length h ≤ x)%nat).
Proof.
  revert h t a. induction fuel as [|fuel IH]; intros h t a Hs Hp Hc.
  { destruct t; [done|]. simpl in Hc. lia. }
  destruct t as [|a' l v r]; [done|]. simpl in Hp. simplify_eq.
  destruct Hs as (Ha & Hl & Hr). simpl in Hc.
  assert (∀ (c : placed) (h : heap), stored h c →
            (count (erase c) ≤ fuel)%nat →
            ∃ c' k,
              match ptr c with
              | None => Some (None, h)
              | Some _ =>
                  '(l, h) ← Store.copy_node uninit fuel (ptr c) h;
                  Some (Some l, h)
              end = Some (ptr c', h ++ k) ∧
              erase c' = erase c ∧ owns (h ++ k) c' ∧
              (∀ x, x ∈ addrs c' → (length h ≤ x)%nat)) as Hchild.
  { intros c h0 Hs0 Hc0. destruct (ptr c) as [b|] eqn:Hpc.
    - destruct (IH h0 c b Hs0 Hpc Hc0) as (c' & k & -> & Hp' & He & Ho & Hn).
      exists c', k. simpl. by rewrite Hp'.
    - destruct c; [|done]. exists p_null, []. rewrite app_nil_r.
      split_and!; [done|done| |by intros x ?%elem_of_nil].
      split; [done|constructor]. }
  destruct (Hchild l h Hl) as (l' & k1 & Hcl & Hel & Hol & Hnl); [lia|].
  destruct (Hchild r (h ++ k1)) as (r' & k2 & Hcr & Her & Hor & Hnr);
    [by apply stored_app|lia|].
  cbn [Store.copy_node]. rewrite Ha.
  cbn [mbind option_bind Store.left Store.right Store.value].
  unfold Store.sp_node in *.
  rewrite Hcl. cbn [mbind option_bind]. rewrite Hcr. cbn [mbind option_bind].
  exists (p_node (length ((h ++ k1) ++ k2)) l' v r'), (k1 ++ k2 ++ [Store.mk_node v (ptr l') (ptr r')]).
  assert (((h ++ k1) ++ k2) ++ [Store.mk_node v (ptr l') (ptr r')] =
          h ++ k1 ++ k2 ++ [Store.mk_node v (ptr l') (ptr r')]) as Happ
    by by rewrite <- !app_assoc.
  unfold Store.make_shared. rewrite Happ.
  split_and!.
  - done.
  - done.
  - simpl. by rewrite Hel, Her.
  - rewrite <- Happ. apply (owns_node _cmp). split_and!.
    + by rewrite lookup_app_r, Nat.sub_diag.
    + split; [|apply Hol]. rewrite <- app_assoc. apply stored_app, Hol.
    + split; [|apply Hor]. apply stored_app, Hor.
    + intros Hx. apply (stored_lt (h ++ k1)) in Hx; [|apply Hol].
      rewrite length_app in *. lia.
    + intros Hx. apply (stored_lt ((h ++ k1) ++ k2)) in Hx; [|apply Hor]. lia.
    + intros x Hx Hx'. apply (stored_lt (h ++ k1)) in Hx; [|apply Hol].
      apply Hnr in Hx'. lia.
  - intros x. simpl. rewrite elem_of_cons, elem_of_app.
    intros [->|[Hx|Hx]].
    + rewrite !length_app. lia.
    + by apply Hnl.
    + apply Hnr in Hx. rewrite length_app in Hx. lia.
Qed.
(** [add] and [del] on a tree of the store stay within the nodes of that
    tree and the ones they allocate. *)
Lemma add_refines_sep v (h : heap) (t : placed) sz :
  owns h t →
  let s := {| _root := erase t; _size := sz |} in
  ∃ h' t',
    Store.add _cmp v h {| Store._root := ptr t; Store._size := sz |} =
      Some (fst (add _cmp v s), h',
            {| Store._root := ptr t'; Store._size := _size (snd (add _cmp v s)) |}) ∧
    erase t' = _root (snd (add _cmp v s)) ∧
    owns h' t' ∧
    (length h ≤ length h')%nat ∧
    (∀ x, x ∈ addrs t' → x ∈ addrs t ∨ (length h ≤ x)%nat) ∧
    (∀ x, (x < length h)%nat → x ∉ addrs t → h' !! x = h !! x).
Proof.
  intros Ho s. unfold Store.add, add, Store.size, size, s.
  cbn [Store._root Store._size _root _size].
  destruct (sz =? 0).
  - simpl. eexists _, (p_node (length h) p_null v p_null).
    split_and!; [done|done| | | |].
    + split; [|apply NoDup_singleton]. simpl.
      by rewrite lookup_app_r, Nat.sub_diag.
    + rewrite length_app. lia.
    + intros x [->|[]%elem_of_nil]%elem_of_cons. by right.
    + intros x Hx _. by apply lookup_app_l.
  - destruct (ptr t) as [a|] eqn:Hp.
    + destruct (add_loop_refines _cmp (Store.depth_bound h) v h t a)
        as (h' & t' & -> & He & Ho' & Hp' & Hlen & Hsub & Hfr); [done|done| |].
      { unfold Store.depth_bound. apply owns_count in Ho. lia. }
      simpl. destruct (add_loop _cmp v (erase t)) as [b n'] eqn:Hadd.
      exists h', t'. rewrite Hp'. simpl in *. done.
    + destruct t; [|done]. simpl. exists h, p_null. split_and!; try done.
      by intros x ?%elem_of_nil.
Qed.

Lemma del_refines_sep v (h : heap) (t : placed) sz :
  owns h t →
  let s := {| _root := erase t; _size := sz |} in
  ∃ h' t',
    Store.del _cmp v h {| Store._root := ptr t; Store._size := sz |} =
      Some (fst (del _cmp v s), h',
            {| Store._root := ptr t'; Store._size := _size (snd (del _cmp v s)) |}) ∧
    erase t' = _root (snd (del _cmp v s)) ∧
    owns h' t' ∧
    length h' = length h ∧
    (∀ x, x ∈ addrs t' → x ∈ addrs t) ∧
    (∀ x, x ∉ addrs t → h' !! x = h !! x).
Proof.
  intros Ho s. unfold Store.del, del, Store.size, size, s.
  cbn [Store._root Store._size _root _size].
  destruct (sz =? 0); [by exists h, t|].
  pose proof (owns_count h t Ho) as Hc.
  assert (∃ h' t',
    Store.del_loop _cmp (Store.depth_bound h) v (ptr t) None (ptr t) h =
      Some (fst (del_loop _cmp v (erase t)), ptr t', h') ∧
    erase t' = snd (del_loop _cmp v (erase t)) ∧ owns h' t' ∧
    length h' = length h ∧
    (∀ x, x ∈ addrs t' → x ∈ addrs t) ∧
    (∀ x, x ∉ addrs t → h' !! x = h !! x))
    as (h' & t' & -> & He & Ho' & Hlen' & Hsub' & Hfr).
  { unfold Store.depth_bound. destruct t as [|a l w r].
    { by exists h, p_null. }
    pose proof Ho as Hot.
    apply (owns_node _cmp) in Ho as (Ha & Hl & Hr & Hal & Har & Hlr).
    simpl in Hc. cbn [erase]. rewrite del_loop_node.
    cbn [ptr Store.del_loop]. rewrite Ha. simpl.
    case_bool_decide as Hvw.
    - destruct (merge_refines _cmp h l r Hl Hr Hlr) as (h1 & -> & Hom & Hlen & Hfr).
      simpl. exists h1, (pmerge l r). split_and!; [done| |done|done| |].
      + apply erase_pmerge.
      + intros x Hx. apply (elem_of_addrs_pmerge _cmp) in Hx. simpl.
        rewrite elem_of_cons, elem_of_app. auto.
      + intros x Hx. apply Hfr. intros Hx'. apply Hx. simpl.
        rewrite elem_of_cons, elem_of_app. auto.
    - destruct (_cmp v w).
      + destruct (del_loop_refines_child _cmp (length h) v h l a _ true (Some a)
                    Hl Ha Hal eq_refl)
          as (h' & l' & -> & He & Ho' & Hsub & Hlen & Ha' & Hfr); [lia|].
        cbn [fst snd]. exists h', (p_node a l' w r).
        split_and!; [done| | |done| |].
        * simpl. by rewrite He.
        * apply (owns_node _cmp). split_and!; [done|done| |auto|done|].
          -- split; [|apply Hr]. apply (stored_frame h); [apply Hr|].
             intros x Hx. apply Hfr; [|by intros ->]. intros Hx'. by eapply Hlr.
          -- intros x Hx%Hsub. by apply Hlr.
        * intros x. simpl. rewrite !elem_of_cons, !elem_of_app.
          intros [?|[?%Hsub|?]]; auto.
        * intros x Hx. simpl in Hx.
          rewrite not_elem_of_cons, not_elem_of_app in Hx.
          destruct Hx as (? & ? & ?). by apply Hfr.
      + assert (child_slot false (Store.mk_node w (ptr l) (ptr r)) r) as Hsr.
        { split; [done|]. simpl. intros Hn Heq. destruct r as [|ar ? ? ?]; [done|].
          destruct l as [|al ? ? ?]; [done|]. simpl in Heq. simplify_eq.
          apply (Hlr ar); simpl; by left. }
        destruct (del_loop_refines_child _cmp (length h) v h r a _ false (Some a)
                    Hr Ha Har Hsr)
          as (h' & r' & -> & He & Ho' & Hsub & Hlen & Ha' & Hfr); [lia|].
        cbn [fst snd]. exists h', (p_node a l w r').
        split_and!; [done| | |done| |].
        * simpl. by rewrite He.
        * apply (owns_node _cmp). split_and!; [done| |done|done|auto|].
          -- split; [|apply Hl]. apply (stored_frame h); [apply Hl|].
             intros x Hx. apply Hfr; [|by intros ->]. by apply Hlr.
          -- intros x Hx Hx'%Hsub. by eapply Hlr.
        * intros x. simpl. rewrite !elem_of_cons, !elem_of_app.
          intros [?|[?|?%Hsub]]; auto.
        * intros x Hx. simpl in Hx.
          rewrite not_elem_of_cons, not_elem_of_app in Hx.
          destruct Hx as (? & ? & ?). by apply Hfr. }
  simpl. destruct (del_loop _cmp v (erase t)) as [b n'] eqn:Hdel.
  exists h', t'. simpl in *. done.
Qed.

(** A sequence of operations on one set leaves every node outside the tree
    of that set as it was. *)
Lemma run_refines_sep (ops : list op) (h : heap) (t : placed) sz :
  owns h t →
  let s := run _cmp ops {| _root := erase t; _size := sz |} in
  ∃ h' t',
    Store.run _cmp ops h {| Store._root := ptr t; Store._size := sz |} =
      Some (h', {| Store._root := ptr t'; Store._size := _size s |}) ∧
    erase t' = _root s ∧ owns h' t' ∧
    (length h ≤ length h')%nat ∧
    (∀ x, x ∈ addrs t' → x ∈ addrs t ∨ (length h ≤ x)%nat) ∧
    (∀ x, (x < length h)%nat → x ∉ addrs t → h' !! x = h !! x).
Proof.
  revert h t sz. induction ops as [|o ops IH]; intros h t sz Ho; simpl.
  { exists h, t. split_and!; auto. }
  assert (∃ h1 t1,
    Store.apply_op _cmp o h {| Store._root := ptr t; Store._size := sz |} =
      Some (h1, {| Store._root := ptr t1;
                   Store._size := _size (apply_op _cmp {| _root := erase t; _size := sz |} o) |}) ∧
    erase t1 = _root (apply_op _cmp {| _root := erase t; _size := sz |} o) ∧
    owns h1 t1 ∧ (length h ≤ length h1)%nat ∧
    (∀ x, x ∈ addrs t1 → x ∈ addrs t ∨ (length h ≤ x)%nat) ∧
    (∀ x, (x < length h)%nat → x ∉ addrs t → h1 !! x = h !! x))
    as (h1 & t1 & -> & He1 & Ho1 & Hlen1 & Hsub1 & Hfr1).
  { destruct o as [v|v]; simpl.
    - destruct (add_refines_sep v h t sz Ho)
        as (h1 & t1 & -> & He & Ho1 & Hlen & Hsub & Hfr).
      exists h1, t1. by split_and!.
    - destruct (del_refines_sep v h t sz Ho)
        as (h1 & t1 & -> & He & Ho1 & Hlen & Hsub & Hfr).
      exists h1, t1. split_and!; [done|done|done|lia|auto|auto]. }
  simpl.
  destruct (IH h1 t1 (_size (apply_op _cmp {| _root := erase t; _size := sz |} o)) Ho1)
    as (h' & t' & Hrun & He' & Ho' & Hlen' & Hsub' & Hfr').
  rewrite He1 in Hrun, He'.
  destruct (apply_op _cmp {| _root := erase t; _size := sz |} o) as [r1 sz1].
  simpl in *. exists h', t'. split_and!; [done|done|done|lia| |].
  - intros x [[?|?]%Hsub1|?]%Hsub'; auto; right; lia.
  - intros x Hx Hxt. rewrite Hfr' by first [lia|
      intros [?|?]%Hsub1; [done|lia]]. by apply Hfr1.
Qed.
(** Two sets whose trees share no node: operations on the first leave the
    second as it was. *)
Lemma run_beside (ops : list op) (h : heap) (t u : placed) sz szu :
  owns h t → owns h u → (∀ x, x ∈ addrs t → x ∉ addrs u) →
  ∃ h' s',
    Store.run _cmp ops h {| Store._root := ptr t; Store._size := sz |} =
      Some (h', s') ∧
    Store.traversal h' s' =
      Some (traversal (run _cmp ops {| _root := erase t; _size := sz |})) ∧
    Store.traversal h' {| Store._root := ptr u; Store._size := szu |} =
      Some (traversal {| _root := erase u; _size := szu |}).
Proof.
  intros Ht Hu Hdis.
  destruct (run_refines_sep ops h t sz Ht)
    as (h' & t' & Hrun & He & Ho & Hlen & Hsub & Hfr).
  eexists _, _. split; [exact Hrun|]. split.
  - rewrite traversal_refines by done. rewrite He.
    by destruct (run _cmp ops _).
  - apply traversal_refines. split; [|apply Hu].
    apply (stored_frame h); [apply Hu|].
    intros x Hx. apply Hfr.
    + eapply stored_lt; [apply Hu|done].
    + intros Hx'. by apply (Hdis x).
Qed.

Local Arguments Store.copy_node : simpl never.

(** What both copy operations do with the tree of [other]. *)
Lemma copy_root_refines (h : heap) (t : placed) sz :
  owns h t → sz = Z.of_nat (count (erase t)) →
  ∃ t' k,
    (if 0 <? sz then
       Store.copy_node uninit (Store.depth_bound h) (ptr t) h =
         Some (addr_of t', h ++ k) ∧ ptr t' = Some (addr_of t')
     else t' = p_null ∧ k = []) ∧
    erase t' = erase t ∧ owns (h ++ k) t' ∧ owns (h ++ k) t ∧
    (∀ x, x ∈ addrs t → x ∉ addrs t').
Proof.
  intros Ho Hsz. pose proof (owns_count h t Ho) as Hc.
  assert (∀ (t' : placed) k, owns (h ++ k) t' →
            (∀ x, x ∈ addrs t' → (length h ≤ x)%nat) →
            owns (h ++ k) t ∧ (∀ x, x ∈ addrs t → x ∉ addrs t')) as Hrest.
  { intros t' k Ho' Hn. split.
    - split; [apply stored_app, Ho|apply Ho].
    - intros x Hx Hx'. apply Hn in Hx'.
      apply (stored_lt h) in Hx; [lia|apply Ho]. }
  destruct (0 <? sz) eqn:Hpos.
  - destruct (ptr t) as [a|] eqn:Hp.
    + destruct (copy_node_refines (Store.depth_bound h) h t a)
        as (t' & k & Hcopy & Hp' & He & Ho' & Hn); [apply Ho|done| |].
      { unfold Store.depth_bound. lia. }
      exists t', k. destruct (Hrest t' k Ho' Hn). by split_and!.
    + destruct t; [|done]. simpl in Hsz. apply Z.ltb_lt in Hpos. lia.
  - destruct t as [|a l v r].
    + exists p_null, []. rewrite app_nil_r.
      split_and!; [done..|]. by intros x ?%elem_of_nil.
    + simpl in Hsz. apply Z.ltb_ge in Hpos. lia.
Qed.

(** X17 (copy construction).  The copy constructor gives a set of its own:
    the copy of a set built by [add] and [del] has the size and the values
    of the original and is equal to it under [==], and after any further
    operations on either of the two the other one still holds the values it
    had. *)
Theorem copy_constructor_deep (ops0 ops : list op) :
  let a0 := run _cmp ops0 TreeSet_empty in
  ∃ h a h1 c,
    Store.run _cmp ops0 [] {| Store._root := None; Store._size := 0 |} =
      Some (h, a) ∧
    Store.TreeSet_copy uninit 0 {| Store.nodes := h; Store.sets := [a] |} =
      Some (1%nat, {| Store.nodes := h1; Store.sets := [a; c] |}) ∧
    Store.size c = size a0 ∧
    Store.traversal h1 c = Some (traversal a0) ∧
    Store.set_eq h1 a c = Some true ∧
    (∃ h2 c', Store.run _cmp ops h1 c = Some (h2, c') ∧
       Store.traversal h2 c' = Some (traversal (run _cmp ops a0)) ∧
       Store.traversal h2 a = Some (traversal a0)) ∧
    (∃ h2 a', Store.run _cmp ops h1 a = Some (h2, a') ∧
       Store.traversal h2 a' = Some (traversal (run _cmp ops a0)) ∧
       Store.traversal h2 c = Some (traversal a0)).
Proof.
  intros a0.
  destruct (run_refines_sep ops0 [] p_null 0) as (h & ta & Hrun & Hea & Hoa & _).
  { split; [done|constructor]. }
  change (run _cmp ops0 {| _root := erase p_null; _size := 0 |}) with a0 in *.
  assert (a0 = {| _root := erase ta; _size := _size a0 |}) as Ha0.
  { rewrite Hea. by destruct a0. }
  destruct (copy_root_refines h ta (_size a0) Hoa)
    as (tc & k & Hcopy & Hec & Hoc & Hoa' & Hdis).
  { rewrite Hea. apply (run_counted _cmp ops0 TreeSet_empty). done. }
  assert (a0 = {| _root := erase tc; _size := _size a0 |}) as Hc0
    by by rewrite Hec.
  exists h, {| Store._root := ptr ta; Store._size := _size a0 |}, (h ++ k),
    {| Store._root := ptr tc; Store._size := _size a0 |}.
  split_and!.
  - done.
  - unfold Store.TreeSet_copy. simpl. destruct (0 <? _size a0).
    + destruct Hcopy as [-> ->]. done.
    + destruct Hcopy as [-> ->]. by rewrite app_nil_r.
  - done.
  - rewrite traversal_refines by done. by rewrite <- Hc0.
  - rewrite (set_eq_refines (h ++ k) ta tc) by done.
    rewrite <- Ha0, <- Hc0. f_equal. rewrite set_eq_inorder.
    by apply bool_decide_eq_true.
  - destruct (run_beside ops (h ++ k) tc ta (_size a0) (_size a0) Hoc Hoa')
      as (h2 & c' & Hr & Htc & Hta).
    { intros x Hx Hx'. by apply (Hdis x). }
    exists h2, c'. by rewrite <- Hc0 in Htc; rewrite <- Ha0 in Hta.
  - destruct (run_beside ops (h ++ k) ta tc (_size a0) (_size a0) Hoa' Hoc Hdis)
      as (h2 & a' & Hr & Hta & Htc).
    exists h2, a'. by rewrite <- Ha0 in Hta; rewrite <- Hc0 in Htc.
Qed.

(** X18 (copy assignment).  Assigning a set built by [add] and [del] to
    another object, whatever that one held, gives it a tree of its own:
    the same size and values, equal under [==], and operations on either
    of the two leave the other as it was. *)
Theorem copy_assign_deep (ops0 ops : list op) (b : Store.TreeSet) :
  let a0 := run _cmp ops0 TreeSet_empty in
  ∃ h a h1 c,
    Store.run _cmp ops0 [] {| Store._root := None; Store._size := 0 |} =
      Some (h, a) ∧
    Store.copy_assign uninit 1 0 {| Store.nodes := h; Store.sets := [a; b] |} =
      Some {| Store.nodes := h1; Store.sets := [a; c] |} ∧
    Store.size c = size a0 ∧
    Store.traversal h1 c = Some (traversal a0) ∧
    Store.set_eq h1 a c = Some true ∧
    (∃ h2 c', Store.run _cmp ops h1 c = Some (h2, c') ∧
       Store.traversal h2 c' = Some (traversal (run _cmp ops a0)) ∧
       Store.traversal h2 a = Some (traversal a0)) ∧
    (∃ h2 a', Store.run _cmp ops h1 a = Some (h2, a') ∧
       Store.traversal h2 a' = Some (traversal (run _cmp ops a0)) ∧
       Store.traversal h2 c = Some (traversal a0)).
Proof.
  intros a0.
  destruct (run_refines_sep ops0 [] p_null 0) as (h & ta & Hrun & Hea & Hoa & _).
  { split; [done|constructor]. }
  change (run _cmp ops0 {| _root := erase p_null; _size := 0 |}) with a0 in *.
  assert (a0 = {| _root := erase ta; _size := _size a0 |}) as Ha0.
  { rewrite Hea. by destruct a0. }
  destruct (copy_root_refines h ta (_size a0) Hoa)
    as (tc & k & Hcopy & Hec & Hoc & Hoa' & Hdis).
  { rewrite Hea. apply (run_counted _cmp ops0 TreeSet_empty). done. }
  assert (a0 = {| _root := erase tc; _size := _size a0 |}) as Hc0
    by by rewrite Hec.
  exists h, {| Store._root := ptr ta; Store._size := _size a0 |}, (h ++ k),
    {| Store._root := ptr tc; Store._size := _size a0 |}.
  split_and!.
  - done.
  - unfold Store.copy_assign, Store.size. simpl. destruct (0 <? _size a0).
    + destruct Hcopy as [-> ->]. done.
    + destruct Hcopy as [-> ->]. by rewrite app_nil_r.
  - done.
  - rewrite traversal_refines by done. by rewrite <- Hc0.
  - rewrite (set_eq_refines (h ++ k) ta tc) by done.
    rewrite <- Ha0, <- Hc0. f_equal. rewrite set_eq_inorder.
    by apply bool_decide_eq_true.
  - destruct (run_beside ops (h ++ k) tc ta (_size a0) (_size a0) Hoc Hoa')
      as (h2 & c' & Hr & Htc & Hta).
    { intros x Hx Hx'. by apply (Hdis x). }
    exists h2, c'. by rewrite <- Hc0 in Htc; rewrite <- Ha0 in Hta.
  - destruct (run_beside ops (h ++ k) ta tc (_size a0) (_size a0) Hoa' Hoc Hdis)
      as (h2 & a' & Hr & Hta & Htc).
    exists h2, a'. by rewrite <- Ha0 in Hta; rewrite <- Hc0 in Htc.
Qed.
(** X19 (the program on the store).  Every sequence of [add] and [del] on a
    new set runs to its end on the store, and the set it leaves answers
    [size], a traversal, [contains], one more [add] and one more [del] as
    the tree of the first part does. *)
Theorem store_agrees_with_tree (ops : list op) (v : T) :
  let s := run _cmp ops TreeSet_empty in
  ∃ h' s',
    Store.run _cmp ops [] {| Store._root := None; Store._size := 0 |} =
      Some (h', s') ∧
    Store.size s' = size s ∧
    Store.traversal h' s' = Some (traversal s) ∧
    Store.contains _cmp v h' s' = Some (contains _cmp v s) ∧
    (∃ h2 s2,
       Store.add _cmp v h' s' = Some (fst (add _cmp v s), h2, s2) ∧
       Store.size s2 = size (snd (add _cmp v s)) ∧
       Store.traversal h2 s2 = Some (traversal (snd (add _cmp v s)))) ∧
    (∃ h2 s2,
       Store.del _cmp v h' s' = Some (fst (del _cmp v s), h2, s2) ∧
       Store.size s2 = size (snd (del _cmp v s)) ∧
       Store.traversal h2 s2 = Some (traversal (snd (del _cmp v s)))).
Proof.
  intros s.
  destruct (run_refines_sep ops [] p_null 0) as (h' & t' & Hrun & He & Ho & _).
  { split; [done|constructor]. }
  change (run _cmp ops {| _root := erase p_null; _size := 0 |}) with s in *.
  assert (s = {| _root := erase t'; _size := _size s |}) as Hs.
  { rewrite He. by destruct s. }
  eexists _, _. split; [exact Hrun|]. split_and!.
  - done.
  - rewrite traversal_refines by done. by rewrite <- Hs.
  - rewrite contains_refines by done. by rewrite <- Hs.
  - destruct (add_refines_sep v h' t' (_size s) Ho)
      as (h2 & t2 & Hadd & He2 & Ho2 & _).
    rewrite <- Hs in Hadd, He2. eexists _, _. split; [exact Hadd|].
    split; [done|]. rewrite traversal_refines by done. rewrite He2.
    by destruct (add _cmp v s) as [? []].
  - destruct (del_refines_sep v h' t' (_size s) Ho)
      as (h2 & t2 & Hdel & He2 & Ho2 & _).
    rewrite <- Hs in Hdel, He2. eexists _, _. split; [exact Hdel|].
    split; [done|]. rewrite traversal_refines by done. rewrite He2.
    by destruct (del _cmp v s) as [? []].
Qed.
End Copies.

Section IterationTest.
Context {T : Type} {T_eq : EqDecision T}.
Variable _cmp : T → T → bool.

Abbreviation TreeSet := (@TreeSet T).

Lemma check_iter_rest (it : @TreeSetIter T) (expected_order rest : list T) :
  iter_wf it → iter_rest it = expected_order ++ rest →
  check_iter it expected_order =
  Some (replicate (length expected_order) true).
Proof.
  revert it. induction expected_order as [|value l IH]; intros it Hwf Hr.
  { done. }
  simpl. rewrite deref_rest, Hr by done. simpl.
  rewrite (IH (incr it)).
  - simpl. by rewrite bool_decide_eq_true_2.
  - by apply incr_wf.
  - rewrite incr_rest, Hr by done. done.
Qed.

(** X20 (the checks of the iteration test).  Under a total comparator, when
    different values are added to a new set in any order and the expected
    order is these values sorted by the comparator, every [CHECK] of
    [check_iter_ordering] is given a true value: the walk with [it++]
    meets the values in sorted order and never reads past the end. *)
Theorem check_iter_ordering_passes (add_order expected_order : list T) :
  StrictWeakOrder _cmp → TotalOrder _cmp → NoDup add_order →
  expected_order ≡ₚ add_order →
  StronglySorted (λ a b, _cmp a b = true) expected_order →
  check_iter_ordering _cmp TreeSet_empty add_order expected_order =
  Some (replicate (length add_order) true ++ [true] ++
        replicate (length expected_order) true ++
        replicate (length expected_order) true).
Proof.
  intros Hswo Htot Hnd Hexp Hsorted. unfold check_iter_ordering.
  destruct (add_values_fresh _cmp add_order TreeSet_empty (valid_empty _cmp) Hnd)
    as (Ha & Hv1 & Hp1).
  { intros x _. apply not_elem_of_nil. }
  pose proof (length_add_values _cmp add_order TreeSet_empty) as Hla.
  destruct (add_values _cmp add_order TreeSet_empty) as [added s1].
  simpl in Ha, Hv1, Hp1, Hla. rewrite app_nil_r in Hp1.
  assert (inorder (_root s1) = expected_order) as Hin.
  { apply (StronglySorted_unique_strong (λ a b, _cmp a b = true)).
    - intros x y _ _ Hxy Hyx.
      rewrite (swo_asym _cmp x y Hswo Hxy) in Hyx. done.
    - apply sorted_before_strict; [done|].
      apply search_tree_sorted; [done|apply Hv1].
    - done.
    - by rewrite Hp1, Hexp. }
  rewrite (check_iter_rest (begin s1) expected_order []).
  - simpl. f_equal. f_equal; [by rewrite (all_true_replicate added Ha), Hla|].
    f_equal.
    { f_equal. apply bool_decide_eq_true_2.
      rewrite (valid_size _cmp) by done. by rewrite Hp1. }
    f_equal.
    assert (Forall (λ v, v ∈ add_order) expected_order) as Hall.
    { apply Forall_forall. intros v Hv. by rewrite <- Hexp. }
    clear -Hall Hv1 Hp1. induction Hall as [|v vs Hv _ IH]; simpl; [done|].
    rewrite IH. f_equal. by rewrite contains_elem, Hp1.
  - apply TreeSetIter_at_wf.
  - unfold begin. rewrite TreeSetIter_at_rest, app_nil_r. done.
Qed.
End IterationTest.

(** ** Instances of the further properties *)

(** The set built from 2, 1, 3, whose root holds 2: the iterator reads 1,
    2 and 3 in turn without being at the end, three steps from [begin()]
    reach the end, and a fourth one stays there. *)
Lemma iterator_advance_witness :
  let s := TreeSet_of_list less [2; 1; 3] in
  deref (advance 0 (begin s)) = Some 1 ∧
  deref (advance 1 (begin s)) = Some 2 ∧
  deref (advance 2 (begin s)) = Some 3 ∧
  at_end (advance 2 (begin s)) = false ∧
  deref (advance 3 (begin s)) = None ∧
  at_end (advance 3 (begin s)) = true ∧
  advance 4 (begin s) = advance 3 (begin s).
Proof.
  intros s. split_and!.
  - exact (proj1 (iterator_advance s 0)).
  - exact (proj1 (iterator_advance s 1)).
  - exact (proj1 (iterator_advance s 2)).
  - exact (proj1 (proj2 (iterator_advance s 2))).
  - exact (proj1 (iterator_advance s 3)).
  - exact (proj1 (proj2 (iterator_advance s 3))).
  - exact (proj2 (proj2 (iterator_advance s 3))
             (proj1 (proj2 (iterator_advance s 3)))).
Defined.

(** Adding 2 to the set of 1 and 3, and deleting it. *)
Lemma add_del_keep_order_witness :
  let s := TreeSet_of_list less [1; 3] in
  StrictWeakOrder less ∧ reachable less s ∧
  (2 ∉ traversal s →
   ∃ l1 l2, traversal s = l1 ++ l2 ∧
            traversal (snd (add less 2 s)) = l1 ++ 2 :: l2) ∧
  traversal (snd (del less 2 s)) = filter (λ x, x ≠ 2) (traversal s).
Proof.
  split; [exact less_swo|].
  split; [exact (TreeSet_of_list_reachable less [1; 3])|].
  exact (add_del_keep_order less 2 _ less_swo
           (TreeSet_of_list_reachable less [1; 3])).
Defined.

Lemma add_del_membership_witness :
  let s := TreeSet_of_list less [1; 3] in
  StrictWeakOrder less ∧ reachable less s ∧
  contains less 3 (snd (add less 2 s)) =
    (bool_decide (3 = 2) || contains less 3 s) ∧
  contains less 3 (snd (del less 2 s)) =
    (negb (bool_decide (3 = 2)) && contains less 3 s).
Proof.
  split; [exact less_swo|].
  split; [exact (TreeSet_of_list_reachable less [1; 3])|].
  exact (add_del_membership less 2 3 _ less_swo
           (TreeSet_of_list_reachable less [1; 3])).
Defined.

Lemma del_after_add_witness :
  let s := TreeSet_of_list less [1; 3] in
  StrictWeakOrder less ∧ reachable less s ∧ (2 ∉ traversal s) ∧
  add less 2 s = (true, snd (add less 2 s)) ∧
  del less 2 (snd (add less 2 s)) = (true, s).
Proof.
  assert (2 ∉ traversal (TreeSet_of_list less [1; 3])) as Hn
    by (apply (bool_decide_unpack _); vm_compute; exact I).
  split; [exact less_swo|].
  split; [exact (TreeSet_of_list_reachable less [1; 3])|].
  split; [exact Hn|].
  exact (del_after_add less 2 _ less_swo
           (TreeSet_of_list_reachable less [1; 3]) Hn).
Defined.

(** The initializer list 3, 1, 3, 2. *)
Lemma initializer_list_set_witness :
  StrictWeakOrder less ∧
  let s := TreeSet_of_list less [3; 1; 3; 2] in
  contains less 2 s = bool_decide (2 ∈ [3; 1; 3; 2]) ∧
  size s = Z.of_nat (length (remove_dups [3; 1; 3; 2])) ∧
  traversal s ≡ₚ remove_dups [3; 1; 3; 2].
Proof.
  split; [exact less_swo|].
  exact (initializer_list_set less [3; 1; 3; 2] 2 less_swo).
Defined.

Lemma set_algebra_membership_witness :
  let a := TreeSet_of_list less [1; 2; 3] in
  let b := TreeSet_of_list less [1; 2; 4] in
  StrictWeakOrder less ∧ reachable less a ∧ reachable less b ∧
  contains less 3 (plus less a b) = (contains less 3 a || contains less 3 b) ∧
  contains less 3 (intersect less a b) =
    (contains less 3 a && contains less 3 b) ∧
  contains less 3 (minus less a b) =
    (contains less 3 a && negb (contains less 3 b)).
Proof.
  split; [exact less_swo|].
  split; [exact (TreeSet_of_list_reachable less [1; 2; 3])|].
  split; [exact (TreeSet_of_list_reachable less [1; 2; 4])|].
  exact (set_algebra_membership less _ _ 3 less_swo
           (TreeSet_of_list_reachable less [1; 2; 3])
           (TreeSet_of_list_reachable less [1; 2; 4])).
Defined.

Lemma set_eq_equivalence_witness :
  let a := TreeSet_of_list less [1; 2; 3] in
  let b := TreeSet_of_list less [3; 2; 1] in
  let c := TreeSet_of_list less [2; 1; 3] in
  set_eq a b = true ∧ set_eq b c = true ∧ set_eq a c = true.
Proof.
  intros a b c. split; [reflexivity|]. split; [reflexivity|].
  exact (proj1 (proj2 (proj2 (set_eq_equivalence a b c))) eq_refl eq_refl).
Defined.

Lemma set_eq_members_witness :
  let a := TreeSet_of_list less [1; 2; 3] in
  let b := TreeSet_of_list less [3; 2; 1] in
  StrictWeakOrder less ∧ TotalOrder less ∧
  reachable less a ∧ reachable less b ∧
  (set_eq a b = true ↔ ∀ v, contains less v a = contains less v b).
Proof.
  split; [exact less_swo|]. split; [exact less_total|].
  split; [exact (TreeSet_of_list_reachable less [1; 2; 3])|].
  split; [exact (TreeSet_of_list_reachable less [3; 2; 1])|].
  exact (set_eq_members less _ _ less_swo less_total
           (TreeSet_of_list_reachable less [1; 2; 3])
           (TreeSet_of_list_reachable less [3; 2; 1])).
Defined.

Lemma set_algebra_laws_witness :
  let a := TreeSet_of_list less [1; 2; 3] in
  let b := TreeSet_of_list less [1; 2; 4] in
  let c := TreeSet_of_list less [5; 2] in
  StrictWeakOrder less ∧ TotalOrder less ∧
  reachable less a ∧ reachable less b ∧ reachable less c ∧
  set_eq (plus less a b) (plus less b a) = true ∧
  set_eq (intersect less a b) (intersect less b a) = true ∧
  set_eq (plus less (plus less a b) c) (plus less a (plus less b c)) = true ∧
  set_eq (minus less (plus less a b) b) (minus less a b) = true.
Proof.
  split; [exact less_swo|]. split; [exact less_total|].
  split; [exact (TreeSet_of_list_reachable less [1; 2; 3])|].
  split; [exact (TreeSet_of_list_reachable less [1; 2; 4])|].
  split; [exact (TreeSet_of_list_reachable less [5; 2])|].
  exact (set_algebra_laws less _ _ _ less_swo less_total
           (TreeSet_of_list_reachable less [1; 2; 3])
           (TreeSet_of_list_reachable less [1; 2; 4])
           (TreeSet_of_list_reachable less [5; 2])).
Defined.

Lemma render_equal_sets_witness :
  let a := TreeSet_of_list less [1; 2; 3] in
  let b := TreeSet_of_list less [3; 2; 1] in
  set_eq a b = true ∧ render pretty a = render pretty b.
Proof.
  intros a b. split; [reflexivity|].
  exact (render_equal_sets pretty a b eq_refl).
Defined.

(** Merging the one-node trees of 1 and of 2. *)
Lemma merge_concatenates_witness :
  search_tree less (merge (make_node 1) (make_node 2)).
Proof.
  apply (proj2 (proj2 (merge_concatenates less (make_node 1) (make_node 2)))).
  - simpl. split_and!; [constructor|constructor|exact I|exact I].
  - simpl. split_and!; [constructor|constructor|exact I|exact I].
  - intros x y Hx Hy. simpl in Hx, Hy.
    apply list_elem_of_singleton in Hx. apply list_elem_of_singleton in Hy.
    subst. reflexivity.
Defined.

(** Adding 2, 1, 3 and deleting 3, 2, 1. *)
Lemma add_all_del_all_witness :
  StrictWeakOrder less ∧ NoDup [2; 1; 3] ∧ [3; 2; 1] ≡ₚ [2; 1; 3] ∧
  let '(added, s1) := add_values less [2; 1; 3] TreeSet_empty in
  let '(deleted, s2) := del_values less [3; 2; 1] s1 in
  Forall (λ b, b = true) added ∧
  size s1 = Z.of_nat (length [2; 1; 3]) ∧
  (∀ v, contains less v s1 = bool_decide (v ∈ [2; 1; 3])) ∧
  Forall (λ b, b = true) deleted ∧
  s2 = TreeSet_empty.
Proof.
  assert (NoDup [2; 1; 3]) as Hnd
    by (apply (bool_decide_unpack _); vm_compute; exact I).
  assert ([3; 2; 1] ≡ₚ [2; 1; 3]) as Hp
    by exact (perm_trans (perm_swap 2 3 [1]) (perm_skip 2 (perm_swap 1 3 []))).
  split; [exact less_swo|]. split; [exact Hnd|]. split; [exact Hp|].
  exact (add_all_del_all less [2; 1; 3] [3; 2; 1] less_swo Hnd Hp).
Defined.

(** The tree of 2, 1, 3 between 0 and 4. *)
Lemma sanity_check_range_exact_witness :
  let n := _root (TreeSet_of_list less [2; 1; 3]) in
  StrictWeakOrder less ∧
  fst (sanity_check_range less n 0 4) = true ∧
  search_tree less n ∧ less 0 4 = true ∧
  Forall (λ x, less 0 x = true ∧ less x 4 = true) (inorder n).
Proof.
  intros n. split; [exact less_swo|]. split; [reflexivity|].
  exact (proj1 (sanity_check_range_exact less n 0 4 less_swo) eq_refl).
Defined.

Lemma sanity_check_accepts_witness :
  let s := TreeSet_of_list less [2; 1; 3] in
  StrictWeakOrder less ∧ TotalOrder less ∧ reachable less s ∧
  (true = true → INT_MIN ≠ INT_MAX) ∧
  (sanity_check (limits := numeric_limits_int) less (_root s) = true ↔
   (true = true →
    Forall (λ x, less INT_MIN x = true ∧ less x INT_MAX = true)
           (traversal s))).
Proof.
  assert (true = true → INT_MIN ≠ INT_MAX) as Hne
    by (intros _; vm_compute; discriminate).
  split; [exact less_swo|]. split; [exact less_total|].
  split; [exact (TreeSet_of_list_reachable less [2; 1; 3])|].
  split; [exact Hne|].
  exact (sanity_check_accepts (limits := numeric_limits_int) less _
           less_swo less_total
           (TreeSet_of_list_reachable less [2; 1; 3]) Hne).
Defined.

(** The ordering test on 2, 1, 3: nine checks pass and the three after the
    additions do not. *)
Lemma check_add_del_ordering_checks_witness :
  StrictWeakOrder less ∧ NoDup [2; 1; 3] ∧
  [3; 2; 1] ≡ₚ [2; 1; 3] ∧ [1; 2; 3] ≡ₚ [2; 1; 3] ∧
  check_add_del_ordering less TreeSet_empty [2; 1; 3] [3; 2; 1] [1; 2; 3] =
  (replicate 3 true ++ [true] ++ replicate 3 false ++
   replicate 3 true ++ [true] ++ replicate 3 true, TreeSet_empty).
Proof.
  assert (NoDup [2; 1; 3]) as Hnd
    by (apply (bool_decide_unpack _); vm_compute; exact I).
  assert ([3; 2; 1] ≡ₚ [2; 1; 3]) as Hp
    by exact (perm_trans (perm_swap 2 3 [1]) (perm_skip 2 (perm_swap 1 3 []))).
  assert ([1; 2; 3] ≡ₚ [2; 1; 3]) as He by exact (perm_swap 2 1 [3]).
  split; [exact less_swo|]. split; [exact Hnd|]. split; [exact Hp|].
  split; [exact He|].
  exact (check_add_del_ordering_checks less [2; 1; 3] [3; 2; 1] [1; 2; 3]
           less_swo Hnd Hp He).
Defined.

(** The iteration test on 2, 1, 3, with 1, 2, 3 expected. *)
Lemma check_iter_ordering_passes_witness :
  StrictWeakOrder less ∧ TotalOrder less ∧ NoDup [2; 1; 3] ∧
  [1; 2; 3] ≡ₚ [2; 1; 3] ∧
  StronglySorted (λ a b, less a b = true) [1; 2; 3] ∧
  check_iter_ordering less TreeSet_empty [2; 1; 3] [1; 2; 3] =
  Some (replicate 3 true ++ [true] ++ replicate 3 true ++ replicate 3 true).
Proof.
  assert (NoDup [2; 1; 3]) as Hnd
    by (apply (bool_decide_unpack _); vm_compute; exact I).
  assert ([1; 2; 3] ≡ₚ [2; 1; 3]) as He by exact (perm_swap 2 1 [3]).
  assert (StronglySorted (λ a b, less a b = true) [1; 2; 3]) as Hs
    by (repeat constructor).
  split; [exact less_swo|]. split; [exact less_total|].
  split; [exact Hnd|]. split; [exact He|]. split; [exact Hs|].
  exact (check_iter_ordering_passes less [2; 1; 3] [1; 2; 3]
           less_swo less_total Hnd He Hs).
Defined.
